(** * The tree-walking emitter of regexp2cg ([convert_execute.go])

    A shallow embedding of the Go emitter that turns a regular-expression
    syntax tree into the source text of one matching routine, and the
    properties of the emitted text that the specification states.

    The emitter is stateful: every Go function takes the converter [c] and the
    per-expression data [rm] by pointer.  Here the two are one record,
    [regexpData], threaded through a small state-and-stop monad.  The text
    written by [c.writeLine] and [c.write] is kept as the sequence of writes. *)

From Stdlib Require Import ZArith List String Ascii Bool Lia DecimalString.
Import ListNotations.
Local Open Scope string_scope.
Local Open Scope list_scope.
Local Open Scope Z_scope.
#[local] Set Warnings "-register-all".

(** ** Text helpers *)

(** [fmt.Sprintf] with [%s] and [%v] holes only: the pieces in order. *)
Definition sprint (parts : list string) : string := String.concat "" parts.

(** [%v] of a Go [int], and [strconv.Itoa]. *)
Definition itoa (z : Z) : string := NilZero.string_of_int (Z.to_int z).

Definition nl : string := String (ascii_of_nat 10) "".
Definition tab : string := String (ascii_of_nat 9) "".

Fixpoint tabs (n : nat) : string :=
  match n with
  | O => ""
  | S k => (tab ++ tabs k)%string
  end.

(** A line break inside a Go raw string, followed by [n] tabs of indentation. *)
Definition nlt (n : nat) : string := (nl ++ tabs n)%string.

(** Go's [int] is taken as 64 bits wide; sums and differences wrap. *)
Definition int_wrap (z : Z) : Z := (z + 2 ^ 63) mod 2 ^ 64 - 2 ^ 63.
Definition int_add (a b : Z) : Z := int_wrap (a + b).
Definition int_sub (a b : Z) : Z := int_wrap (a - b).
Definition int_neg (a : Z) : Z := int_wrap (- a).

(** [len] of a slice or of a node's child list. *)
Definition len {A} (l : list A) : Z := Z.of_nat (List.length l).

Definition MaxInt32 : Z := 2147483647.

(** Arbitrary limit for unrolling vs creating a loop. *)
Definition MaxUnrollSize : Z := 16.

(** ** The syntax tree (package [syntax], read through its exported fields) *)

Inductive NodeType :=
| NtOneloop | NtNotoneloop | NtSetloop
| NtOnelazy | NtNotonelazy | NtSetlazy
| NtOne | NtNotone | NtSet | NtMulti | NtRef
| NtBol | NtEol | NtBoundary | NtNonboundary
| NtECMABoundary | NtNonECMABoundary
| NtBeginning | NtStart | NtEndZ | NtEnd
| NtNothing | NtEmpty | NtAlternate | NtConcatenate
| NtLoop | NtLazyloop | NtCapture
| NtPosLook | NtNegLook | NtAtomic
| NtBackRefCond | NtExprCond | NtUpdateBumpalong
| NtOther (code : Z).

Definition NodeType_eqb (a b : NodeType) : bool :=
  match a, b with
  | NtOneloop, NtOneloop | NtNotoneloop, NtNotoneloop | NtSetloop, NtSetloop
  | NtOnelazy, NtOnelazy | NtNotonelazy, NtNotonelazy | NtSetlazy, NtSetlazy
  | NtOne, NtOne | NtNotone, NtNotone | NtSet, NtSet | NtMulti, NtMulti
  | NtRef, NtRef | NtBol, NtBol | NtEol, NtEol | NtBoundary, NtBoundary
  | NtNonboundary, NtNonboundary | NtECMABoundary, NtECMABoundary
  | NtNonECMABoundary, NtNonECMABoundary | NtBeginning, NtBeginning
  | NtStart, NtStart | NtEndZ, NtEndZ | NtEnd, NtEnd | NtNothing, NtNothing
  | NtEmpty, NtEmpty | NtAlternate, NtAlternate
  | NtConcatenate, NtConcatenate | NtLoop, NtLoop | NtLazyloop, NtLazyloop
  | NtCapture, NtCapture | NtPosLook, NtPosLook | NtNegLook, NtNegLook
  | NtAtomic, NtAtomic | NtBackRefCond, NtBackRefCond
  | NtExprCond, NtExprCond | NtUpdateBumpalong, NtUpdateBumpalong => true
  | NtOther x, NtOther y => Z.eqb x y
  | _, _ => false
  end.

(** A rune is a code point. *)
Definition rune := Z.

Inductive FindMode_t := LiteralAfterLoop_LeftToRight | OtherFindMode.

Section Emitter.

(** The character class behind [node.Set] (a [*syntax.CharSet]) is opaque to
    the emitter, which only calls its methods. *)
Context {CharSet : Type}.

(** [Addr] stands for the node's address: the Go code compares nodes and keys
    the analysis results by pointer. *)
Inductive RegexNode := mkNode {
  T : NodeType;
  Options : Z;
  Ch : rune;
  Str : list rune;
  Set_ : CharSet;
  M : Z;
  N : Z;
  Children : list RegexNode;
  Addr : Z
}.

Record RegexTree := {
  Root : RegexNode;
  Caps : option (list (Z * Z));
  Caplist : list string;
  Capnumlist : option (list Z);
  Captop : Z;
  FindMode : FindMode_t;
  LiteralAfterLoop_LoopNode : Z
}.

Record AnalysisResults := {
  MayBacktrack : RegexNode -> bool;
  IsAtomicByAncestor : RegexNode -> bool;
  IsInLoop : RegexNode -> bool;
  MayContainCapture : RegexNode -> bool
}.

(** One write to [c.out]: a whole line ([writeLine]) or a fragment ([write]). *)
Inductive emission := Line (s : string) | Frag (s : string).

Definition text (e : emission) : string :=
  match e with Line s => s | Frag s => s end.

(** The converter's output and the fields of [regexpData] the emitter uses. *)
Record regexpData := {
  out : list emission;
  GeneratedName : string;
  rmOptions : Z;
  Tree : RegexTree;
  Analysis : AnalysisResults;
  additionalDeclarations : list string;
  usedNames : list (string * Z);
  emittedLabels : list string;
  usedLabels : list string;
  sliceSpan : string;
  sliceStaticPos : Z;
  doneLabel : string;
  topLevelDoneLabel : string;
  expressionHasCaptures : bool
}.

Definition set_out (v : list emission) (rm : regexpData) : regexpData :=
  {| out := v; GeneratedName := GeneratedName rm; rmOptions := rmOptions rm;
     Tree := Tree rm; Analysis := Analysis rm;
     additionalDeclarations := additionalDeclarations rm;
     usedNames := usedNames rm; emittedLabels := emittedLabels rm;
     usedLabels := usedLabels rm; sliceSpan := sliceSpan rm;
     sliceStaticPos := sliceStaticPos rm; doneLabel := doneLabel rm;
     topLevelDoneLabel := topLevelDoneLabel rm;
     expressionHasCaptures := expressionHasCaptures rm |}.

Definition set_additionalDeclarations (v : list string) (rm : regexpData) : regexpData :=
  {| out := out rm; GeneratedName := GeneratedName rm; rmOptions := rmOptions rm;
     Tree := Tree rm; Analysis := Analysis rm;
     additionalDeclarations := v;
     usedNames := usedNames rm; emittedLabels := emittedLabels rm;
     usedLabels := usedLabels rm; sliceSpan := sliceSpan rm;
     sliceStaticPos := sliceStaticPos rm; doneLabel := doneLabel rm;
     topLevelDoneLabel := topLevelDoneLabel rm;
     expressionHasCaptures := expressionHasCaptures rm |}.

Definition set_usedNames (v : list (string * Z)) (rm : regexpData) : regexpData :=
  {| out := out rm; GeneratedName := GeneratedName rm; rmOptions := rmOptions rm;
     Tree := Tree rm; Analysis := Analysis rm;
     additionalDeclarations := additionalDeclarations rm;
     usedNames := v; emittedLabels := emittedLabels rm;
     usedLabels := usedLabels rm; sliceSpan := sliceSpan rm;
     sliceStaticPos := sliceStaticPos rm; doneLabel := doneLabel rm;
     topLevelDoneLabel := topLevelDoneLabel rm;
     expressionHasCaptures := expressionHasCaptures rm |}.

Definition set_emittedLabels (v : list string) (rm : regexpData) : regexpData :=
  {| out := out rm; GeneratedName := GeneratedName rm; rmOptions := rmOptions rm;
     Tree := Tree rm; Analysis := Analysis rm;
     additionalDeclarations := additionalDeclarations rm;
     usedNames := usedNames rm; emittedLabels := v;
     usedLabels := usedLabels rm; sliceSpan := sliceSpan rm;
     sliceStaticPos := sliceStaticPos rm; doneLabel := doneLabel rm;
     topLevelDoneLabel := topLevelDoneLabel rm;
     expressionHasCaptures := expressionHasCaptures rm |}.

Definition set_usedLabels (v : list string) (rm : regexpData) : regexpData :=
  {| out := out rm; GeneratedName := GeneratedName rm; rmOptions := rmOptions rm;
     Tree := Tree rm; Analysis := Analysis rm;
     additionalDeclarations := additionalDeclarations rm;
     usedNames := usedNames rm; emittedLabels := emittedLabels rm;
     usedLabels := v; sliceSpan := sliceSpan rm;
     sliceStaticPos := sliceStaticPos rm; doneLabel := doneLabel rm;
     topLevelDoneLabel := topLevelDoneLabel rm;
     expressionHasCaptures := expressionHasCaptures rm |}.

Definition set_sliceSpan (v : string) (rm : regexpData) : regexpData :=
  {| out := out rm; GeneratedName := GeneratedName rm; rmOptions := rmOptions rm;
     Tree := Tree rm; Analysis := Analysis rm;
     additionalDeclarations := additionalDeclarations rm;
     usedNames := usedNames rm; emittedLabels := emittedLabels rm;
     usedLabels := usedLabels rm; sliceSpan := v;
     sliceStaticPos := sliceStaticPos rm; doneLabel := doneLabel rm;
     topLevelDoneLabel := topLevelDoneLabel rm;
     expressionHasCaptures := expressionHasCaptures rm |}.

Definition set_sliceStaticPos (v : Z) (rm : regexpData) : regexpData :=
  {| out := out rm; GeneratedName := GeneratedName rm; rmOptions := rmOptions rm;
     Tree := Tree rm; Analysis := Analysis rm;
     additionalDeclarations := additionalDeclarations rm;
     usedNames := usedNames rm; emittedLabels := emittedLabels rm;
     usedLabels := usedLabels rm; sliceSpan := sliceSpan rm;
     sliceStaticPos := v; doneLabel := doneLabel rm;
     topLevelDoneLabel := topLevelDoneLabel rm;
     expressionHasCaptures := expressionHasCaptures rm |}.

Definition set_doneLabel (v : string) (rm : regexpData) : regexpData :=
  {| out := out rm; GeneratedName := GeneratedName rm; rmOptions := rmOptions rm;
     Tree := Tree rm; Analysis := Analysis rm;
     additionalDeclarations := additionalDeclarations rm;
     usedNames := usedNames rm; emittedLabels := emittedLabels rm;
     usedLabels := usedLabels rm; sliceSpan := sliceSpan rm;
     sliceStaticPos := sliceStaticPos rm; doneLabel := v;
     topLevelDoneLabel := topLevelDoneLabel rm;
     expressionHasCaptures := expressionHasCaptures rm |}.

Definition set_topLevelDoneLabel (v : string) (rm : regexpData) : regexpData :=
  {| out := out rm; GeneratedName := GeneratedName rm; rmOptions := rmOptions rm;
     Tree := Tree rm; Analysis := Analysis rm;
     additionalDeclarations := additionalDeclarations rm;
     usedNames := usedNames rm; emittedLabels := emittedLabels rm;
     usedLabels := usedLabels rm; sliceSpan := sliceSpan rm;
     sliceStaticPos := sliceStaticPos rm; doneLabel := doneLabel rm;
     topLevelDoneLabel := v;
     expressionHasCaptures := expressionHasCaptures rm |}.

Definition set_expressionHasCaptures (v : bool) (rm : regexpData) : regexpData :=
  {| out := out rm; GeneratedName := GeneratedName rm; rmOptions := rmOptions rm;
     Tree := Tree rm; Analysis := Analysis rm;
     additionalDeclarations := additionalDeclarations rm;
     usedNames := usedNames rm; emittedLabels := emittedLabels rm;
     usedLabels := usedLabels rm; sliceSpan := sliceSpan rm;
     sliceStaticPos := sliceStaticPos rm; doneLabel := doneLabel rm;
     topLevelDoneLabel := topLevelDoneLabel rm;
     expressionHasCaptures := v |}.

(** ** The emission monad

    A Go function over [c] and [rm] either returns, or stops: by a panic (an
    index out of range, the dispatcher's [panic]) or because the bounded
    recursion of this model ran out of fuel.  Both outcomes keep the state
    reached so far. *)

Inductive stop := Panicked | OutOfFuel.

Inductive result (A : Type) :=
| Ok (a : A) (rm : regexpData)
| Stop (why : stop) (rm : regexpData).
Arguments Ok {A} a rm.
Arguments Stop {A} why rm.

Definition Emit (A : Type) : Type := regexpData -> result A.

Definition ret {A} (a : A) : Emit A := fun rm => Ok a rm.

Definition bind {A B} (m : Emit A) (k : A -> Emit B) : Emit B :=
  fun rm => match m rm with
            | Ok a rm' => k a rm'
            | Stop w rm' => Stop w rm'
            end.

Definition panic {A} : Emit A := fun rm => Stop Panicked rm.
Definition outOfFuel {A} : Emit A := fun rm => Stop OutOfFuel rm.

Definition get : Emit regexpData := fun rm => Ok rm rm.
Definition modify (f : regexpData -> regexpData) : Emit unit := fun rm => Ok tt (f rm).

Definition final {A} (r : result A) : regexpData :=
  match r with Ok _ rm => rm | Stop _ rm => rm end.

Notation "x <- m ;; k" := (bind m (fun x => k))
  (at level 61, m at next level, right associativity).
Notation "m ;;; k" := (bind m (fun _ => k))
  (at level 61, right associativity).

(** [if cond { body }] with no else branch. *)
Definition when (b : bool) (m : Emit unit) : Emit unit := if b then m else ret tt.

(** ** What the emitter takes from outside this file

    Methods of the syntax nodes and character classes, helpers of the
    converter defined in other files, and the library formatting verbs whose
    result depends on the data.  The emitter uses them as black boxes. *)

Record Externals := {
  (** the [syntax.RightToLeft] option bit *)
  RightToLeft : Z;
  (** the nil [*CharSet] of a node built without a set *)
  nilCharSet : CharSet;
  (** the address of a node allocated during emission *)
  newNodeAddr : Z;
  (** [node.Description()] *)
  Description : RegexNode -> string;
  IsOneFamily : RegexNode -> bool;
  IsNotoneFamily : RegexNode -> bool;
  IsSetFamily : RegexNode -> bool;
  ComputeMinLength : RegexNode -> Z;
  FindStartingLiteralNode : RegexNode -> bool -> option RegexNode;
  FirstCharOfOneOrMulti : RegexNode -> rune;
  (** returns [(requiredLength, exclusiveEnd)] when it reports true *)
  TryGetJoinableLengthCheckChildRange : RegexNode -> Z -> option (Z * Z);
  (** returns [(nodesConsumed, caseInsensitiveString)] when it reports true *)
  TryGetOrdinalCaseInsensitiveString : RegexNode -> Z -> Z -> bool -> option (Z * string);
  IsAnything : CharSet -> bool;
  IsNegated : CharSet -> bool;
  GetIfNRanges : CharSet -> Z -> list (rune * rune);
  (** [set.GetSetChars(buf)]: the buffer passed in and the slice returned,
      each with its contents and its capacity *)
  GetSetChars : CharSet -> list rune * Z -> list rune * Z;
  SetString : CharSet -> string;
  getRuneSliceLiteral : list rune -> string;
  getRuneLiteralParams : list rune -> string;
  (** [c.emitMatchCharacterClass(rm, set, negate, expr)]: the expression it returns *)
  emitMatchCharacterClass : CharSet -> bool -> string -> string;
  emitIndexOfChars : list rune -> bool -> string -> string;
  (** [%q] of a rune *)
  fmt_q : rune -> string;
  (** [%#v] of a string *)
  fmt_gosyntax : string -> string;
  (** the conversion [string(runes)] *)
  string_of_runes : list rune -> string;
  (** the conversion [string(i)] of an [int] *)
  string_of_int : Z -> string;
  (** [%v] of a node type *)
  fmt_NodeType : NodeType -> string;
  (** [%s] of a [*string] *)
  fmt_s_pointer : string -> string;
  (** [fmt.Sprintf(format, arg)] where the format itself was computed *)
  Sprintf1 : string -> string -> string;
  (** [strconv.Atoi]: the number, or [None] when it reports an error *)
  Atoi : string -> option Z
}.

Variable X : Externals.

Definition isRightToLeft (options : Z) : bool :=
  negb (Z.land options (RightToLeft X) =? 0).

(** ** Writing *)

(** Modelled from the spec: [c.writeLine] and [c.write] are defined outside
    this file; [out] is an append-only line buffer. *)
Definition writeLine (s : string) : Emit unit :=
  modify (fun rm => set_out (out rm ++ [Line s]) rm).

Definition write (s : string) : Emit unit :=
  modify (fun rm => set_out (out rm ++ [Frag s]) rm).

(** ** Names and late declarations *)

Fixpoint lookupName (name : string) (m : list (string * Z)) : Z :=
  match m with
  | [] => 0
  | (k, v) :: m' => if String.eqb k name then v else lookupName name m'
  end.

Fixpoint bumpName (name : string) (m : list (string * Z)) : list (string * Z) :=
  match m with
  | [] => [(name, 1)]
  | (k, v) :: m' =>
      if String.eqb k name then (k, v + 1) :: m' else (k, v) :: bumpName name m'
  end.

Definition nameFor (name : string) (count : Z) : string :=
  if count =? 0 then name else sprint [name; itoa count].

(** Modelled from the spec: [rm.reserveName] is defined outside this file;
    names start unadorned and get a numeric suffix upon reuse, counted in
    [usedNames]. *)
Definition reserveName (name : string) : Emit string :=
  fun rm => Ok (nameFor name (lookupName name (usedNames rm)))
               (set_usedNames (bumpName name (usedNames rm)) rm).

Definition appendDeclaration (l : string) : Emit unit :=
  modify (fun rm => set_additionalDeclarations (additionalDeclarations rm ++ [l]) rm).

(** Modelled from the spec: [rm.addLocalDec] is defined outside this file;
    it adds one line to [additionalDeclarations]. *)
Definition addLocalDec (l : string) : Emit unit := appendDeclaration l.

Definition emitMarkLabel (label : string) : Emit unit :=
  modify (fun rm => set_emittedLabels (emittedLabels rm ++ [label]) rm) ;;;
  writeLine (sprint [label; ":"]).

(** ** Gotos, stack operations and slice bookkeeping *)

(** Emits code to unwind the capture stack until the given crawl position. *)
Definition emitUncaptureUntil (capturepos : string) : Emit unit :=
  writeLine (sprint ["r.UncaptureUntil("; capturepos; ")"]).

(** Gets whether calling Goto(label) will result in exiting the match method. *)
Definition gotoWillExitMatch (rm : regexpData) (label : string) : bool :=
  String.eqb label (topLevelDoneLabel rm).

Definition emitExecuteGoto (label : string) : Emit unit :=
  rm <- get ;;
  if gotoWillExitMatch rm label then
    when (expressionHasCaptures rm) (emitUncaptureUntil "0") ;;;
    writeLine "return nil // The input didn't match."
  else
    modify (fun rm => set_usedLabels (usedLabels rm ++ [label]) rm) ;;;
    writeLine (sprint ["goto "; label]).

Definition emitCaseGoto (clause label : string) : Emit unit :=
  writeLine clause ;;;
  emitExecuteGoto label.

Fixpoint emitStackPop (stackCookie : Z) (args : list string) : Emit unit :=
  match args with
  | [] => ret tt
  | arg :: rest =>
      writeLine (sprint [arg; " = r.StackPop()"]) ;;;
      emitStackPop stackCookie rest
  end.

Definition createStackCookie : Z := 0.

Definition emitStackCookieValidate (stackCookie : Z) : Emit unit := ret tt.

Definition validateStackCookieWithAdditionAndReturnPoppedStack (stackCookie : Z) : string :=
  "r.StackPop()".

(** [strings.Join(args, sep)] *)
Definition Join (args : list string) (sep : string) : string := String.concat sep args.

Definition emitStackPush (stackCookie : Z) (args : list string) : Emit unit :=
  match args with
  | [a0] => writeLine (sprint ["r.StackPush("; a0; ")"])
  | [a0; a1] => writeLine (sprint ["r.StackPush2("; a0; ", "; a1; ")"])
  | [a0; a1; a2] => writeLine (sprint ["r.StackPush3("; a0; ", "; a1; ", "; a2; ")"])
  | _ => writeLine (sprint ["r.StackPushN("; Join args ", "; ")"])
  end.

(** Emits the sum of a constant and a value from a local. *)
Definition sum (constant : Z) (local : option string) : string :=
  match local with
  | None => itoa constant
  | Some l =>
      if constant =? 0 then l
      else sprint [itoa constant; " + "; fmt_s_pointer X l]
  end.

Definition isNil {A} (o : option A) : bool :=
  match o with None => true | Some _ => false end.

Definition spanLengthCheck (rm : regexpData) (requiredLength : Z)
    (dynamicRequiredLength : option string) : string :=
  if isNil dynamicRequiredLength && (int_add (sliceStaticPos rm) requiredLength =? 1) then
    sprint ["len("; sliceSpan rm; ") == 0"]
  else
    sprint ["len("; sliceSpan rm; ") < ";
            sum (int_add (sliceStaticPos rm) requiredLength) dynamicRequiredLength].

(** Emits a check that the span is large enough at the currently known static
    position to handle the required additional length. *)
Definition emitSpanLengthCheck (requiredLength : Z)
    (dynamicRequiredLength : option string) : Emit unit :=
  rm <- get ;;
  writeLine (sprint ["if "; spanLengthCheck rm requiredLength dynamicRequiredLength; " {"]) ;;;
  emitExecuteGoto (doneLabel rm) ;;;
  writeLine "}".

Definition emitAddStmt (variable : string) (value : Z) : Emit unit :=
  if value =? 0 then ret tt
  else if value =? 1 then writeLine (sprint [variable; "++"])
  else if value =? -1 then writeLine (sprint [variable; "--"])
  else if value >? 0 then writeLine (sprint [variable; " += "; itoa value])
  else if value <? 0 then writeLine (sprint [variable; " -= "; itoa (int_neg value)])
  else ret tt.

(** Slices the input starting at pos until end and stores it into slice. *)
Definition sliceInputSpan (declare : bool) : Emit unit :=
  when declare (write "var ") ;;;
  rm <- get ;;
  writeLine (sprint [sliceSpan rm; " = r.Runtext[pos:]"]).

(** Adds the value of sliceStaticPos into the pos local, slices slice by the
    corresponding amount, and zeros out sliceStaticPos. *)
Definition transferSliceStaticPosToPos (forceSliceReload : bool) : Emit unit :=
  rm <- get ;;
  if sliceStaticPos rm >? 0 then
    emitAddStmt "pos" (sliceStaticPos rm) ;;;
    modify (set_sliceStaticPos 0) ;;;
    sliceInputSpan false
  else if forceSliceReload then
    sliceInputSpan false
  else ret tt.

Definition emitTimeoutCheck : Emit unit :=
  writeLine (sprint ["if err := r.CheckTimeout(); err != nil {"; nlt 2;
                     "return err"; nlt 1; "}"]).

Definition emitTimeoutCheckIfNeeded : Emit unit := ret tt.

(** Gets a comparison for whether the iteration count is less than the upper bound. *)
Definition countIsLessThan (count : string) (exclusiveUpper : Z) : string :=
  if exclusiveUpper =? 1 then (count ++ " == 0")%string
  else sprint [count; " < "; itoa exclusiveUpper].

(** ** Describing nodes *)

Fixpoint lookupCaps (k : Z) (caps : list (Z * Z)) : option Z :=
  match caps with
  | [] => None
  | (k', v) :: rest => if k' =? k then Some v else lookupCaps k rest
  end.

Definition mapCaptureNumber (capNum : Z) (caps : option (list (Z * Z))) : Z :=
  if capNum =? -1 then -1
  else match caps with
       | Some m => match lookupCaps capNum m with Some v => v | None => 0 end
       | None => capNum
       end.

(** [l[i]] of a slice, when the index is in range. *)
Definition index {A} (l : list A) (i : Z) : option A :=
  if (0 <=? i) && (i <? len l) then nth_error l (Z.to_nat i) else None.

(** Gets group name from its number. *)
Definition groupNameFromNumber (tree : RegexTree) (i : Z) : string :=
  if len (Caplist tree) =? 0 then
    let caplen := match Capnumlist tree with
                  | None => Captop tree
                  | Some l => len l
                  end in
    if (i >=? 0) && (i <? caplen) then itoa i else ""
  else
    let lookedUp := match Caps tree with
                    | Some m => lookupCaps i m
                    | None => Some i
                    end in
    match lookedUp with
    | None => ""
    | Some i' =>
        if (i' >=? 0) && (i' <? len (Caplist tree)) then
          match index (Caplist tree) i' with Some name => name | None => "" end
        else ""
    end.

(** Gets an identifier to describe a capture group. *)
Definition describeCapture (rm : regexpData) (capNum : Z) : string :=
  let name := groupNameFromNumber (Tree rm) capNum in
  let id := match Atoi X name with Some v => v | None => 0 end in
  let errIsNil := negb (isNil (Atoi X name)) in
  if errIsNil || negb (id =? capNum) then
    sprint [fmt_gosyntax X name; " capture group"]
  else
    let tens := Z.rem capNum 10 in
    if (tens >=? 1) && (tens <=? 3)
       && negb ((capNum =? 11) || (capNum =? 12) || (capNum =? 13)) then
      if tens =? 1 then sprint [itoa capNum; "st capture group"]
      else if tens =? 2 then sprint [itoa capNum; "nd capture group"]
      else sprint [itoa capNum; "rd capture group"]
    else sprint [itoa capNum; "th capture group"].

Definition isCharLoopGreedy (t : NodeType) : bool :=
  match t with NtOneloop | NtNotoneloop | NtSetloop => true | _ => false end.

Definition isCharLoopLazy (t : NodeType) : bool :=
  match t with NtOnelazy | NtNotonelazy | NtSetlazy => true | _ => false end.

(** Gets a textual description of a loop's style and bounds. *)
Definition describeLoop (rm : regexpData) (node : RegexNode) : string :=
  if M node =? N node then sprint ["exactly "; itoa (M node); " times"]
  else
    let style :=
      if isCharLoopGreedy (T node) then "greedily"
      else if isCharLoopLazy (T node) then "lazily"
      else if NodeType_eqb (T node) NtLoop then
        if IsAtomicByAncestor (Analysis rm) node then "greedily and atomically"
        else "greedily"
      else
        if IsAtomicByAncestor (Analysis rm) node then "lazily and atomically"
        else "lazily" in
    let bounds :=
      if N node =? MaxInt32 then
        if M node =? 0 then " any number of times"
        else if M node =? 1 then " at least once"
        else if M node =? 2 then " at least twice"
        else sprint [" at least "; itoa (M node); " times"]
      else if M node =? 0 then
        if N node =? 1 then ", optionally"
        else sprint [" at most "; itoa (N node); " times"]
      else sprint [" at least "; itoa (M node); " and at most "; itoa (N node); " times"] in
    (style ++ bounds)%string.

Definition unknownNodeType (node : RegexNode) : string :=
  sprint ["Unknown node type "; fmt_NodeType X (T node)].

(** Gets a textual description of the node fit for rendering in a comment in
    source.  The Go function takes [rm] by pointer; it is written in the
    monad like the emitters that call it. *)
Definition describeNode (node : RegexNode) : Emit string :=
  rm <- get ;;
  let rtl := isRightToLeft (Options node) in
  let direction := if rtl then " right-to-left" else "" in
  ret match T node with
  | NtAlternate =>
      let atomic := if IsAtomicByAncestor (Analysis rm) node then ", atomically" else "" in
      sprint ["Match with "; itoa (len (Children node)); " alternative expressions"; atomic; "."]
  | NtAtomic => "Atomic group."
  | NtBeginning => "Match if at the beginning of the string."
  | NtBol => "Match if at the beginning of a line."
  | NtBoundary => "Match if at a word boundary."
  | NtCapture =>
      if (M node =? -1) && negb (N node =? -1) then
        sprint ["Non-capturing balancing group. Uncaptures the ";
                describeCapture rm (N node); "."]
      else if negb (N node =? -1) then
        sprint ["Balancing group. Captures the "; describeCapture rm (M node);
                " and uncaptures the "; describeCapture rm (N node); "."]
      else if N node =? -1 then describeCapture rm (M node)
      else unknownNodeType node
  | NtConcatenate => "Match a sequence of expressions."
  | NtECMABoundary => "Match if at a word boundary (according to ECMAScript rules)."
  | NtEmpty => "Match an empty string."
  | NtEnd => "Match if at the end of the string."
  | NtEndZ => "Match if at the end of the string or if before an ending newline."
  | NtEol => "Match if at the end of a line."
  | NtLoop | NtLazyloop =>
      if (M node =? 0) && (N node =? 1) then
        let ty := if NodeType_eqb (T node) NtLoop then "greedy" else "lazy" in
        sprint ["Optional ("; ty; ")."]
      else sprint ["Loop "; describeLoop rm node; direction; "."]
  | NtMulti =>
      sprint ["Match the string "; fmt_gosyntax X (string_of_runes X (Str node)); direction; "."]
  | NtNonboundary => "Match if at anything other than a word boundary."
  | NtNonECMABoundary =>
      "Match if at anything other than a word boundary (according to ECMAScript rules)."
  | NtNothing => "Fail to match."
  | NtNotone =>
      sprint ["Match any character other than "; fmt_q X (Ch node); direction; "."]
  | NtNotoneloop | NtNotonelazy =>
      sprint ["Match a character other than "; fmt_q X (Ch node); " ";
              describeLoop rm node; direction; "."]
  | NtOne => sprint ["Match "; fmt_q X (Ch node); direction; "."]
  | NtOneloop | NtOnelazy =>
      sprint ["Match "; fmt_q X (Ch node); " "; describeLoop rm node; direction; "."]
  | NtNegLook =>
      if rtl then "Zero-width negative lookbehind" else "Zero-width negative lookahead"
  | NtRef =>
      sprint ["Match the same text as matched by the "; describeCapture rm (M node);
              direction; "."]
  | NtPosLook =>
      if rtl then "Zero-width positive lookbehind" else "Zero-width positive lookahead"
  | NtSet => sprint ["Match "; SetString X (Set_ node); direction; "."]
  | NtSetloop | NtSetlazy =>
      sprint ["Match "; SetString X (Set_ node); " "; describeLoop rm node; direction; "."]
  | NtStart => "Match if at the start position."
  | NtExprCond =>
      "Conditionally match one of two expressions depending on whether an initial expression matches."
  | NtBackRefCond =>
      sprint ["Conditionally match one of two expressions depending on whether the ";
              describeCapture rm (M node); " matched."]
  | NtUpdateBumpalong => "Advance the next matching position."
  | NtOther _ => unknownNodeType node
  end.

(** ** Leaf emitters *)

Definition int32_wrap (z : Z) : Z := (z + 2 ^ 31) mod 2 ^ 32 - 2 ^ 31.

(** [node.Children[i]]; an index out of range panics. *)
Definition childAt (node : RegexNode) (i : Z) : Emit RegexNode :=
  match index (Children node) i with
  | Some c => ret c
  | None => panic
  end.

Definition sourceSpanAt (rm : regexpData) : string :=
  if sliceStaticPos rm >? 0 then
    sprint [sliceSpan rm; "["; itoa (sliceStaticPos rm); ":]"]
  else sliceSpan rm.

Definition emitExecuteMultiCharString (str : list rune)
    (emitLengthCheck clauseOnly rightToLeft : bool) : Emit unit :=
  if rightToLeft then
    writeLine (sprint ["if pos - "; itoa (len str); " >= r.Runtextlen {"]) ;;;
    rm <- get ;;
    emitExecuteGoto (doneLabel rm) ;;;
    writeLine (sprint ["}"; nl]) ;;;
    writeLine (sprint ["for i:=0; i < "; itoa (len str); "; i++ {"; nlt 6;
                       "pos--"; nlt 6;
                       "if r.Runtext[pos] != "; getRuneSliceLiteral X str;
                       "["; itoa (len str); " - i] {"]) ;;;
    rm <- get ;;
    emitExecuteGoto (doneLabel rm) ;;;
    writeLine (sprint ["}"; nl; "}"])
  else
    rm <- get ;;
    let sourceSpan := sourceSpanAt rm in
    let clause := sprint ["!helpers.StartsWith("; sourceSpan; ", ";
                          getRuneSliceLiteral X str; ")"] in
    (if clauseOnly then write clause
     else
       writeLine (sprint ["if "; clause; " {"]) ;;;
       emitExecuteGoto (doneLabel rm) ;;;
       writeLine "}") ;;;
    modify (fun rm => set_sliceStaticPos (int_add (sliceStaticPos rm) (len str)) rm).

(** Emits the code to handle a single-character match. *)
Definition emitExecuteSingleChar (node : RegexNode) (emitLengthCheck : bool)
    (offset : option string) (clauseOnly : bool) : Emit unit :=
  rm <- get ;;
  let rtl := isRightToLeft (Options node) in
  let expr0 :=
    if negb rtl then sprint [sliceSpan rm; "["; sum (sliceStaticPos rm) offset; "]"]
    else "r.Runtext[pos-1]" in
  let expr :=
    if IsSetFamily X node then emitMatchCharacterClass X (Set_ node) true expr0
    else if IsOneFamily X node then sprint [expr0; " != "; fmt_q X (Ch node)]
    else sprint [expr0; " == "; fmt_q X (Ch node)] in
  (if clauseOnly then write expr
   else
     let clause :=
       if negb emitLengthCheck then sprint ["if "; expr; " {"]
       else if negb rtl then sprint ["if "; spanLengthCheck rm 1 offset; " || "; expr; " {"]
       else sprint ["if pos - 1 >= r.Runtextend || "; expr] in
     writeLine clause ;;;
     emitExecuteGoto (doneLabel rm) ;;;
     writeLine "}") ;;;
  if negb rtl then
    modify (fun rm => set_sliceStaticPos (int_add (sliceStaticPos rm) 1) rm)
  else writeLine "pos--".

Definition emitExecuteSingleCharLazy (node : RegexNode) (subsequent : option RegexNode)
    (emitLengthChecksIfRequired : bool) : Emit unit := ret tt.

Definition emitExecuteSingleCharRepeater (node : RegexNode)
    (emitLengthChecksIfRequired : bool) : Emit unit := ret tt.

(** Emits the code to handle a non-backtracking optional zero-or-one loop. *)
Definition emitExecuteAtomicSingleCharZeroOrOne (node : RegexNode) : Emit unit :=
  let rtl := isRightToLeft (Options node) in
  when rtl (transferSliceStaticPosToPos false) ;;;
  rm <- get ;;
  let expr0 :=
    if rtl then "r.Runtext[pos-1]"
    else sprint [sliceSpan rm; "["; itoa (sliceStaticPos rm); "]"] in
  let expr :=
    if IsSetFamily X node then emitMatchCharacterClass X (Set_ node) false expr0
    else
      let op := if IsOneFamily X node then "==" else "!=" in
      sprint [expr0; " "; op; " "; fmt_q X (Ch node)] in
  let spaceAvailable :=
    if rtl then "pos > 0"
    else if negb (sliceStaticPos rm =? 0) then
      sprint ["len("; sliceSpan rm; ") > "; itoa (sliceStaticPos rm)]
    else sprint ["len("; sliceSpan rm; ") == 0"] in
  writeLine (sprint ["if "; spaceAvailable; " && "; expr; " {"]) ;;;
  (if negb rtl then
     writeLine (sprint [sliceSpan rm; " = "; sliceSpan rm; "[1:]"; nlt 2; "pos++"])
   else writeLine "pos--") ;;;
  writeLine "}".

(** Tries to create an indexof call for a node: the literal length and the
    expression when it reports true. *)
Definition tryEmitExecuteIndexOf (node : RegexNode) (spanName : string)
    (useLast negate : bool) : option (Z * string) :=
  let last := if useLast then "Last" else "" in
  if NodeType_eqb (T node) NtMulti then
    Some (len (Str node),
          sprint ["helpers."; last; "IndexOf("; spanName; ", ";
                  getRuneSliceLiteral X (Str node); ")"])
  else if IsOneFamily X node then
    Some (1,
          if negate then
            sprint ["helpers."; last; "IndexOfAnyExcept1("; spanName; ", "; fmt_q X (Ch node); ")"]
          else
            sprint ["helpers."; last; "IndexOfAny1("; spanName; ", "; fmt_q X (Ch node); ")"])
  else if IsNotoneFamily X node then
    Some (1,
          if negate then
            sprint ["helpers."; last; "IndexOfAny1("; spanName; ", "; fmt_q X (Ch node); ")"]
          else
            sprint ["helpers."; last; "IndexOfAnyExcept1("; spanName; ", "; fmt_q X (Ch node); ")"])
  else if IsSetFamily X node then
    let negated := negb (Bool.eqb (IsNegated X (Set_ node)) negate) in
    match GetIfNRanges X (Set_ node) 1 with
    | [(first, last_)] =>
        if int32_wrap (last_ - first) >? 1 then
          Some (1,
                if negated then
                  sprint ["helpers."; last; "IndexOfAnyExceptInRange("; spanName; ", ";
                          fmt_q X first; ", "; fmt_q X last_; ")"]
                else
                  sprint ["helpers."; last; "IndexOfAnyInRange("; spanName; ", ";
                          fmt_q X first; ", "; fmt_q X last_; ")"])
        else
          let setChars := fst (GetSetChars X (Set_ node) ([], 128)) in
          if len setChars >? 0 then Some (1, emitIndexOfChars X setChars negate spanName)
          else None
    | _ =>
        let setChars := fst (GetSetChars X (Set_ node) ([], 128)) in
        if len setChars >? 0 then Some (1, emitIndexOfChars X setChars negate spanName)
        else None
    end
  else None.

(** Emits the code to handle a non-backtracking, variable-length loop around a
    single character comparison. *)
Definition emitExecuteSingleCharAtomicLoop (node : RegexNode)
    (emitLengthChecksIfRequired : bool) : Emit unit :=
  if M node =? N node then emitExecuteSingleCharRepeater node emitLengthChecksIfRequired
  else if (M node =? 0) && (N node =? 1) then emitExecuteAtomicSingleCharZeroOrOne node
  else
    let minIterations := M node in
    let maxIterations := N node in
    let rtl := isRightToLeft (Options node) in
    iterationLocal <- reserveName "iteration" ;;
    let charTest (expr0 : string) : string :=
      if IsSetFamily X node then emitMatchCharacterClass X (Set_ node) false expr0
      else
        let op := if IsOneFamily X node then "==" else "!=" in
        sprint [expr0; " "; op; " "; fmt_q X (Ch node)] in
    let maxClause :=
      if negb (maxIterations =? MaxInt32) then
        sprint [countIsLessThan iterationLocal maxIterations; " && "]
      else "" in
    (if rtl then
       transferSliceStaticPosToPos false ;;;
       if IsSetFamily X node && (maxIterations =? MaxInt32) && IsAnything X (Set_ node) then
         writeLine (sprint [iterationLocal; " := pos"])
       else
         writeLine (sprint [iterationLocal; " := 0"]) ;;;
         let expr := charTest (sprint ["r.Runtext[pos - "; iterationLocal; " - 1]"]) in
         writeLine (sprint ["for "; maxClause; "pos > "; iterationLocal; " && "; expr; " {";
                            nlt 5; iterationLocal; "++"; nlt 4; "}"; nlt 4])
     else if IsSetFamily X node && (maxIterations =? MaxInt32) && IsAnything X (Set_ node) then
       transferSliceStaticPosToPos false ;;;
       writeLine (sprint [iterationLocal; " := r.Runtextend - pos"])
     else
       match tryEmitExecuteIndexOf node "%s" false true with
       | Some (_, indexOfExpr0) =>
           transferSliceStaticPosToPos false ;;;
           rm <- get ;;
           let indexOfExpr :=
             if negb (maxIterations =? MaxInt32) then
               Sprintf1 X indexOfExpr0
                 (sprint [sliceSpan rm; "[:helpers.Min(len("; sliceSpan rm; "), ";
                          itoa maxIterations; ")]"])
             else Sprintf1 X indexOfExpr0 (sliceSpan rm) in
           writeLine (sprint [iterationLocal; " := "; indexOfExpr]) ;;;
           let rhs :=
             if negb (maxIterations =? MaxInt32) then
               sprint ["helpers.Min(len("; sliceSpan rm; "), "; itoa maxIterations; ")"]
             else sprint ["len("; sliceSpan rm; ")"] in
           writeLine (sprint ["if "; iterationLocal; " < 0 {"; nlt 4;
                              iterationLocal; " = "; rhs; nlt 3; "}"; nlt 3])
       | None =>
           rm0 <- get ;;
           let expr := charTest (sprint [sliceSpan rm0; "["; iterationLocal; "]"]) in
           when (negb (minIterations =? 0) || negb (maxIterations =? MaxInt32))
                (transferSliceStaticPosToPos false) ;;;
           rm <- get ;;
           writeLine (sprint [iterationLocal; " = "; itoa (sliceStaticPos rm)]) ;;;
           modify (set_sliceStaticPos 0) ;;;
           writeLine (sprint ["for "; maxClause; iterationLocal; " < len("; sliceSpan rm;
                              ") && "; expr; " {"; nlt 3; "   "; iterationLocal; "++";
                              nlt 2; "   }"; nlt 2; "   "])
       end) ;;;
    when (minIterations >? 0)
      (writeLine (sprint ["if "; countIsLessThan iterationLocal minIterations; " {"]) ;;;
       rm <- get ;;
       emitExecuteGoto (doneLabel rm) ;;;
       writeLine (sprint ["}"; nl])) ;;;
    rm <- get ;;
    if negb rtl then
      writeLine (sprint [sliceSpan rm; " = "; sliceSpan rm; "["; iterationLocal; ":]";
                         nlt 3; "pos += "; iterationLocal])
    else writeLine (sprint ["pos -= "; iterationLocal]).

Definition emitExecuteAnchors (node : RegexNode) : Emit unit :=
  rm <- get ;;
  match T node with
  | NtBeginning | NtStart =>
      if sliceStaticPos rm >? 0 then emitExecuteGoto (doneLabel rm)
      else
        (if NodeType_eqb (T node) NtBeginning then writeLine "if pos != 0 {"
         else writeLine "if pos != r.Runtextstart {") ;;;
        emitExecuteGoto (doneLabel rm) ;;;
        writeLine "}"
  | NtBol =>
      (if sliceStaticPos rm >? 0 then
         writeLine (sprint ["if "; sliceSpan rm; "["; itoa (sliceStaticPos rm);
                            "-1] != '\n' {"])
       else writeLine "if pos > 0 && r.Runtext[pos-1] != '\n' {") ;;;
      emitExecuteGoto (doneLabel rm) ;;;
      writeLine "}"
  | NtEnd =>
      (if sliceStaticPos rm >? 0 then
         writeLine (sprint ["if "; itoa (sliceStaticPos rm); " < len("; sliceSpan rm; ") {"])
       else writeLine "if pos < r.Runtextend {") ;;;
      emitExecuteGoto (doneLabel rm) ;;;
      writeLine "}"
  | NtEndZ =>
      (if sliceStaticPos rm >? 0 then
         writeLine (sprint ["if len("; sliceSpan rm; ") > ";
                            itoa (int_add (sliceStaticPos rm) 1);
                            " || (len("; sliceSpan rm; ") > "; itoa (sliceStaticPos rm);
                            " && "; sliceSpan rm; "["; itoa (sliceStaticPos rm);
                            "] != '\n') {"])
       else
         writeLine "if (pos < r.Runtextend - 1) || (pos < r.Runtextend && r.Runtext[pos] != '\n') {") ;;;
      emitExecuteGoto (doneLabel rm) ;;;
      writeLine "}"
  | NtEol =>
      (if sliceStaticPos rm >? 0 then
         writeLine (sprint ["if "; itoa (sliceStaticPos rm); " < len("; sliceSpan rm;
                            ")) && "; sliceSpan rm; "["; itoa (sliceStaticPos rm);
                            "] != '\n') {"])
       else writeLine "if pos < r.Runtextend && r.Runtext[pos] != '\n') {") ;;;
      emitExecuteGoto (doneLabel rm) ;;;
      writeLine "}"
  | _ => ret tt
  end.

Definition emitExecuteBoundary (node : RegexNode) : Emit unit := ret tt.

(** Emits the code to handle updating r.Runtextpos to pos in response to an
    UpdateBumpalong node. *)
Definition emitExecuteUpdateBumpalong (node : RegexNode) : Emit unit :=
  transferSliceStaticPosToPos false ;;;
  writeLine (sprint ["if r.Runtextpos < pos {"; nlt 2; "r.Runtextpos = pos"; nlt 1; "}"]).

(** ** Emitters that recurse into child nodes

    [emitNode] stands for the recursive call of [emitExecuteNode]; the knot
    is tied below, in [emitExecuteNode]. *)

Section Recursive.

Variable emitNode : RegexNode -> option RegexNode -> bool -> Emit unit.

(** Emits the node for an atomic. *)
Definition emitExecuteAtomic (node : RegexNode) (subsequent : option RegexNode) : Emit unit :=
  rm <- get ;;
  let originalDoneLabel := doneLabel rm in
  appendDeclaration "stackpos := 0" ;;;
  startingStackpos <- reserveName "atomic_stackpos" ;;
  writeLine (sprint [startingStackpos; " = stackpos"; nl]) ;;;
  child <- childAt node 0 ;;
  emitNode child subsequent true ;;;
  writeLine (sprint [nl; "stackpos = "; startingStackpos]) ;;;
  modify (set_doneLabel originalDoneLabel).

(** Gets the node to treat as the subsequent one to node.Child(index). *)
Definition getSubsequentOrDefault (i : Z) (node : RegexNode)
    (defaultNode : option RegexNode) : option RegexNode :=
  match find (fun next => negb (NodeType_eqb (T next) NtUpdateBumpalong))
             (skipn (Z.to_nat (i + 1)) (Children node)) with
  | Some next => Some next
  | None => defaultNode
  end.

Definition isSingleCharKind (t : NodeType) : bool :=
  match t with NtOne | NtNotone | NtSet => true | _ => false end.

(** The closure [writePrefix] of [emitExecuteConcatenation]. *)
Definition writePrefix (wroteClauses : bool) (prevDescription : option string) : Emit unit :=
  if wroteClauses then
    match prevDescription with
    | Some d => writeLine (sprint [" || /* "; d; " */ "])
    | None => writeLine " || "
    end
  else writeLine "if ".

(** The loop [for x := 0; x < repeatCount; x++] that unrolls a fixed-count
    single-character child, from [x] on; it returns [prevDescription]. *)
Fixpoint unrollSingleChar (child : RegexNode) (todo : nat) (x : Z)
    (wroteClauses : bool) (prevDescription : option string) : Emit (option string) :=
  match todo with
  | O => ret prevDescription
  | S todo' =>
      writePrefix wroteClauses prevDescription ;;;
      emitExecuteSingleChar child false None true ;;;
      prev <- (if x =? 0 then desc <- describeNode child ;; ret (Some desc)
               else ret None) ;;
      unrollSingleChar child todo' (x + 1) true prev
  end.

(** The loop state of [emitExecuteConcatenation]: the index [i],
    [prevDescription] and [wroteClauses]. *)
Definition concatState : Type := Z * option string * bool.

(** The inner loop [for ; i < exclusiveEnd; i++] of a joined range; it ends
    when the index reaches [exclusiveEnd] or at its [break]. *)
Fixpoint concatClauses (fuel : nat) (node : RegexNode) (exclusiveEnd : Z)
    (st : concatState) : Emit concatState :=
  let '(i, prevDescription, wroteClauses) := st in
  if negb (i <? exclusiveEnd) then ret st
  else
    match fuel with
    | O => outOfFuel
    | S fuel' =>
        child <- childAt node i ;;
        match TryGetOrdinalCaseInsensitiveString X node i exclusiveEnd false with
        | Some (nodesConsumed, caseInsensitiveString) =>
            writePrefix wroteClauses prevDescription ;;;
            rm <- get ;;
            write (sprint ["!helpers.StartsWithIgnoreCase("; sourceSpanAt rm; ", ";
                           caseInsensitiveString; ")"]) ;;;
            let desc := sprint ["Match the string "; fmt_gosyntax X caseInsensitiveString;
                                " (ordinal case-insensitive)"] in
            modify (fun rm => set_sliceStaticPos
                        (int_add (sliceStaticPos rm)
                                 (Z.of_nat (String.length caseInsensitiveString))) rm) ;;;
            let i' := int_add i (int_sub nodesConsumed 1) in
            concatClauses fuel' node exclusiveEnd (int_add i' 1, Some desc, true)
        | None =>
            if NodeType_eqb (T child) NtMulti then
              writePrefix wroteClauses prevDescription ;;;
              emitExecuteMultiCharString (Str child) false true false ;;;
              desc <- describeNode child ;;
              concatClauses fuel' node exclusiveEnd (int_add i 1, Some desc, true)
            else if (IsOneFamily X child || IsNotoneFamily X child || IsSetFamily X child)
                    && (M child =? N child) && (M child <=? MaxUnrollSize) then
              let repeatCount := if isSingleCharKind (T child) then 1 else M child in
              if 0 <? repeatCount then
                prev <- unrollSingleChar child (Z.to_nat repeatCount) 0
                          wroteClauses prevDescription ;;
                concatClauses fuel' node exclusiveEnd (int_add i 1, prev, true)
              else
                concatClauses fuel' node exclusiveEnd (int_add i 1, prevDescription, wroteClauses)
            else ret st
        end
    end.

(** The loop [for i < exclusiveEnd] of a joined range. *)
Fixpoint concatRange (fuel : nat) (budget : nat) (node : RegexNode)
    (subsequent : option RegexNode) (exclusiveEnd : Z)
    (st : concatState) : Emit concatState :=
  let '(i, _, _) := st in
  if negb (i <? exclusiveEnd) then ret st
  else
    match fuel with
    | O => outOfFuel
    | S fuel' =>
        st1 <- concatClauses budget node exclusiveEnd st ;;
        let '(i1, prev1, wrote1) := st1 in
        st2 <- (if wrote1 then
                  match prev1 with
                  | Some d => writeLine (sprint ["/* "; d; " */ {"])
                  | None => writeLine " {"
                  end ;;;
                  rm <- get ;;
                  emitExecuteGoto (doneLabel rm) ;;;
                  writeLine "}" ;;;
                  when (i1 <? len (Children node)) (writeLine "") ;;;
                  ret (i1, None, false)
                else ret st1) ;;
        let '(i2, prev2, wrote2) := st2 in
        if i2 <? exclusiveEnd then
          child <- childAt node i2 ;;
          emitNode child (getSubsequentOrDefault i2 node subsequent) false ;;;
          when (i2 <? int_sub (len (Children node)) 1) (writeLine "") ;;;
          concatRange fuel' budget node subsequent exclusiveEnd (int_add i2 1, prev2, wrote2)
        else
          concatRange fuel' budget node subsequent exclusiveEnd st2
    end.

(** The loop over the children, from index [i] on, with [prevDescription]. *)
Fixpoint concatChildren (fuel : nat) (budget : nat) (node : RegexNode)
    (subsequent : option RegexNode) (emitLengthChecksIfRequired : bool)
    (i : Z) (prevDescription : option string) : Emit unit :=
  if negb (i <? len (Children node)) then ret tt
  else
    match fuel with
    | O => outOfFuel
    | S fuel' =>
        let joinable :=
          if negb (isRightToLeft (Options node)) && emitLengthChecksIfRequired then
            TryGetJoinableLengthCheckChildRange X node i
          else None in
        match joinable with
        | Some (requiredLength, exclusiveEnd) =>
            rm <- get ;;
            write (sprint ["if "; spanLengthCheck rm requiredLength None]) ;;;
            st <- concatRange budget budget node subsequent exclusiveEnd
                    (i, prevDescription, true) ;;
            let '(i1, prev1, _) := st in
            concatChildren fuel' budget node subsequent emitLengthChecksIfRequired
              (int_add (int_sub i1 1) 1) prev1
        | None =>
            child <- childAt node i ;;
            emitNode child (getSubsequentOrDefault i node subsequent)
              emitLengthChecksIfRequired ;;;
            when (i <? int_sub (len (Children node)) 1) (writeLine "") ;;;
            concatChildren fuel' budget node subsequent emitLengthChecksIfRequired
              (int_add i 1) prevDescription
        end
    end.

(** Emits code for a concatenation. *)
Definition emitExecuteConcatenation (budget : nat) (node : RegexNode)
    (subsequent : option RegexNode) (emitLengthChecksIfRequired : bool) : Emit unit :=
  concatChildren budget budget node subsequent emitLengthChecksIfRequired 0 None.

Definition emitExecuteNonBacktrackingRepeater (node : RegexNode) : Emit unit :=
  transferSliceStaticPosToPos false ;;;
  i <- reserveName "loop_iteration" ;;
  writeLine (sprint ["for "; i; " := i; "; i; " < "; itoa (M node); "; "; i; "++ {"]) ;;;
  child <- childAt node 0 ;;
  emitNode child None true ;;;
  transferSliceStaticPosToPos false ;;;
  writeLine "}".

(** [len(s) > 0] of a Go string. *)
Definition nonEmpty (s : string) : bool := negb (String.eqb s "").

(** The continuation test of a general loop (the block after the child's
    code): continue iterating greedily if the maximum has not been reached,
    and stop if the iteration matched empty once the minimum is met. *)
Definition emitLoopCondition (minIterations maxIterations : Z) (iterationMayBeEmpty : bool)
    (iterationCount startingPos body endLoop : string) : Emit unit :=
  writeLine "" ;;;
  if (maxIterations =? MaxInt32) && negb iterationMayBeEmpty then
    writeLine "// The loop has no upper bound. Continue iterating greedily." ;;;
    emitExecuteGoto body
  else
    (if negb iterationMayBeEmpty then
       writeLine (sprint ["// The loop has an upper bound of "; itoa maxIterations;
                          ". Continue iterating greedily if it hasn't yet been reached."]) ;;;
       writeLine (sprint ["if "; countIsLessThan iterationCount maxIterations; " {"])
     else if (minIterations >? 0) && (maxIterations =? MaxInt32) then
       writeLine (sprint ["// The loop has a lower bound of "; itoa minIterations;
                          " but no upper bound. Continue iterating greedily"; nlt 6;
                          "// if the last iteration wasn't empty (or if it was, if the lower bound hasn't yet been reached).";
                          nlt 6;
                          "if pos != "; startingPos; " || ";
                          countIsLessThan iterationCount minIterations; " {"; nlt 6])
     else if minIterations >? 0 then
       writeLine (sprint ["// The loop has a lower bound of "; itoa minIterations;
                          " and an upper bound of {maxIterations}. Continue iterating"; nlt 6;
                          "// greedily if the upper bound hasn't yet been reached and either the last iteration was non-empty or the";
                          nlt 6;
                          "// lower bound hasn't yet been reached."; nlt 6;
                          "if (pos != "; startingPos; " || ";
                          countIsLessThan iterationCount minIterations; ") && ";
                          countIsLessThan iterationCount maxIterations; " {"])
     else if maxIterations =? MaxInt32 then
       writeLine (sprint ["// The loop is unbounded. Continue iterating greedily as long as the last iteration wasn't empty.";
                          nlt 6;
                          "if pos != "; startingPos; " {"])
     else
       writeLine (sprint ["// The loop has an upper bound of "; itoa maxIterations;
                          ". Continue iterating greedily if the upper bound hasn't"; nlt 6;
                          "// yet been reached (as long as the last iteration wasn't empty).";
                          nlt 6;
                          "if pos != "; startingPos; " && ";
                          countIsLessThan iterationCount maxIterations; " {"])) ;;;
    emitExecuteGoto body ;;;
    writeLine "}" ;;;
    emitExecuteGoto endLoop.

(** The state a loop inside another loop saves at its end label. *)
Definition emitLoopStatePush (stackCookie : Z)
    (startingPos startingStackpos iterationCount : string) : Emit unit :=
  if nonEmpty startingPos && nonEmpty startingStackpos then
    emitStackPush stackCookie [startingPos; startingStackpos; iterationCount]
  else if nonEmpty startingPos then
    emitStackPush stackCookie [startingPos; iterationCount]
  else if nonEmpty startingStackpos then
    emitStackPush stackCookie [startingStackpos; iterationCount]
  else emitStackPush stackCookie [iterationCount].

(** The pops of its backtracking section. *)
Definition emitLoopStatePop (stackCookie : Z)
    (startingPos startingStackpos iterationCount : string) : Emit unit :=
  if nonEmpty startingPos && nonEmpty startingStackpos then
    emitStackPop stackCookie [iterationCount; startingPos; startingPos]
  else if nonEmpty startingPos then
    emitStackPop stackCookie [iterationCount; startingPos]
  else if nonEmpty startingStackpos then
    emitStackPop stackCookie [iterationCount; startingStackpos]
  else emitStackPop stackCookie [iterationCount].

(** The labels and locals of a general loop. *)
Record loopLocals := {
  loop_isAtomic : bool;
  loop_startingStackpos : string;
  loop_originalDoneLabel : string;
  loop_body : string;
  loop_endLoop : string;
  loop_iterationCount : string;
  loop_startingPos : string;
  loop_iterationFailedLabel : string
}.

(** The general (non-repeater) path of [emitExecuteLoop], up to the child's
    code: the transfer, the locals, the body label, the state pushed for the
    iteration, and the [doneLabel] for a failed iteration. *)
Definition emitLoopStart (node child : RegexNode) : Emit loopLocals :=
  let minIterations := M node in
  let stackCookie := createStackCookie in
  transferSliceStaticPosToPos false ;;;
  rm <- get ;;
  let isAtomic := IsAtomicByAncestor (Analysis rm) node in
  startingStackpos <-
    (if isAtomic || (minIterations >? 1) then
       name <- reserveName "startingStackpos" ;;
       addLocalDec (sprint [name; " := 0"]) ;;;
       writeLine (sprint [name; " = stackpos"]) ;;;
       ret name
     else ret "") ;;
  rm <- get ;;
  let originalDoneLabel := doneLabel rm in
  body <- reserveName "LoopBody" ;;
  endLoop <- reserveName "LoopEnd" ;;
  iterationCount <- reserveName "loop_iteration" ;;
  let iterationMayBeEmpty := ComputeMinLength X child =? 0 in
  startingPos <-
    (if iterationMayBeEmpty then
       name <- reserveName "loop_starting_pos" ;;
       addLocalDec (sprint [iterationCount; ", "; name; " := 0, 0"]) ;;;
       writeLine (sprint [name; " = pos"]) ;;;
       ret name
     else
       addLocalDec (sprint [iterationCount; " := 0"]) ;;;
       ret "") ;;
  writeLine (sprint [iterationCount; " = 0"; nl]) ;;;
  emitMarkLabel body ;;;
  rm <- get ;;
  (if expressionHasCaptures rm && iterationMayBeEmpty then
     emitStackPush stackCookie ["r.Crawlpos()"; startingPos; "pos"]
   else if expressionHasCaptures rm then
     emitStackPush stackCookie ["r.Crawlpos()"; "pos"]
   else if iterationMayBeEmpty then
     emitStackPush stackCookie [startingPos; "pos"]
   else emitStackPush stackCookie ["pos"]) ;;;
  writeLine "" ;;;
  when iterationMayBeEmpty (writeLine (sprint [startingPos; " = pos"])) ;;;
  writeLine (sprint [iterationCount; "++"; nl]) ;;;
  iterationFailedLabel <- reserveName "LoopIterationNoMatch" ;;
  modify (set_doneLabel iterationFailedLabel) ;;;
  ret {| loop_isAtomic := isAtomic;
         loop_startingStackpos := startingStackpos;
         loop_originalDoneLabel := originalDoneLabel;
         loop_body := body;
         loop_endLoop := endLoop;
         loop_iterationCount := iterationCount;
         loop_startingPos := startingPos;
         loop_iterationFailedLabel := iterationFailedLabel |}.

(** What handles a failed iteration, after the continuation test: the state
    is put back, the minimum is checked, and the loop's backtracking sections
    and end label are written. *)
Definition emitLoopUnwind (node : RegexNode) (iterationMayBeEmpty childBacktracks : bool)
    (l : loopLocals) : Emit unit :=
  let minIterations := M node in
  let stackCookie := createStackCookie in
  let startingStackpos := loop_startingStackpos l in
  let originalDoneLabel := loop_originalDoneLabel l in
  let endLoop := loop_endLoop l in
  let iterationCount := loop_iterationCount l in
  let startingPos := loop_startingPos l in
  let iterationFailedLabel := loop_iterationFailedLabel l in
  writeLine "" ;;;
  writeLine "// The loop iteration failed. Put state back to the way it was before the iteration." ;;;
  emitMarkLabel iterationFailedLabel ;;;
  writeLine (sprint [iterationCount; "--"; nlt 4;
                     "if "; iterationCount; " < 0 {"; nlt 5;
                     "// Unable to match the remainder of the expression after exhausting the loop."]) ;;;
  emitExecuteGoto originalDoneLabel ;;;
  writeLine "}" ;;;
  (if iterationMayBeEmpty then emitStackPop 0 ["pos"; startingPos]
   else emitStackPop 0 ["pos"]) ;;;
  rm <- get ;;
  when (expressionHasCaptures rm) (emitUncaptureUntil "r.StackPop()") ;;;
  emitStackCookieValidate stackCookie ;;;
  sliceInputSpan false ;;;
  when (minIterations >? 0)
    (if childBacktracks then
       writeLine (sprint ["if "; iterationCount; " == 0 {"]) ;;;
       writeLine "// No iterations have been matched to backtrack into. Fail the loop." ;;;
       emitExecuteGoto originalDoneLabel ;;;
       writeLine (sprint ["}"; nl]) ;;;
       when (minIterations >? 1)
         (writeLine (sprint ["if "; countIsLessThan iterationCount minIterations; " { "; nlt 7;
                             "// All possible iterations have matched, but it's below the required minimum of ";
                             itoa minIterations; "."; nlt 7;
                             "// Backtrack into the prior iteration."]) ;;;
          rm <- get ;;
          emitExecuteGoto (doneLabel rm) ;;;
          writeLine (sprint ["}"; nl]))
     else
       writeLine (sprint ["if "; countIsLessThan iterationCount minIterations; " {"; nlt 7;
                          "// All possible iterations have matched, but it's below the required minimum of ";
                          itoa minIterations; ". Fail the loop."; tab; nlt 7]) ;;;
       when (minIterations >? 1)
         (writeLine (sprint ["if "; iterationCount; " != 0 {"; nlt 8;
                             "// Ensure any stale backtracking state is removed."; nlt 8;
                             "stackpos = "; startingStackpos; nlt 7; "}"])) ;;;
       emitExecuteGoto originalDoneLabel ;;;
       writeLine (sprint ["}"; nl])) ;;;
  if loop_isAtomic l then
    modify (set_doneLabel originalDoneLabel) ;;;
    emitMarkLabel endLoop ;;;
    when (nonEmpty startingStackpos)
      (writeLine (sprint ["stackpos = "; startingStackpos;
                          " // Ensure any remaining backtracking state is removed."]))
  else
    when childBacktracks
      (emitExecuteGoto endLoop ;;;
       writeLine "" ;;;
       backtrack <- reserveName "LoopBacktrack" ;;
       emitMarkLabel backtrack ;;;
       emitTimeoutCheckIfNeeded ;;;
       writeLine (sprint ["if "; iterationCount; " == 0 {"; nlt 7;
                          "// No iterations of the loop remain to backtrack into. Fail the loop."]) ;;;
       emitExecuteGoto originalDoneLabel ;;;
       writeLine "}" ;;;
       rm <- get ;;
       emitExecuteGoto (doneLabel rm) ;;;
       modify (set_doneLabel backtrack)) ;;;
    rm <- get ;;
    let isInLoop := IsInLoop (Analysis rm) node in
    emitMarkLabel endLoop ;;;
    when isInLoop
      (writeLine "" ;;;
       let stackCookie := createStackCookie in
       emitLoopStatePush stackCookie startingPos startingStackpos iterationCount ;;;
       end_ <- reserveName "LoopSkipBacktrack" ;;
       emitExecuteGoto end_ ;;;
       writeLine "" ;;;
       backtrack <- reserveName "LoopBacktrack" ;;
       emitMarkLabel backtrack ;;;
       emitLoopStatePop stackCookie startingPos startingStackpos iterationCount ;;;
       emitTimeoutCheckIfNeeded ;;;
       rm <- get ;;
       emitExecuteGoto (doneLabel rm) ;;;
       writeLine "" ;;;
       modify (set_doneLabel backtrack) ;;;
       emitMarkLabel end_).

(** The general path after the child's code. *)
Definition emitLoopEnd (node child : RegexNode) (l : loopLocals) : Emit unit :=
  let iterationMayBeEmpty := ComputeMinLength X child =? 0 in
  writeLine "" ;;;
  transferSliceStaticPosToPos false ;;;
  rm <- get ;;
  let childBacktracks := negb (String.eqb (doneLabel rm) (loop_iterationFailedLabel l)) in
  emitLoopCondition (M node) (N node) iterationMayBeEmpty
    (loop_iterationCount l) (loop_startingPos l) (loop_body l) (loop_endLoop l) ;;;
  emitLoopUnwind node iterationMayBeEmpty childBacktracks l.

(** The general (non-repeater) path of [emitExecuteLoop]. *)
Definition emitExecuteLoopGeneral (node child : RegexNode) : Emit unit :=
  l <- emitLoopStart node child ;;
  emitNode child None true ;;;
  emitLoopEnd node child l.

Definition emitExecuteLoop (node : RegexNode) : Emit unit :=
  child <- childAt node 0 ;;
  let minIterations := M node in
  let maxIterations := N node in
  rm <- get ;;
  let special : option (Emit unit) :=
    if minIterations =? maxIterations then
      if minIterations =? 0 then Some (ret tt)
      else if minIterations =? 1 then Some (emitNode child None true)
      else if (minIterations >? 1) && negb (MayBacktrack (Analysis rm) child) then
        Some (emitExecuteNonBacktrackingRepeater node)
      else None
    else None in
  match special with
  | Some m => m
  | None => emitExecuteLoopGeneral node child
  end.

Definition emitExecuteLazy (node : RegexNode) : Emit unit := ret tt.

(** Arbitrary limit; large enough to handle ignore-case of common sets. *)
Definition SetCharsSize : Z := 64.

Definition isOneSetOrMulti (t : NodeType) : bool :=
  match t with NtOne | NtSet | NtMulti => true | _ => false end.

(** A node allocated by the emitter: the fields not given are zero. *)
Definition newNode (t : NodeType) (options : Z) (ch : rune) (str : list rune) : RegexNode :=
  {| T := t; Options := options; Ch := ch; Str := str; Set_ := nilCharSet X;
     M := 0; N := 0; Children := []; Addr := newNodeAddr X |}.

(** Modelled from the spec: [node.ReplaceChild(0, newChild)] is a method of
    the syntax package; it replaces the first concatenation child (here with
    an empty placeholder), in place: the node keeps its address. *)
Definition ReplaceChild0 (node newChild : RegexNode) : RegexNode :=
  {| T := T node; Options := Options node; Ch := Ch node; Str := Str node;
     Set_ := Set_ node; M := M node; N := N node;
     Children := match Children node with
                 | [] => []
                 | _ :: rest => newChild :: rest
                 end;
     Addr := Addr node |}.

(** Whether the alternation may be a switch at all: left-to-right, and
    atomic or without any branch that may backtrack. *)
Definition switchCandidate (rm : regexpData) (node : RegexNode) (isAtomic : bool) : bool :=
  if negb (isRightToLeft (Options node)) then
    if isAtomic then true
    else negb (existsb (fun child => MayBacktrack (Analysis rm) child) (Children node))
  else false.

(** Adds the characters of a set to [seenChars], stopping at the first one
    already seen. *)
Fixpoint addSetChars (chars : list rune) (seenChars : list rune) : option (list rune) :=
  match chars with
  | [] => Some seenChars
  | c :: rest =>
      if existsb (Z.eqb c) seenChars then None
      else addSetChars rest (c :: seenChars)
  end.

(** Detects whether every branch begins with one or more unique characters;
    it also returns the [setChars] buffer as the loop leaves it. *)
Fixpoint uniqueStartingChars (children : list RegexNode) (seenChars : list rune)
    (setChars : list rune * Z) : bool * (list rune * Z) :=
  match children with
  | [] => (true, setChars)
  | child :: rest =>
      match FindStartingLiteralNode X child false with
      | None => (false, setChars)
      | Some startingLiteralNode =>
          if IsNotoneFamily X startingLiteralNode then (false, setChars)
          else if IsOneFamily X startingLiteralNode
                  || NodeType_eqb (T startingLiteralNode) NtMulti then
            let st := FirstCharOfOneOrMulti X startingLiteralNode in
            if existsb (Z.eqb st) seenChars then (false, setChars)
            else uniqueStartingChars rest (st :: seenChars) setChars
          else
            let setChars' := GetSetChars X (Set_ startingLiteralNode) setChars in
            if IsNegated X (Set_ startingLiteralNode) || (len (fst setChars') =? 0) then
              (false, setChars')
            else
              match addSetChars (fst setChars') seenChars with
              | None => (false, setChars')
              | Some seenChars' => uniqueStartingChars rest seenChars' setChars'
              end
      end
  end.

(** The decision of [emitExecuteAlternation]: the final [useSwitchedBranches]
    and the [setChars] buffer. *)
Definition useSwitchedBranches (rm : regexpData) (node : RegexNode)
    : bool * (list rune * Z) :=
  let isAtomic := IsAtomicByAncestor (Analysis rm) node in
  if switchCandidate rm node isAtomic then
    uniqueStartingChars (Children node) [] ([], SetCharsSize)
  else (false, ([], SetCharsSize)).

(** The [HandleChild] switch of a switched branch, with its [goto]; it
    returns [remainder]. *)
Fixpoint handleChild (fuel : nat) (child startingLiteralNode : RegexNode)
    (remainder : option RegexNode) : Emit (option RegexNode) :=
  match T child with
  | NtOne | NtSet =>
      modify (fun rm => set_sliceStaticPos (int_add (sliceStaticPos rm) 1) rm) ;;;
      ret remainder
  | NtMulti =>
      modify (fun rm => set_sliceStaticPos (int_add (sliceStaticPos rm) 1) rm) ;;;
      (if len (Str child) =? 2 then
         match index (Str child) 1 with
         | Some ch1 => emitNode (newNode NtOne (Options child) ch1 []) None true
         | None => panic
         end
       else
         match Str child with
         | [] => panic
         | _ :: tail => emitNode (newNode NtMulti (Options child) 0 tail) None true
         end) ;;;
      writeLine "" ;;;
      ret remainder
  | NtConcatenate =>
      first <- childAt child 0 ;;
      if (Addr first =? Addr startingLiteralNode)
         && isOneSetOrMulti (T startingLiteralNode) then
        match fuel with
        | O => outOfFuel
        | S fuel' =>
            handleChild fuel' first startingLiteralNode
              (Some (ReplaceChild0 child (newNode NtEmpty (Options child) 0 [])))
        end
      else ret remainder
  | _ => ret (Some child)
  end.

(** The cases of the switch, one per branch. *)
Fixpoint switchedBranches (budget : nat) (children : list RegexNode)
    (startingSliceStaticPos : Z) (originalDoneLabel : string)
    (setChars : list rune * Z) : Emit unit :=
  match children with
  | [] => ret tt
  | child :: rest =>
      modify (set_sliceStaticPos startingSliceStaticPos) ;;;
      match FindStartingLiteralNode X child false with
      | None => panic
      | Some startingLiteralNode =>
          setChars' <-
            (if IsSetFamily X startingLiteralNode then
               let sc := GetSetChars X (Set_ startingLiteralNode) setChars in
               writeLine (sprint ["case "; getRuneLiteralParams X (fst sc); ":"]) ;;;
               ret sc
             else
               writeLine (sprint ["case ";
                                  fmt_q X (FirstCharOfOneOrMulti X startingLiteralNode); ":"]) ;;;
               ret setChars) ;;
          remainder <- handleChild budget child startingLiteralNode None ;;
          match remainder with
          | Some r => emitNode r None true ;;; writeLine ""
          | None => ret tt
          end ;;;
          modify (set_doneLabel originalDoneLabel) ;;;
          transferSliceStaticPosToPos false ;;;
          writeLine "" ;;;
          switchedBranches budget rest startingSliceStaticPos originalDoneLabel setChars'
      end
  end.

(** The switched-branches strategy. *)
Definition emitSwitchedBranches (budget : nat) (node : RegexNode)
    (originalDoneLabel : string) (setChars : list rune * Z) : Emit unit :=
  emitSpanLengthCheck 1 None ;;;
  writeLine "" ;;;
  rm <- get ;;
  writeLine (sprint ["switch "; sliceSpan rm; "["; itoa (sliceStaticPos rm); "] {"]) ;;;
  let startingSliceStaticPos := sliceStaticPos rm in
  switchedBranches budget (Children node) startingSliceStaticPos originalDoneLabel setChars ;;;
  rm <- get ;;
  emitCaseGoto "default:" (doneLabel rm) ;;;
  writeLine "}".

(** The branches of the general strategy, from branch [i] on; it returns the
    entries of [labelMap] for these branches. *)
Fixpoint generalBranches (children : list RegexNode) (i count : Z)
    (isAtomic : bool) (originalDoneLabel matchLabel startingPos : string)
    (startingSliceStaticPos : Z) (startingCapturePos currentBranch : string)
    (stackCookie : Z) : Emit (list string) :=
  match children with
  | [] => ret []
  | child :: rest =>
      writeLine (sprint ["// Branch "; itoa i]) ;;;
      let isLastBranch := i =? int_sub count 1 in
      nextBranch <-
        (if negb isLastBranch then
           name <- reserveName "AlternationBranch" ;;
           modify (set_doneLabel name) ;;;
           ret name
         else
           modify (set_doneLabel originalDoneLabel) ;;;
           ret "") ;;
      emitNode child None true ;;;
      writeLine "" ;;;
      when (negb isAtomic)
        (if negb (nonEmpty currentBranch) then
           if nonEmpty startingCapturePos then
             emitStackPush (int_add stackCookie i)
               [string_of_int X i; startingPos; startingCapturePos]
           else
             emitStackPush (int_add stackCookie i) [string_of_int X i; startingPos]
         else writeLine (sprint [currentBranch; " = "; itoa i])) ;;;
      rm <- get ;;
      let label := doneLabel rm in
      transferSliceStaticPosToPos false ;;;
      when (negb isLastBranch || negb isAtomic) (emitExecuteGoto matchLabel) ;;;
      when (negb isLastBranch)
        (writeLine "" ;;;
         emitMarkLabel nextBranch ;;;
         writeLine (sprint ["pos = "; startingPos]) ;;;
         sliceInputSpan false ;;;
         modify (set_sliceStaticPos startingSliceStaticPos) ;;;
         when (nonEmpty startingCapturePos) (emitUncaptureUntil startingCapturePos)) ;;;
      writeLine "" ;;;
      labels <- generalBranches rest (i + 1) count isAtomic originalDoneLabel matchLabel
                  startingPos startingSliceStaticPos startingCapturePos currentBranch
                  stackCookie ;;
      ret (label :: labels)
  end.

(** The jump table of the backtracking section. *)
Fixpoint emitBranchTable (labelMap : list string) (i : Z) : Emit unit :=
  match labelMap with
  | [] => ret tt
  | label :: rest =>
      emitCaseGoto (sprint ["case "; itoa i; ":"]) label ;;;
      emitBranchTable rest (i + 1)
  end.

(** The general strategy: every branch in turn, with a backtracking table. *)
Definition emitGeneralBranches (node : RegexNode) (isAtomic : bool)
    (originalDoneLabel : string) : Emit unit :=
  matchLabel <- reserveName "AlternationMatch" ;;
  startingPos <- reserveName "alternation_starting_pos" ;;
  rm <- get ;;
  let canUseLocalsForAllState := negb isAtomic && negb (IsInLoop (Analysis rm) node) in
  (if canUseLocalsForAllState then
     addLocalDec (sprint [startingPos; " := 0"]) ;;;
     writeLine (sprint [startingPos; " = pos"])
   else writeLine (sprint [startingPos; " := pos"])) ;;;
  let startingSliceStaticPos := sliceStaticPos rm in
  startingCapturePos <-
    (if expressionHasCaptures rm
        && (MayContainCapture (Analysis rm) node || negb isAtomic) then
       name <- reserveName "alternation_starting_capturepos" ;;
       (if canUseLocalsForAllState then
          addLocalDec (sprint [name; " := 0"]) ;;;
          writeLine (sprint [name; " = r.Crawlpos()"])
        else writeLine (sprint [name; " := r.Crawlpos()"])) ;;;
       ret name
     else ret "") ;;
  writeLine "" ;;;
  backtrackLabel <- reserveName "AlternationBacktrack" ;;
  currentBranch <-
    (if canUseLocalsForAllState then
       name <- reserveName "alternation_branch" ;;
       addLocalDec (sprint [name; " := 0"]) ;;;
       ret name
     else ret "") ;;
  let stackCookie := createStackCookie in
  labelMap <- generalBranches (Children node) 0 (len (Children node)) isAtomic
                originalDoneLabel matchLabel startingPos startingSliceStaticPos
                startingCapturePos currentBranch stackCookie ;;
  (if isAtomic then modify (set_doneLabel originalDoneLabel)
   else
     modify (set_doneLabel backtrackLabel) ;;;
     emitMarkLabel backtrackLabel ;;;
     emitTimeoutCheckIfNeeded ;;;
     switchClause <-
       (if negb (nonEmpty currentBranch) then
          (if nonEmpty startingCapturePos then
             emitStackPop 0 [startingCapturePos; startingPos]
           else emitStackPop 0 [startingPos]) ;;;
          ret (validateStackCookieWithAdditionAndReturnPoppedStack stackCookie)
        else ret currentBranch) ;;
     writeLine (sprint ["switch "; switchClause; " {"]) ;;;
     emitBranchTable labelMap 0 ;;;
     writeLine (sprint ["}"; nl])) ;;;
  emitMarkLabel matchLabel.

Definition emitExecuteAlternation (budget : nat) (node : RegexNode) : Emit unit :=
  rm <- get ;;
  let originalDoneLabel := doneLabel rm in
  let isAtomic := IsAtomicByAncestor (Analysis rm) node in
  let '(useSwitched, setChars) := useSwitchedBranches rm node in
  if useSwitched then emitSwitchedBranches budget node originalDoneLabel setChars
  else emitGeneralBranches node isAtomic originalDoneLabel.

Definition emitExecuteBackreference (node : RegexNode) : Emit unit := ret tt.
Definition emitExecuteBackreferenceConditional (node : RegexNode) : Emit unit := ret tt.
Definition emitExecuteExpressionConditional (node : RegexNode) : Emit unit := ret tt.
Definition emitExecutePositiveLookaroundAssertion (node : RegexNode) : Emit unit := ret tt.
Definition emitExecuteNegativeLookaroundAssertion (node : RegexNode) : Emit unit := ret tt.

Definition emitExecuteCapture (node : RegexNode) (subsequent : option RegexNode) : Emit unit :=
  rm <- get ;;
  let capnum := mapCaptureNumber (M node) (Caps (Tree rm)) in
  let uncapnum := mapCaptureNumber (N node) (Caps (Tree rm)) in
  let isAtomic := IsAtomicByAncestor (Analysis rm) node in
  let isInLoop := IsInLoop (Analysis rm) node in
  transferSliceStaticPosToPos false ;;;
  startingPos <- reserveName "capture_starting_pos" ;;
  (if isInLoop then writeLine (sprint [startingPos; " := pos"])
   else
     addLocalDec (sprint [startingPos; " := 0"]) ;;;
     writeLine (sprint [startingPos; " = pos"])) ;;;
  writeLine "" ;;;
  child <- childAt node 0 ;;
  when (negb (uncapnum =? -1))
    (writeLine (sprint ["if r.IsMatched("; itoa uncapnum; ") {"]) ;;;
     rm <- get ;;
     emitExecuteGoto (doneLabel rm) ;;;
     writeLine (sprint ["}"; nl])) ;;;
  rm <- get ;;
  let originalDoneLabel := doneLabel rm in
  emitNode child subsequent true ;;;
  rm <- get ;;
  let childBacktracks := negb (String.eqb (doneLabel rm) originalDoneLabel) in
  writeLine "" ;;;
  transferSliceStaticPosToPos false ;;;
  (if uncapnum =? -1 then
     writeLine (sprint ["r.Capture("; itoa capnum; ", "; startingPos; ", pos)"])
   else
     writeLine (sprint ["r.TransferCapture("; itoa capnum; ", "; itoa uncapnum; ", ";
                        startingPos; ", pos)"])) ;;;
  if isAtomic || negb childBacktracks then
    modify (set_doneLabel originalDoneLabel)
  else
    writeLine "" ;;;
    let stackCookie := createStackCookie in
    when isInLoop (emitStackPush stackCookie [startingPos]) ;;;
    end_ <- reserveName "CaptureSkipBacktrack" ;;
    emitExecuteGoto end_ ;;;
    writeLine "" ;;;
    backtrack <- reserveName "CaptureBacktrack" ;;
    emitMarkLabel backtrack ;;;
    when isInLoop (emitStackPop stackCookie [startingPos]) ;;;
    rm <- get ;;
    emitExecuteGoto (doneLabel rm) ;;;
    writeLine "" ;;;
    modify (set_doneLabel backtrack) ;;;
    emitMarkLabel end_.

(** Emits a backtracking loop around a single character comparison. *)
Definition emitExecuteSingleCharLoop (node : RegexNode) (subsequent : option RegexNode)
    (emitLengthChecksIfRequired : bool) : Emit unit :=
  rm <- get ;;
  if IsAtomicByAncestor (Analysis rm) node then emitExecuteSingleCharAtomicLoop node true
  else if M node =? N node then emitExecuteSingleCharRepeater node emitLengthChecksIfRequired
  else
    backtrackingLabel <- reserveName "CharLoopBacktrack" ;;
    endLoop <- reserveName "CharLoopEnd" ;;
    startingPos <- reserveName "charloop_starting_pos" ;;
    endingPos <- reserveName "charloop_ending_pos" ;;
    appendDeclaration (sprint ["var "; startingPos; ", "; endingPos; " = 0, 0"]) ;;;
    let rtl := isRightToLeft (Options node) in
    let isInLoop := IsInLoop (Analysis rm) node in
    transferSliceStaticPosToPos false ;;;
    writeLine (sprint [startingPos; " = pos"; nl]) ;;;
    emitExecuteSingleCharAtomicLoop node true ;;;
    writeLine "" ;;;
    transferSliceStaticPosToPos false ;;;
    writeLine (sprint [endingPos; " = pos"]) ;;;
    (if negb rtl then emitAddStmt startingPos (M node)
     else emitAddStmt startingPos (int_neg (M node))) ;;;
    emitExecuteGoto endLoop ;;;
    writeLine "" ;;;
    emitMarkLabel backtrackingLabel ;;;
    let stackCookie := createStackCookie in
    rm <- get ;;
    capturePos <-
      (if isInLoop then
         when (expressionHasCaptures rm) (emitUncaptureUntil "r.StackPop()") ;;;
         emitStackPop stackCookie [endingPos; startingPos] ;;;
         ret ""
       else if expressionHasCaptures rm then
         name <- reserveName "charloop_capture_pos" ;;
         appendDeclaration "%s := 0" ;;;
         appendDeclaration name ;;;
         emitUncaptureUntil name ;;;
         ret name
       else ret "") ;;
    writeLine "" ;;;
    emitTimeoutCheckIfNeeded ;;;
    let literalNode :=
      match subsequent with
      | Some s => FindStartingLiteralNode X s true
      | None => None
      end in
    let indexOf :=
      if negb rtl && (N node >? 1) then
        match literalNode with
        | Some l =>
            tryEmitExecuteIndexOf l (sprint ["r.Runtext["; startingPos; ":%s]"]) true false
        | None => None
        end
      else None in
    rm <- get ;;
    match indexOf with
    | Some (literalLength, indexOfExpr0) =>
        writeLine (sprint ["if "; startingPos; " >= "; endingPos; " {"]) ;;;
        emitExecuteGoto (doneLabel rm) ;;;
        writeLine "}" ;;;
        let indexOfExpr :=
          if literalLength >? 1 then
            Sprintf1 X indexOfExpr0
              (sprint ["helpers.Min(r.Runtextend, "; endingPos; "+";
                       itoa (int_sub literalLength 1); ")"])
          else Sprintf1 X indexOfExpr0 endingPos in
        writeLine (sprint [endingPos; " = "; indexOfExpr]) ;;;
        writeLine (sprint ["if "; endingPos; " < 0 { // miss"]) ;;;
        emitExecuteGoto (doneLabel rm) ;;;
        writeLine "}" ;;;
        writeLine (sprint [endingPos; " += "; startingPos; nlt 3; "pos = "; endingPos])
    | None =>
        let op := if rtl then "<=" else ">=" in
        writeLine (sprint ["if "; startingPos; " "; op; " "; endingPos; " {"]) ;;;
        emitExecuteGoto (doneLabel rm) ;;;
        writeLine "}" ;;;
        if negb rtl then
          writeLine (sprint [endingPos; "--"; nlt 3; "pos = "; endingPos])
        else
          writeLine (sprint [endingPos; "++"; nlt 3; "pos = "; endingPos])
    end ;;;
    when (negb rtl) (sliceInputSpan false) ;;;
    writeLine "" ;;;
    emitMarkLabel endLoop ;;;
    rm <- get ;;
    (if isInLoop then
       if expressionHasCaptures rm then
         emitStackPush stackCookie [startingPos; endingPos; "r.Crawlpos()"]
       else emitStackPush stackCookie [startingPos; endingPos]
     else
       when (nonEmpty capturePos) (writeLine (sprint [capturePos; " = r.Crawlpos()"]))) ;;;
    modify (set_doneLabel backtrackingLabel).

(** ** The node dispatcher *)

(** The part of [emitExecuteNode] after the node's description comment: the
    node types that need no scope, then all the others. *)
Definition emitDescribedNode (budget : nat) (node : RegexNode)
    (subsequent : option RegexNode) (emitLengthChecksIfRequired : bool) : Emit unit :=
  desc <- describeNode node ;;
  writeLine (sprint ["// "; desc]) ;;;
  match T node with
  | NtBeginning | NtStart | NtBol | NtEol | NtEnd | NtEndZ => emitExecuteAnchors node
  | NtBoundary | NtNonboundary | NtECMABoundary | NtNonECMABoundary =>
      emitExecuteBoundary node
  | NtOne | NtNotone | NtSet =>
      emitExecuteSingleChar node emitLengthChecksIfRequired None false
  | NtMulti =>
      emitExecuteMultiCharString (Str node) emitLengthChecksIfRequired false
        (isRightToLeft (Options node))
  | NtUpdateBumpalong => emitExecuteUpdateBumpalong node
  | NtOneloop | NtNotoneloop | NtSetloop =>
      emitExecuteSingleCharLoop node subsequent emitLengthChecksIfRequired
  | NtOnelazy | NtNotonelazy | NtSetlazy =>
      emitExecuteSingleCharLazy node subsequent emitLengthChecksIfRequired
  | NtLoop => emitExecuteLoop node
  | NtLazyloop => emitExecuteLazy node
  | NtAlternate => emitExecuteAlternation budget node
  | NtRef => emitExecuteBackreference node
  | NtBackRefCond => emitExecuteBackreferenceConditional node
  | NtExprCond => emitExecuteExpressionConditional node
  | NtAtomic => emitExecuteAtomic node subsequent
  | NtCapture => emitExecuteCapture node subsequent
  | NtPosLook => emitExecutePositiveLookaroundAssertion node
  | NtNegLook => emitExecuteNegativeLookaroundAssertion node
  | NtEmpty | NtNothing | NtConcatenate | NtOther _ => panic
  end.

(** One call of [emitExecuteNode], its recursive calls going through
    [emitNode]; [budget] bounds the loops of the emitters it calls. *)
Definition emitExecuteNodeBody (budget : nat) (node : RegexNode)
    (subsequent : option RegexNode) (emitLengthChecksIfRequired : bool) : Emit unit :=
  rm <- get ;;
  let isLiteralAfterLoop :=
    match FindMode (Tree rm) with
    | LiteralAfterLoop_LeftToRight => LiteralAfterLoop_LoopNode (Tree rm) =? Addr node
    | OtherFindMode => false
    end in
  if isLiteralAfterLoop then
    writeLine (sprint ["// Skip loop already matched in TryFindNextPossibleStartingPosition.";
                       nlt 2; "pos = r.Runtrackpos"]) ;;;
    sliceInputSpan false
  else
    when (isRightToLeft (Options node)) (transferSliceStaticPosToPos false) ;;;
    writeLine (sprint ["// Node: "; Description X node]) ;;;
    match T node with
    | NtEmpty => ret tt
    | NtNothing =>
        rm <- get ;;
        emitExecuteGoto (doneLabel rm)
    | NtAtomic =>
        child <- childAt node 0 ;;
        rm <- get ;;
        if negb (MayBacktrack (Analysis rm) child) then emitNode child None true
        else emitDescribedNode budget node subsequent emitLengthChecksIfRequired
    | NtConcatenate =>
        emitExecuteConcatenation budget node subsequent emitLengthChecksIfRequired
    | _ => emitDescribedNode budget node subsequent emitLengthChecksIfRequired
    end.

(** ** The top-level procedure *)

Definition isFixedLengthAtom (t : NodeType) : bool :=
  match t with NtMulti | NtOne | NtNotone | NtSet => true | _ => false end.

Fixpoint writeLines (ls : list string) : Emit unit :=
  match ls with
  | [] => ret tt
  | l :: rest => writeLine l ;;; writeLines rest
  end.

(** [emitExecute]; the deferred calls are written where they run: the closing
    brace at every return, and before it, on the normal path, the late
    declarations followed by the buffered body. *)
Definition emitExecuteWith : Emit unit :=
  rm <- get ;;
  writeLine (sprint ["func ("; GeneratedName rm; "_Engine) Execute(r *regexp2.Runner) error {"]) ;;;
  let rtl := isRightToLeft (rmOptions rm) in
  root <- childAt (Root (Tree rm)) 0 ;;
  if NodeType_eqb (T root) NtEmpty then
    writeLine "// The pattern matches the empty string" ;;;
    writeLine "var pos = r.Runtextpos" ;;;
    writeLine "r.Capture(0, pos, pos)" ;;;
    writeLine "return nil" ;;;
    writeLine (sprint ["}"; nl])
  else if NodeType_eqb (T root) NtNothing then
    writeLine "return nil" ;;;
    writeLine (sprint ["}"; nl])
  else if isFixedLengthAtom (T root) then
    let op := if rtl then "-" else "+" in
    let jmp := if NodeType_eqb (T root) NtMulti then len (Str root) else 1 in
    writeLine "// the search in findFirstChar did the entire match" ;;;
    writeLine "var start = r.Runtextpos" ;;;
    writeLine (sprint ["var end = r.Runtextpos "; op; " "; itoa jmp]) ;;;
    writeLine "r.Runtextpos = end" ;;;
    writeLine "r.Capture(0, start, end)" ;;;
    writeLine "return nil" ;;;
    writeLine (sprint ["}"; nl])
  else
    modify (set_usedNames []) ;;;
    node <- childAt (Root (Tree rm)) 0 ;;
    rm <- get ;;
    let oldOut := out rm in
    modify (set_out []) ;;;
    modify (set_sliceSpan "slice") ;;;
    writeLine (sprint ["pos := r.Runtextpos"; nlt 3; "matchStart := pos"; nlt 3]) ;;;
    modify (set_sliceStaticPos 0) ;;;
    sliceInputSpan true ;;;
    writeLine "" ;;;
    noMatch <- reserveName "NoMatch" ;;
    modify (set_doneLabel noMatch) ;;;
    modify (set_topLevelDoneLabel noMatch) ;;;
    rm <- get ;;
    modify (set_expressionHasCaptures (MayContainCapture (Analysis rm) node)) ;;;
    emitNode node None true ;;;
    writeLine (sprint [nl; "// The input matched."]) ;;;
    rm <- get ;;
    when (sliceStaticPos rm >? 0) (emitAddStmt "pos" (sliceStaticPos rm)) ;;;
    writeLine (sprint ["r.Runtextpos = pos"; nlt 3; "r.Capture(0, matchStart, pos)"; nlt 3;
                       "return nil"]) ;;;
    rm <- get ;;
    let buf := out rm in
    modify (set_out oldOut) ;;;
    writeLines (additionalDeclarations rm) ;;;
    modify (set_additionalDeclarations []) ;;;
    modify (fun rm => set_out (out rm ++ buf) rm) ;;;
    writeLine (sprint ["}"; nl]).

End Recursive.

(** ** Tying the knot

    [emitExecuteNode] calls itself through the emitters; [fuel] bounds the
    depth of these calls and the loops of the concatenation. *)
Fixpoint emitExecuteNode (fuel : nat) (node : RegexNode) (subsequent : option RegexNode)
    (emitLengthChecksIfRequired : bool) : Emit unit :=
  match fuel with
  | O => outOfFuel
  | S fuel' =>
      emitExecuteNodeBody (emitExecuteNode fuel') fuel' node subsequent
        emitLengthChecksIfRequired
  end.

Definition emitExecute (fuel : nat) : Emit unit :=
  emitExecuteWith (emitExecuteNode fuel).

End Emitter.

Arguments RegexNode : clear implicits.
Arguments RegexTree : clear implicits.
Arguments AnalysisResults : clear implicits.
Arguments regexpData : clear implicits.
Arguments Externals : clear implicits.
Arguments result : clear implicits.
Arguments Emit : clear implicits.
Arguments Ok {CharSet A} a rm.
Arguments Stop {CharSet A} why rm.

(** ** Conditions of the emitted [if] statements

    The conditions the loop emitter writes, as terms: [render] gives their
    text and [holds] their value, for given values of the locals. *)

Inductive cond :=
| PosIsNot (local : string)
| CountBelow (local : string) (bound : Z)
| CountIsZero (local : string)
| Either (a b : cond)
| Both (a b : cond).

Fixpoint render (c : cond) : string :=
  match c with
  | PosIsNot local => sprint ["pos != "; local]
  | CountBelow local bound => sprint [local; " < "; itoa bound]
  | CountIsZero local => sprint [local; " == 0"]
  | Either a b => sprint [render a; " || "; render b]
  | Both a b =>
      match a with
      | Either _ _ => sprint ["("; render a; ") && "; render b]
      | _ => sprint [render a; " && "; render b]
      end
  end.

Fixpoint holds (env : string -> Z) (c : cond) : bool :=
  match c with
  | PosIsNot local => negb (env "pos" =? env local)
  | CountBelow local bound => env local <? bound
  | CountIsZero local => env local =? 0
  | Either a b => holds env a || holds env b
  | Both a b => holds env a && holds env b
  end.

(** The table of the specification for the continuation test of a general
    loop: whether the body is entered again, given whether the last iteration
    moved [pos] and the iteration count. *)
Definition tableContinue (emptyPossible nFinite mPositive : bool) (m n : Z)
    (moved : bool) (count : Z) : bool :=
  match emptyPossible, nFinite, mPositive with
  | false, false, _ => true
  | false, true, _ => count <? n
  | true, false, false => moved
  | true, false, true => moved || (count <? m)
  | true, true, false => moved && (count <? n)
  | true, true, true => (moved || (count <? m)) && (count <? n)
  end.

(** A block of [//] comment lines, each indented by tabs, that ends at the
    start of a line. *)
Fixpoint commentBlockFrom (inComment : bool) (s : string) : bool :=
  match s with
  | EmptyString => negb inComment
  | String c rest =>
      if inComment then
        commentBlockFrom (negb (Ascii.eqb c (ascii_of_nat 10))) rest
      else if Ascii.eqb c (ascii_of_nat 9) then commentBlockFrom false rest
      else if Ascii.eqb c "/"%char then
        match rest with
        | String c' rest' => Ascii.eqb c' "/"%char && commentBlockFrom true rest'
        | EmptyString => false
        end
      else false
  end.

Definition commentBlock (s : string) : bool := commentBlockFrom false s.

(** Only line breaks and tabs. *)
Fixpoint blank (s : string) : bool :=
  match s with
  | EmptyString => true
  | String c rest =>
      (Ascii.eqb c (ascii_of_nat 10) || Ascii.eqb c (ascii_of_nat 9)) && blank rest
  end.

Definition gotoLine (label : string) : emission := Line (sprint ["goto "; label]).

(** The characters of a decimal numeral. *)
Definition isNumeralChar (c : ascii) : bool :=
  Ascii.eqb c "-"%char
  || ((48 <=? nat_of_ascii c)%nat && (nat_of_ascii c <=? 57)%nat).

Fixpoint numeral (s : string) : bool :=
  match s with
  | EmptyString => true
  | String c rest => isNumeralChar c && numeral rest
  end.

(** The test [count < bound] as [countIsLessThan] writes it. *)
Definition countBelow (count : string) (bound : Z) : cond :=
  if bound =? 1 then CountIsZero count else CountBelow count bound.

(** ** Text without capture bookkeeping *)

(** [w] is the beginning of [s]. *)
Fixpoint startsWith (w s : string) : bool :=
  match w, s with
  | EmptyString, _ => true
  | String a w', String b s' => Ascii.eqb a b && startsWith w' s'
  | String _ _, EmptyString => false
  end.

(** [w] is written somewhere in [s]. *)
Fixpoint occurs (w s : string) : bool :=
  startsWith w s
  || match s with
     | EmptyString => false
     | String _ rest => occurs w rest
     end.

(** One of [w] and [t] is the beginning of the other. *)
Fixpoint comparable (w t : string) : bool :=
  match w, t with
  | String a w', String b t' => Ascii.eqb a b && comparable w' t'
  | _, _ => true
  end.

(** Nowhere in [s] does [w] start, not even cut short by the end of [s]:
    the property of pieces of text that keeps [w] out of whatever is made by
    writing such pieces one after the other. *)
Fixpoint spellsNoPart (w s : string) : bool :=
  match s with
  | EmptyString => true
  | String _ rest => negb (comparable w s) && spellsNoPart w rest
  end.

(** Text that spells neither of the two names of the capture bookkeeping. *)
Definition captureFree (s : string) : bool :=
  spellsNoPart "UncaptureUntil" s && spellsNoPart "Crawlpos" s.

(** Text without a formatting verb. *)
Fixpoint verbFree (s : string) : bool :=
  match s with
  | EmptyString => true
  | String c rest => negb (Ascii.eqb c "%"%char) && verbFree rest
  end.

(** The output as one text: lines end with a line break, fragments do not. *)
Fixpoint rendered (es : list emission) : string :=
  match es with
  | [] => ""
  | Line s :: rest => (s ++ nl ++ rendered rest)%string
  | Frag s :: rest => (s ++ rendered rest)%string
  end.

(** A text as it is, unless it could take part in spelling one of the two
    names: then the empty text. *)
Definition quiet (s : string) : string := if captureFree s then s else "".

(** The helpers of other files, with every text they return passed through
    [quiet].  An emission in which no helper returns a text that spells, or
    begins to spell at its end, one of the two names is the same with these
    helpers as with the given ones. *)
Definition quietHelpers {CharSet : Type} (X : Externals CharSet) : Externals CharSet := {|
  RightToLeft := RightToLeft X;
  nilCharSet := nilCharSet X;
  newNodeAddr := newNodeAddr X;
  Description := fun n => quiet (Description X n);
  IsOneFamily := IsOneFamily X;
  IsNotoneFamily := IsNotoneFamily X;
  IsSetFamily := IsSetFamily X;
  ComputeMinLength := ComputeMinLength X;
  FindStartingLiteralNode := FindStartingLiteralNode X;
  FirstCharOfOneOrMulti := FirstCharOfOneOrMulti X;
  TryGetJoinableLengthCheckChildRange := TryGetJoinableLengthCheckChildRange X;
  TryGetOrdinalCaseInsensitiveString :=
    fun n i e b =>
      match TryGetOrdinalCaseInsensitiveString X n i e b with
      | Some (k, s) => Some (k, quiet s)
      | None => None
      end;
  IsAnything := IsAnything X;
  IsNegated := IsNegated X;
  GetIfNRanges := GetIfNRanges X;
  GetSetChars := GetSetChars X;
  SetString := fun s => quiet (SetString X s);
  getRuneSliceLiteral := fun l => quiet (getRuneSliceLiteral X l);
  getRuneLiteralParams := fun l => quiet (getRuneLiteralParams X l);
  emitMatchCharacterClass := fun s negate e => quiet (emitMatchCharacterClass X s negate e);
  emitIndexOfChars := fun l negate span => quiet (emitIndexOfChars X l negate span);
  fmt_q := fun r => quiet (fmt_q X r);
  fmt_gosyntax := fun s => quiet (fmt_gosyntax X s);
  string_of_runes := fun l => quiet (string_of_runes X l);
  string_of_int := fun z => quiet (string_of_int X z);
  fmt_NodeType := fun t => quiet (fmt_NodeType X t);
  fmt_s_pointer := fun s => quiet (fmt_s_pointer X s);
  Sprintf1 := fun format arg => quiet (Sprintf1 X format arg);
  Atoi := Atoi X
|}.

(** ** Vocabulary of the properties *)

Section Vocabulary.

Context {CharSet : Type}.
Variable X : Externals CharSet.

(** Whether the text written is held to be free of capture bookkeeping. *)
Variable strict : bool.

(** The output before the emission under study. *)
Variable base : list emission.

Definition allowed (s : string) : Prop := strict = true -> captureFree s = true.

(** What is asked of the text the outside helpers return: the pattern's own
    characters, names and classes, as rendered, spell no capture bookkeeping.
    A computed format is filled where its verb stands. *)
Record Renders : Prop := {
  renders_Description : forall n, allowed (Description X n);
  renders_SetString : forall s, allowed (SetString X s);
  renders_getRuneSliceLiteral : forall l, allowed (getRuneSliceLiteral X l);
  renders_getRuneLiteralParams : forall l, allowed (getRuneLiteralParams X l);
  renders_emitMatchCharacterClass :
    forall s negate e, allowed e -> allowed (emitMatchCharacterClass X s negate e);
  renders_fmt_q : forall r, allowed (fmt_q X r);
  renders_fmt_gosyntax : forall s, allowed s -> allowed (fmt_gosyntax X s);
  renders_string_of_runes : forall l, allowed (string_of_runes X l);
  renders_string_of_int : forall z, allowed (string_of_int X z);
  renders_fmt_NodeType : forall t, allowed (fmt_NodeType X t);
  renders_fmt_s_pointer : forall s, allowed s -> allowed (fmt_s_pointer X s);
  renders_caseInsensitive :
    forall n i e b k s,
      TryGetOrdinalCaseInsensitiveString X n i e b = Some (k, s) -> allowed s;
  renders_Sprintf1 :
    forall pre post arg,
      verbFree pre = true -> allowed pre -> allowed post -> allowed arg ->
      allowed (Sprintf1 X (pre ++ "%s" ++ post) arg);
  renders_emitIndexOfChars :
    forall l negate pre post arg,
      verbFree pre = true -> allowed pre -> allowed post -> allowed arg ->
      allowed (Sprintf1 X (emitIndexOfChars X l negate (pre ++ "%s" ++ post)) arg)
}.

(** The states of a disciplined emission: no capture bookkeeping is called
    for, and nothing that will be written spells it. *)
Definition disciplined (rm : regexpData CharSet) : Prop :=
  (strict = true -> expressionHasCaptures rm = false)
  /\ allowed (doneLabel rm)
  /\ allowed (sliceSpan rm)
  /\ Forall allowed (additionalDeclarations rm)
  /\ Forall allowed (Caplist (Tree rm))
  /\ exists written, out rm = base ++ written /\ Forall (fun e => allowed (text e)) written.

(** The statement that advances [pos] by a static offset. *)
Definition advancePos (offset : Z) : string :=
  if offset =? 1 then "pos++" else sprint ["pos += "; itoa offset].

Definition executeHeader (rm : regexpData CharSet) : emission :=
  Line (sprint ["func ("; GeneratedName rm; "_Engine) Execute(r *regexp2.Runner) error {"]).

(** The repeaters [emitExecuteLoop] handles without the general loop code. *)
Definition isRepeaterShortcut (rm : regexpData CharSet) (node child : RegexNode CharSet) : bool :=
  (M node =? N node)
  && ((M node =? 0) || (M node =? 1)
      || ((M node >? 1) && negb (MayBacktrack (Analysis rm) child))).

(** [test] is the continuation test of the table for a loop with bounds
    [m] and [n]: an unconditional jump back to [body], or a single [if] on a
    condition with the table's meaning (whenever the iteration count is not
    negative) that jumps back to [body], followed by the jump to [endLoop];
    comments aside. *)
Definition isContinuationTest (emptyPossible : bool) (m n : Z)
    (iterationCount startingPos body endLoop : string) (test : list emission) : Prop :=
  let nFinite := negb (n =? MaxInt32) in
  let mPositive := m >? 0 in
  if negb emptyPossible && negb nFinite then
    test = [Line "// The loop has no upper bound. Continue iterating greedily.";
            gotoLine body]
  else
    exists (comments : list emission) (lead trail : string) (c : cond),
      test = comments ++ [Line (sprint [lead; "if "; render c; " {"; trail]);
                          gotoLine body; Line "}"; gotoLine endLoop]
      /\ Forall (fun e => exists s, e = Line s /\ String.prefix "//" s = true) comments
      /\ commentBlock lead = true
      /\ blank trail = true
      /\ forall env : string -> Z,
           0 <= env iterationCount ->
           holds env c =
           tableContinue emptyPossible nFinite mPositive m n
             (negb (env "pos" =? env startingPos)) (env iterationCount).

(** The characters a branch of an alternation is known to start with, in the
    words of the specification: those of its guaranteed starting literal,
    which is not of the notone family; for a set, which is not negated, the
    characters extracted from it, of which there is at least one. *)
Definition startingChars (child : RegexNode CharSet) : option (list rune) :=
  match FindStartingLiteralNode X child false with
  | None => None
  | Some literal =>
      if IsNotoneFamily X literal then None
      else if IsSetFamily X literal then
        if IsNegated X (Set_ literal) then None
        else
          match fst (GetSetChars X (Set_ literal) ([], SetCharsSize)) with
          | [] => None
          | chars => Some chars
          end
      else Some [FirstCharOfOneOrMulti X literal]
  end.

Definition disjoint (a b : list rune) : Prop := forall c, In c a -> ~ In c b.

(** When the specification has an alternation emitted as a switch. *)
Definition switchedApplicable (rm : regexpData CharSet) (node : RegexNode CharSet) : Prop :=
  isRightToLeft X (Options node) = false
  /\ (IsAtomicByAncestor (Analysis rm) node = true
      \/ Forall (fun child => MayBacktrack (Analysis rm) child = false) (Children node))
  /\ exists starts : list (list rune),
       Forall2 (fun child chars => startingChars child = Some chars) (Children node) starts
       /\ ForallOrdPairs disjoint starts.

(** The characters of the [case] of a branch. *)
Definition caseLabel (child : RegexNode CharSet) : string :=
  match FindStartingLiteralNode X child false with
  | Some literal =>
      if IsSetFamily X literal then
        getRuneLiteralParams X (fst (GetSetChars X (Set_ literal) ([], SetCharsSize)))
      else fmt_q X (FirstCharOfOneOrMulti X literal)
  | None => ""
  end.

(** What is left of a string once the switch has matched its first
    character: the second character as a node of its own when there are two,
    else the characters from the second on. *)
Definition stringRest (c : RegexNode CharSet) : list (RegexNode CharSet) :=
  match T c with
  | NtMulti =>
      if len (Str c) =? 2 then
        match index (Str c) 1 with
        | Some ch1 => [newNode X NtOne (Options c) ch1 []]
        | None => []
        end
      else
        match Str c with
        | [] => []
        | _ :: tail => [newNode X NtMulti (Options c) 0 tail]
        end
  | _ => []
  end.

(** The nodes a branch of a switch hands to the dispatcher, in this order:
    nothing for a character or a set; the rest of a string; for a
    concatenation that begins with its starting literal, a character, a set
    or a string, the rest of that literal and then the concatenation with an
    empty node in its place; nothing for any other concatenation; the branch
    itself for every other kind. *)
Definition branchRest (child : RegexNode CharSet) : list (RegexNode CharSet) :=
  match T child with
  | NtOne | NtSet => []
  | NtMulti => stringRest child
  | NtConcatenate =>
      match Children child, FindStartingLiteralNode X child false with
      | first :: _, Some literal =>
          if (Addr first =? Addr literal) && isOneSetOrMulti (T literal) then
            stringRest first
            ++ [ReplaceChild0 child (newNode X NtEmpty (Options child) 0 [])]
          else []
      | _, _ => []
      end
  | _ => [child]
  end.

(** A branch as the parser builds it: a string has characters, a
    concatenation has children, and when the first of them has the address
    of the starting literal, it is the starting literal. *)
Definition wellFormedBranch (child : RegexNode CharSet) : Prop :=
  match T child with
  | NtMulti => Str child <> []
  | NtConcatenate =>
      exists first others,
        Children child = first :: others
        /\ forall literal,
             FindStartingLiteralNode X child false = Some literal ->
             Addr first = Addr literal ->
             first = literal /\ (T first = NtMulti -> Str first <> [])
  | _ => True
  end.

(** What a failure writes: the jump to [label], or, when [label] is the
    top-level one, the return that ends the match. *)
Definition failureJump (rm : regexpData CharSet) (label : string) : list emission :=
  if String.eqb label (topLevelDoneLabel rm) then
    (if expressionHasCaptures rm then [Line "r.UncaptureUntil(0)"] else [])
    ++ [Line "return nil // The input didn't match."]
  else [gotoLine label].

(** The node kinds whose emitter, in this file, has an empty body: the
    boundaries, the lazy loops, the back-references, the conditionals and the
    lookarounds; and a greedy single-character loop with equal bounds, which
    goes to the (empty) repeater. *)
Definition hasEmptyEmitter (node : RegexNode CharSet) : bool :=
  match T node with
  | NtBoundary | NtNonboundary | NtECMABoundary | NtNonECMABoundary
  | NtOnelazy | NtNotonelazy | NtSetlazy | NtLazyloop
  | NtRef | NtBackRefCond | NtExprCond | NtPosLook | NtNegLook => true
  | NtOneloop | NtNotoneloop | NtSetloop => M node =? N node
  | _ => false
  end.

(** The two comments the dispatcher writes before a node's code. *)
Definition nodeComments (node : RegexNode CharSet) (description : string) : list emission :=
  [Line (sprint ["// Node: "; Description X node]); Line (sprint ["// "; description])].

(** What the writing primitives leave alone. *)
Definition sameControl (rm rm' : regexpData CharSet) : Prop :=
  doneLabel rm' = doneLabel rm
  /\ sliceSpan rm' = sliceSpan rm
  /\ sliceStaticPos rm' = sliceStaticPos rm
  /\ topLevelDoneLabel rm' = topLevelDoneLabel rm
  /\ expressionHasCaptures rm' = expressionHasCaptures rm.

(** What every emitter leaves alone, and that the output only grows. *)
Definition extends (rm rm' : regexpData CharSet) : Prop :=
  (exists written, out rm' = out rm ++ written)
  /\ topLevelDoneLabel rm' = topLevelDoneLabel rm
  /\ expressionHasCaptures rm' = expressionHasCaptures rm
  /\ sliceSpan rm' = sliceSpan rm
  /\ Analysis rm' = Analysis rm
  /\ Tree rm' = Tree rm
  /\ GeneratedName rm' = GeneratedName rm
  /\ rmOptions rm' = rmOptions rm.

(** The emitter returns from every state. *)
Definition returns {A} (m : Emit CharSet A) : Prop :=
  forall rm, exists a rm', m rm = Ok a rm' /\ extends rm rm'.

Definition allowedOption (o : option string) : Prop :=
  forall d, o = Some d -> allowed d.

(** The loop state of a concatenation, with an allowed description. *)
Definition allowedState (st : Z * option string * bool) : Prop :=
  allowedOption (snd (fst st)).

Definition allowedLocals (l : loopLocals) : Prop :=
  allowed (loop_startingStackpos l)
  /\ allowed (loop_originalDoneLabel l)
  /\ allowed (loop_body l)
  /\ allowed (loop_endLoop l)
  /\ allowed (loop_iterationCount l)
  /\ allowed (loop_startingPos l)
  /\ allowed (loop_iterationFailedLabel l).

(** A local that holds a crawl position: it is named only when the
    expression has captures. *)
Definition captureLocal (s : string) : Prop :=
  allowed s /\ (String.eqb s "" = false -> strict = false).

(** The emitter keeps the discipline, whether it returns (with a result that
    satisfies [Q]) or stops, and only adds to the output. *)
Definition keeps {A} (Q : A -> Prop) (m : Emit CharSet A) : Prop :=
  forall rm, disciplined rm ->
    match m rm with
    | Ok a rm' => disciplined rm' /\ extends rm rm' /\ Q a
    | Stop _ rm' => disciplined rm' /\ extends rm rm'
    end.

End Vocabulary.

(** ** A concrete instance

    Character classes as a negation flag and the list of their characters;
    code points rendered as Go would print them for printable ASCII. *)
Module Sample.

Definition CharSet : Type := bool * list rune.

Definition dq : string := String (ascii_of_nat 34) "".

Definition runeText (r : rune) : string :=
  String (ascii_of_nat (Z.to_nat r)) "".

Fixpoint runesText (l : list rune) : string :=
  match l with
  | [] => ""
  | r :: rest => (runeText r ++ runesText rest)%string
  end.

Definition quoteRune (r : rune) : string := sprint ["'"; runeText r; "'"].

Definition kindName (t : NodeType) : string :=
  match t with
  | NtOneloop => "Oneloop" | NtNotoneloop => "Notoneloop" | NtSetloop => "Setloop"
  | NtOnelazy => "Onelazy" | NtNotonelazy => "Notonelazy" | NtSetlazy => "Setlazy"
  | NtOne => "One" | NtNotone => "Notone" | NtSet => "Set" | NtMulti => "Multi"
  | NtRef => "Ref" | NtBol => "Bol" | NtEol => "Eol" | NtBoundary => "Boundary"
  | NtNonboundary => "Nonboundary" | NtECMABoundary => "ECMABoundary"
  | NtNonECMABoundary => "NonECMABoundary" | NtBeginning => "Beginning"
  | NtStart => "Start" | NtEndZ => "EndZ" | NtEnd => "End" | NtNothing => "Nothing"
  | NtEmpty => "Empty" | NtAlternate => "Alternate" | NtConcatenate => "Concatenate"
  | NtLoop => "Loop" | NtLazyloop => "Lazyloop" | NtCapture => "Capture"
  | NtPosLook => "PosLook" | NtNegLook => "NegLook" | NtAtomic => "Atomic"
  | NtBackRefCond => "BackRefCond" | NtExprCond => "ExprCond"
  | NtUpdateBumpalong => "UpdateBumpalong"
  | NtOther code => sprint ["NodeType("; itoa code; ")"]
  end.

Definition oneFamily (n : RegexNode CharSet) : bool :=
  match T n with NtOne | NtOneloop | NtOnelazy => true | _ => false end.
Definition notoneFamily (n : RegexNode CharSet) : bool :=
  match T n with NtNotone | NtNotoneloop | NtNotonelazy => true | _ => false end.
Definition setFamily (n : RegexNode CharSet) : bool :=
  match T n with NtSet | NtSetloop | NtSetlazy => true | _ => false end.

(** The guaranteed first literal of a node: the node itself when it is a
    character, a string or a character loop with a first iteration, else that
    of its first child. *)
Fixpoint findStartingLiteralNode (depth : nat) (n : RegexNode CharSet)
    : option (RegexNode CharSet) :=
  match T n with
  | NtOne | NtNotone | NtSet | NtMulti => Some n
  | NtOneloop | NtNotoneloop | NtSetloop | NtOnelazy | NtNotonelazy | NtSetlazy =>
      if M n >? 0 then Some n else None
  | NtConcatenate | NtCapture | NtAtomic =>
      match depth, Children n with
      | S d, c :: _ => findStartingLiteralNode d c
      | _, _ => None
      end
  | _ => None
  end.

Fixpoint minLength (depth : nat) (n : RegexNode CharSet) : Z :=
  match T n with
  | NtOne | NtNotone | NtSet => 1
  | NtMulti => len (Str n)
  | NtOneloop | NtNotoneloop | NtSetloop | NtOnelazy | NtNotonelazy | NtSetlazy => M n
  | NtConcatenate =>
      match depth with
      | S d => fold_right (fun c acc => minLength d c + acc) 0 (Children n)
      | O => 0
      end
  | NtCapture | NtAtomic =>
      match depth, Children n with
      | S d, c :: _ => minLength d c
      | _, _ => 0
      end
  | NtLoop | NtLazyloop =>
      match depth, Children n with
      | S d, c :: _ => M n * minLength d c
      | _, _ => 0
      end
  | _ => 0
  end.

(** A format with one [%s] verb: the argument takes its place. *)
Fixpoint fillVerb (fuel : nat) (format arg : string) : string :=
  match fuel with
  | O => format
  | S k =>
      if String.prefix "%s" format then
        (arg ++ String.substring 2 (String.length format - 2) format)%string
      else
        match format with
        | EmptyString => EmptyString
        | String c rest => String c (fillVerb k rest arg)
        end
  end.

Definition isDigit (c : ascii) : bool :=
  let n := nat_of_ascii c in (48 <=? n)%nat && (n <=? 57)%nat.

Fixpoint parseDigits (s : string) (acc : Z) : option Z :=
  match s with
  | EmptyString => Some acc
  | String c rest =>
      if isDigit c then parseDigits rest (acc * 10 + Z.of_nat (nat_of_ascii c - 48))
      else None
  end.

Definition atoi (s : string) : option Z :=
  match s with
  | EmptyString => None
  | _ => parseDigits s 0
  end.

Definition externals : Externals CharSet := {|
  RightToLeft := 64;
  nilCharSet := (false, []);
  newNodeAddr := 0;
  Description := fun n => kindName (T n);
  IsOneFamily := oneFamily;
  IsNotoneFamily := notoneFamily;
  IsSetFamily := setFamily;
  ComputeMinLength := minLength 32;
  FindStartingLiteralNode := fun n _ => findStartingLiteralNode 32 n;
  FirstCharOfOneOrMulti :=
    fun n => match T n, Str n with
             | NtMulti, c :: _ => c
             | _, _ => Ch n
             end;
  TryGetJoinableLengthCheckChildRange := fun _ _ => None;
  TryGetOrdinalCaseInsensitiveString := fun _ _ _ _ => None;
  IsAnything := fun _ => false;
  IsNegated := fun s => fst s;
  GetIfNRanges := fun _ _ => [];
  GetSetChars := fun s buf => (snd s, snd buf);
  SetString := fun s => sprint ["["; if fst s then "^" else ""; runesText (snd s); "]"];
  getRuneSliceLiteral := fun l => sprint ["[]rune("; dq; runesText l; dq; ")"];
  getRuneLiteralParams := fun l => Join (map quoteRune l) ", ";
  emitMatchCharacterClass :=
    fun s negate expr =>
      sprint [if negate then "!" else ""; "helpers.IsInSet("; expr; ", ";
              dq; runesText (snd s); dq; ")"];
  emitIndexOfChars :=
    fun l negate span =>
      sprint ["helpers.IndexOfAny"; if negate then "Except" else ""; "("; span; ", ";
              dq; runesText l; dq; ")"];
  fmt_q := quoteRune;
  fmt_gosyntax := fun s => sprint [dq; s; dq];
  string_of_runes := runesText;
  string_of_int := runeText;
  fmt_NodeType := kindName;
  fmt_s_pointer := fun _ => "%!s(*string=0xc000012345)";
  Sprintf1 := fun format arg => fillVerb (String.length format) format arg;
  Atoi := atoi
|}.

Definition node (t : NodeType) (options : Z) (ch : rune) (str : list rune)
    (set : CharSet) (m n : Z) (children : list (RegexNode CharSet)) (addr : Z)
    : RegexNode CharSet :=
  mkNode t options ch str set m n children addr.

(** Code points of a string, for writing sample patterns. *)
Fixpoint runes (s : string) : list rune :=
  match s with
  | EmptyString => []
  | String c rest => Z.of_nat (nat_of_ascii c) :: runes rest
  end.

Definition one (c : string) (addr : Z) : RegexNode CharSet :=
  node NtOne 0 (hd 0 (runes c)) [] (false, []) 0 0 [] addr.

Definition multi (s : string) (addr : Z) : RegexNode CharSet :=
  node NtMulti 0 0 (runes s) (false, []) 0 0 [] addr.

Definition group (t : NodeType) (m n : Z) (children : list (RegexNode CharSet)) (addr : Z)
    : RegexNode CharSet :=
  node t 0 0 [] (false, []) m n children addr.

Definition analysis (atomic inLoop backtracks : list Z) (captures : bool)
    : AnalysisResults CharSet := {|
  MayBacktrack := fun n => existsb (Z.eqb (Addr n)) backtracks;
  IsAtomicByAncestor := fun n => existsb (Z.eqb (Addr n)) atomic;
  IsInLoop := fun n => existsb (Z.eqb (Addr n)) inLoop;
  MayContainCapture := fun _ => captures
|}.

Definition tree (root : RegexNode CharSet) : RegexTree CharSet := {|
  Root := group NtCapture 0 (-1) [root] 1;
  Caps := None;
  Caplist := [];
  Capnumlist := None;
  Captop := 1;
  FindMode := OtherFindMode;
  LiteralAfterLoop_LoopNode := 0
|}.

Definition start (root : RegexNode CharSet) (a : AnalysisResults CharSet)
    : regexpData CharSet := {|
  out := [];
  GeneratedName := "Sample";
  rmOptions := 0;
  Tree := tree root;
  Analysis := a;
  additionalDeclarations := [];
  usedNames := [];
  emittedLabels := [];
  usedLabels := [];
  sliceSpan := "";
  sliceStaticPos := 0;
  doneLabel := "";
  topLevelDoneLabel := "";
  expressionHasCaptures := false
|}.

(** A state in the middle of an emission: the slice is declared and
    [doneLabel] is the label of some enclosing construct. *)
Definition within (done : string) (captures : bool) (a : AnalysisResults CharSet)
    : regexpData CharSet := {|
  out := [];
  GeneratedName := "Sample";
  rmOptions := 0;
  Tree := tree (group NtEmpty 0 0 [] 2);
  Analysis := a;
  additionalDeclarations := [];
  usedNames := [("NoMatch", 1)];
  emittedLabels := [];
  usedLabels := [];
  sliceSpan := "slice";
  sliceStaticPos := 0;
  doneLabel := done;
  topLevelDoneLabel := "NoMatch";
  expressionHasCaptures := captures
|}.

(** The atomic alternation [(?>cat|dog|fish)]. *)
Definition catDogFish : RegexNode CharSet :=
  group NtAlternate 0 0 [multi "cat" 71; multi "dog" 72; multi "fish" 73] 70.

(** The balancing group [(?<1-2>a)]. *)
Definition balancingGroup : RegexNode CharSet :=
  group NtCapture 1 2 [one "a" 31] 30.

(** [(?:(?:a)?){2,}], standing inside an outer loop. *)
Definition loopOfOptional : RegexNode CharSet :=
  group NtLoop 2 MaxInt32 [group NtLoop 0 1 [one "a" 42] 41] 40.

(** The string [ab], matched right-to-left. *)
Definition multiRightToLeft : RegexNode CharSet :=
  node NtMulti 64 0 (runes "ab") (false, []) 0 0 [] 50.

(** The anchor [$] under the multiline option. *)
Definition endOfLine : RegexNode CharSet :=
  node NtEol 0 0 [] (false, []) 0 0 [] 60.

End Sample.

(** ** Well-formed conditions *)

(** Whether the parentheses of a line of emitted code are balanced. *)
Fixpoint parensBalancedFrom (depth : nat) (s : string) : bool :=
  match s with
  | EmptyString => Nat.eqb depth 0
  | String c rest =>
      if Ascii.eqb c "("%char then parensBalancedFrom (S depth) rest
      else if Ascii.eqb c ")"%char then
        match depth with
        | O => false
        | S d => parensBalancedFrom d rest
        end
      else parensBalancedFrom depth rest
  end.

Definition parensBalanced (s : string) : bool := parensBalancedFrom 0 s.

(** Text without a parenthesis. *)
Fixpoint parenFree (s : string) : bool :=
  match s with
  | EmptyString => true
  | String c rest =>
      negb (Ascii.eqb c "("%char) && negb (Ascii.eqb c ")"%char) && parenFree rest
  end.

(** The anchors other than the end of a line. *)
Definition isPlainAnchor (t : NodeType) : bool :=
  match t with
  | NtBeginning | NtStart | NtBol | NtEnd | NtEndZ => true
  | _ => false
  end.

(** The tests for room that the optional single character writes, as terms:
    [renderSpace] gives their text and [spaceHolds] their value, for a slice
    of the given length and a given [pos]. *)
Inductive spaceTest :=
| SliceIsEmpty (span : string)
| SliceLongerThan (span : string) (k : Z)
| PosIsPositive.

Definition renderSpace (t : spaceTest) : string :=
  match t with
  | SliceIsEmpty span => sprint ["len("; span; ") == 0"]
  | SliceLongerThan span k => sprint ["len("; span; ") > "; itoa k]
  | PosIsPositive => "pos > 0"
  end.

Definition spaceHolds (length pos : Z) (t : spaceTest) : bool :=
  match t with
  | SliceIsEmpty _ => length =? 0
  | SliceLongerThan _ k => length >? k
  | PosIsPositive => pos >? 0
  end.

(** The state in which [emitExecute] hands the root's child to the
    dispatcher: a fresh buffer that holds the declarations of [pos],
    [matchStart] and the slice, [NoMatch] reserved as the done label at both
    levels, and a static offset of 0. *)
Definition executeBodyStart {CharSet : Type} (rm : regexpData CharSet)
    (root : RegexNode CharSet) : regexpData CharSet :=
  set_expressionHasCaptures (MayContainCapture (Analysis rm) root)
    (set_topLevelDoneLabel "NoMatch"
       (set_doneLabel "NoMatch"
          (set_usedNames [("NoMatch", 1)]
             (set_sliceStaticPos 0
                (set_sliceSpan "slice"
                   (set_out
                      [Line (sprint ["pos := r.Runtextpos"; nlt 3; "matchStart := pos"; nlt 3]);
                       Frag "var "; Line "slice = r.Runtext[pos:]"; Line ""]
                      rm)))))).

(** * Properties *)

Section Properties.

Context {CharSet : Type}.
Variable X : Externals CharSet.

Local Abbreviation Data := (regexpData CharSet).
Local Abbreviation Node := (RegexNode CharSet).

(** ** Text *)

Lemma append_nil_r (s : string) : (s ++ "")%string = s.
Proof. induction s as [|c s IH]; cbn; [reflexivity | now rewrite IH]. Qed.

Lemma append_assoc (a b c : string) : ((a ++ b) ++ c)%string = (a ++ (b ++ c))%string.
Proof. induction a as [|x a IH]; cbn; [reflexivity | now rewrite IH]. Qed.

Lemma sprint_nil : sprint [] = "".
Proof. reflexivity. Qed.

Lemma sprint_cons (a : string) (l : list string) :
  sprint (a :: l) = (a ++ sprint l)%string.
Proof.
  unfold sprint. destruct l as [|b l]; cbn.
  - now rewrite append_nil_r.
  - reflexivity.
Qed.

Lemma sprint_app (l1 l2 : list string) :
  sprint (l1 ++ l2) = (sprint l1 ++ sprint l2)%string.
Proof.
  induction l1 as [|a l1 IH]; [reflexivity|].
  cbn [app]. now rewrite !sprint_cons, IH, append_assoc.
Qed.

Lemma numeral_uint (d : Decimal.uint) : numeral (NilEmpty.string_of_uint d) = true.
Proof. induction d; cbn; try assumption; reflexivity. Qed.

Lemma numeral_itoa (z : Z) : numeral (itoa z) = true.
Proof.
  unfold itoa, NilZero.string_of_int, NilZero.string_of_uint.
  destruct (Z.to_int z) as [d|d]; destruct d; cbn; try apply numeral_uint; reflexivity.
Qed.

Lemma commentBlockFrom_numeral (a b : string) :
  numeral a = true ->
  commentBlockFrom true (a ++ b) = commentBlockFrom true b.
Proof.
  induction a as [|c a IH]; cbn; [reflexivity|].
  intros H. apply andb_prop in H as [Hc Ha].
  assert (E : Ascii.eqb c (ascii_of_nat 10) = false).
  { apply Ascii.eqb_neq. intros ->. discriminate. }
  cbn in E. rewrite E. cbn. now apply IH.
Qed.

Lemma render_countBelow (count : string) (bound : Z) :
  render (countBelow count bound) = countIsLessThan count bound.
Proof.
  unfold countBelow, countIsLessThan. destruct (bound =? 1); cbn.
  - reflexivity.
  - reflexivity.
Qed.

Lemma holds_countBelow (env : string -> Z) (count : string) (bound : Z) :
  0 <= env count -> holds env (countBelow count bound) = (env count <? bound).
Proof.
  intros Hc. unfold countBelow. destruct (bound =? 1) eqn:E; cbn; [|reflexivity].
  apply Z.eqb_eq in E. subst bound.
  destruct (Z.eqb_spec (env count) 0), (Z.ltb_spec (env count) 1); try reflexivity; lia.
Qed.

(** ** Emitters that always return *)

Lemma extends_refl (rm : Data) : extends rm rm.
Proof.
  unfold extends. repeat split; try reflexivity.
  exists []. now rewrite app_nil_r.
Qed.

Lemma extends_trans (a b c : Data) : extends a b -> extends b c -> extends a c.
Proof.
  unfold extends.
  intros ((w1 & Hw1) & ? & ? & ? & ? & ? & ? & ?) ((w2 & Hw2) & ? & ? & ? & ? & ? & ? & ?).
  repeat split; try congruence.
  exists (w1 ++ w2). rewrite Hw2, Hw1. now rewrite app_assoc.
Qed.

Lemma returns_ret {A} (a : A) : returns (ret a : Emit CharSet A).
Proof. intros rm. exists a, rm. split; [reflexivity | apply extends_refl]. Qed.

Lemma returns_bind {A B} (m : Emit CharSet A) (k : A -> Emit CharSet B) :
  returns m -> (forall a, returns (k a)) -> returns (bind m k).
Proof.
  intros Hm Hk rm. unfold bind.
  destruct (Hm rm) as (a & rm1 & E1 & X1). rewrite E1.
  destruct (Hk a rm1) as (b & rm2 & E2 & X2).
  exists b, rm2. split; [assumption | eapply extends_trans; eassumption].
Qed.

Lemma returns_get_bind {B} (k : Data -> Emit CharSet B) :
  (forall rm, returns (k rm)) -> returns (bind get k).
Proof. intros Hk rm. unfold bind, get. apply Hk. Qed.

Lemma returns_modify (f : Data -> Data) :
  (forall rm, extends rm (f rm)) -> returns (modify f).
Proof. intros Hf rm. exists tt, (f rm). split; [reflexivity | apply Hf]. Qed.

Lemma returns_when (b : bool) (m : Emit CharSet unit) : returns m -> returns (when b m).
Proof. intros Hm. destruct b; [assumption | apply returns_ret]. Qed.

Lemma extends_written (rm : Data) (written : list emission) :
  extends rm (set_out (out rm ++ written) rm).
Proof. unfold extends; cbn. repeat split; try reflexivity. now exists written. Qed.

Lemma extends_same_out (rm rm' : Data) :
  out rm' = out rm ->
  topLevelDoneLabel rm' = topLevelDoneLabel rm ->
  expressionHasCaptures rm' = expressionHasCaptures rm ->
  sliceSpan rm' = sliceSpan rm ->
  Analysis rm' = Analysis rm ->
  Tree rm' = Tree rm ->
  GeneratedName rm' = GeneratedName rm ->
  rmOptions rm' = rmOptions rm ->
  extends rm rm'.
Proof.
  intros Ho; intros. unfold extends. repeat split; try assumption.
  exists []. now rewrite app_nil_r.
Qed.

Lemma returns_writeLine (s : string) : returns (writeLine s : Emit CharSet unit).
Proof. apply returns_modify. intros rm. apply extends_written. Qed.

Lemma returns_write (s : string) : returns (write s : Emit CharSet unit).
Proof. apply returns_modify. intros rm. apply extends_written. Qed.

Lemma returns_set_sliceStaticPos (f : Data -> Z) :
  returns (modify (fun rm : Data => set_sliceStaticPos (f rm) rm)).
Proof. apply returns_modify. intros rm. now apply extends_same_out. Qed.

Lemma returns_set_doneLabel (v : string) :
  returns (modify (set_doneLabel v) : Emit CharSet unit).
Proof. apply returns_modify. intros rm. now apply extends_same_out. Qed.

Lemma returns_set_usedLabels (f : Data -> list string) :
  returns (modify (fun rm : Data => set_usedLabels (f rm) rm)).
Proof. apply returns_modify. intros rm. now apply extends_same_out. Qed.

Lemma returns_set_emittedLabels (f : Data -> list string) :
  returns (modify (fun rm : Data => set_emittedLabels (f rm) rm)).
Proof. apply returns_modify. intros rm. now apply extends_same_out. Qed.

Lemma returns_set_additionalDeclarations (f : Data -> list string) :
  returns (modify (fun rm : Data => set_additionalDeclarations (f rm) rm)).
Proof. apply returns_modify. intros rm. now apply extends_same_out. Qed.

Lemma returns_reserveName (name : string) : returns (reserveName name : Emit CharSet string).
Proof.
  intros rm. unfold reserveName. do 2 eexists. split; [reflexivity|].
  now apply extends_same_out.
Qed.

(** Goes through a chain of binds of emitters that always return. *)
Ltac returns_step :=
  lazymatch goal with
  | |- returns (bind get _) => apply returns_get_bind; intros ?
  | |- returns (bind _ _) => apply returns_bind; [ | intros ? ]
  | |- returns (ret _) => apply returns_ret
  | |- returns (writeLine _) => apply returns_writeLine
  | |- returns (write _) => apply returns_write
  | |- returns (reserveName _) => apply returns_reserveName
  | |- returns (when _ _) => apply returns_when
  | |- returns (modify (set_doneLabel _)) => apply returns_set_doneLabel
  | |- returns (modify (set_sliceStaticPos ?v)) =>
      apply (returns_set_sliceStaticPos (fun _ => v))
  | |- returns (modify (fun rm => set_sliceStaticPos _ rm)) =>
      apply (returns_set_sliceStaticPos (fun _ => _))
  | |- returns (modify (fun rm => set_usedLabels _ rm)) =>
      apply (returns_set_usedLabels (fun _ => _))
  | |- returns (modify (fun rm => set_emittedLabels _ rm)) =>
      apply (returns_set_emittedLabels (fun _ => _))
  | |- returns (modify (fun rm => set_additionalDeclarations _ rm)) =>
      apply (returns_set_additionalDeclarations (fun _ => _))
  | |- returns (if ?b then _ else _) => destruct b
  | |- returns (match ?o with Some _ => _ | None => _ end) => destruct o
  | |- returns (let '(_, _) := ?p in _) => destruct p
  | |- returns _ => assumption
  end.

Ltac returns_auto := repeat returns_step.

Lemma returns_appendDeclaration (l : string) : returns (appendDeclaration l : Emit CharSet unit).
Proof. unfold appendDeclaration. returns_auto. Qed.

Lemma returns_addLocalDec (l : string) : returns (addLocalDec l : Emit CharSet unit).
Proof. apply returns_appendDeclaration. Qed.

Lemma returns_emitMarkLabel (label : string) : returns (emitMarkLabel label : Emit CharSet unit).
Proof. unfold emitMarkLabel. returns_auto. Qed.

Lemma returns_emitUncaptureUntil (p : string) :
  returns (emitUncaptureUntil p : Emit CharSet unit).
Proof. unfold emitUncaptureUntil. returns_auto. Qed.

Lemma returns_emitExecuteGoto (label : string) :
  returns (emitExecuteGoto label : Emit CharSet unit).
Proof.
  unfold emitExecuteGoto. returns_auto. apply returns_emitUncaptureUntil.
Qed.

Lemma returns_emitCaseGoto (clause label : string) :
  returns (emitCaseGoto clause label : Emit CharSet unit).
Proof. unfold emitCaseGoto. returns_auto. apply returns_emitExecuteGoto. Qed.

Lemma returns_emitStackPop (cookie : Z) (args : list string) :
  returns (emitStackPop cookie args : Emit CharSet unit).
Proof. induction args; cbn [emitStackPop]; returns_auto. Qed.

Lemma returns_emitStackPush (cookie : Z) (args : list string) :
  returns (emitStackPush cookie args : Emit CharSet unit).
Proof.
  unfold emitStackPush.
  destruct args as [|a0 [|a1 [|a2 [|a3 rest]]]]; returns_auto.
Qed.

Lemma returns_emitAddStmt (variable : string) (value : Z) :
  returns (emitAddStmt variable value : Emit CharSet unit).
Proof. unfold emitAddStmt. returns_auto. Qed.

Lemma returns_sliceInputSpan (declare : bool) :
  returns (sliceInputSpan declare : Emit CharSet unit).
Proof. unfold sliceInputSpan. returns_auto. Qed.

Lemma returns_transferSliceStaticPosToPos (force : bool) :
  returns (transferSliceStaticPosToPos force : Emit CharSet unit).
Proof.
  unfold transferSliceStaticPosToPos. returns_auto;
    first [apply returns_emitAddStmt | apply returns_sliceInputSpan].
Qed.

Lemma returns_emitSpanLengthCheck (requiredLength : Z) (dyn : option string) :
  returns (emitSpanLengthCheck X requiredLength dyn).
Proof. unfold emitSpanLengthCheck. returns_auto. apply returns_emitExecuteGoto. Qed.

(** ** The general loop *)

Lemma emitExecuteGoto_other (label : string) (rm : Data) :
  String.eqb label (topLevelDoneLabel rm) = false ->
  emitExecuteGoto label rm
  = Ok tt (set_out (out rm ++ [gotoLine label])
             (set_usedLabels (usedLabels rm ++ [label]) rm)).
Proof.
  intros H. unfold emitExecuteGoto, gotoWillExitMatch, bind, get. rewrite H. reflexivity.
Qed.

Lemma bind_Ok {A B} (m : Emit CharSet A) (k : A -> Emit CharSet B)
    (rm rm' : Data) (a : A) :
  m rm = Ok a rm' -> bind m k rm = k a rm'.
Proof. intros H. unfold bind. now rewrite H. Qed.

(** Reduces the updated states to records of their fields. *)
Ltac fields :=
  cbv beta iota delta
      [out GeneratedName rmOptions Tree Analysis additionalDeclarations usedNames
       emittedLabels usedLabels sliceSpan sliceStaticPos doneLabel topLevelDoneLabel
       expressionHasCaptures
       set_out set_additionalDeclarations set_usedNames set_emittedLabels
       set_usedLabels set_sliceSpan set_sliceStaticPos set_doneLabel
       set_topLevelDoneLabel set_expressionHasCaptures] in *.

(** Runs the next write or jump of a chain of binds. *)
Ltac run_goto :=
  rewrite emitExecuteGoto_other by (fields; assumption).

Ltac run_step :=
  first
    [ erewrite bind_Ok by (apply emitExecuteGoto_other; fields; assumption)
    | erewrite bind_Ok by (unfold writeLine, modify; reflexivity) ].

Ltac text_eq :=
  cbn [render];
  repeat rewrite ?render_countBelow, ?sprint_cons, ?sprint_nil, ?append_assoc, ?append_nil_r;
  reflexivity.

Ltac finish_condition :=
  eexists _, _; split; [reflexivity|]; fields;
  split; [now rewrite <- !app_assoc|];
  split; [unfold extends; fields; repeat split; eexists; now rewrite <- !app_assoc|].

Ltac solve_condition :=
  split; [cbn [app]; do 2 f_equal; text_eq|];
  split; [repeat (constructor; try (eexists; split; reflexivity))|];
  split; [unfold commentBlock; rewrite ?sprint_cons; cbn -[itoa];
          rewrite ?commentBlockFrom_numeral by apply numeral_itoa; reflexivity|];
  split; [reflexivity|];
  intros env Hc; cbn [holds tableContinue];
  rewrite ?holds_countBelow by assumption;
  try reflexivity.

Lemma emitLoopCondition_spec (m n : Z) (emptyPossible : bool)
    (iterationCount startingPos body endLoop : string) (rm : Data)
    (Hbody : String.eqb body (topLevelDoneLabel rm) = false)
    (Hend : String.eqb endLoop (topLevelDoneLabel rm) = false) :
  exists test rm',
    emitLoopCondition m n emptyPossible iterationCount startingPos body endLoop rm = Ok tt rm'
    /\ out rm' = out rm ++ Line "" :: test
    /\ extends rm rm'
    /\ isContinuationTest emptyPossible m n iterationCount startingPos body endLoop test.
Proof.
  unfold emitLoopCondition, isContinuationTest.
  destruct emptyPossible; destruct (n =? MaxInt32) eqn:En; cbn [negb andb].
  - (* empty iterations, no upper bound *)
    destruct (m >? 0) eqn:Em; cbn [negb andb]; repeat run_step; run_goto;
      finish_condition.
    + exists [],
        (sprint ["// The loop has a lower bound of "; itoa m;
                 " but no upper bound. Continue iterating greedily"; nlt 6;
                 "// if the last iteration wasn't empty (or if it was, if the lower bound hasn't yet been reached).";
                 nlt 6]),
        (nlt 6),
        (Either (PosIsNot startingPos) (countBelow iterationCount m)).
      solve_condition.
    + exists [],
        (sprint ["// The loop is unbounded. Continue iterating greedily as long as the last iteration wasn't empty.";
                 nlt 6]),
        "",
        (PosIsNot startingPos).
      solve_condition.
  - (* empty iterations, an upper bound *)
    destruct (m >? 0) eqn:Em; cbn [negb andb]; repeat run_step; run_goto;
      finish_condition.
    + exists [],
        (sprint ["// The loop has a lower bound of "; itoa m;
                 " and an upper bound of {maxIterations}. Continue iterating"; nlt 6;
                 "// greedily if the upper bound hasn't yet been reached and either the last iteration was non-empty or the";
                 nlt 6;
                 "// lower bound hasn't yet been reached."; nlt 6]),
        "",
        (Both (Either (PosIsNot startingPos) (countBelow iterationCount m))
              (countBelow iterationCount n)).
      solve_condition.
    + exists [],
        (sprint ["// The loop has an upper bound of "; itoa n;
                 ". Continue iterating greedily if the upper bound hasn't"; nlt 6;
                 "// yet been reached (as long as the last iteration wasn't empty).";
                 nlt 6]),
        "",
        (Both (PosIsNot startingPos) (countBelow iterationCount n)).
      solve_condition.
  - (* no empty iteration, no upper bound *)
    repeat run_step; run_goto.
    finish_condition.
    reflexivity.
  - (* no empty iteration, an upper bound *)
    repeat run_step; run_goto.
    finish_condition.
    exists [Line (sprint ["// The loop has an upper bound of "; itoa n;
                          ". Continue iterating greedily if it hasn't yet been reached."])],
      "", "", (countBelow iterationCount n).
    solve_condition.
Qed.

Lemma bind_assoc {A B C} (m : Emit CharSet A) (k1 : A -> Emit CharSet B)
    (k2 : B -> Emit CharSet C) (rm : Data) :
  bind (bind m k1) k2 rm = bind m (fun a => bind (k1 a) k2) rm.
Proof. unfold bind. destruct (m rm); reflexivity. Qed.

(** Runs the emitter at the head of a chain of binds, when it is one that
    computes to its result. *)
Ltac run :=
  lazymatch goal with
  | |- context [bind get ?k ?rm] => change (bind get k rm) with (k rm rm); cbv beta
  | |- context [bind (bind ?m ?k1) ?k2 ?rm] => rewrite (bind_assoc m k1 k2 rm)
  | |- context [bind (when true ?m) ?k ?rm] => change (when true m) with m
  | |- context [bind (when false ?m) ?k ?rm] =>
      change (bind (when false m) k rm) with (k tt rm); cbv beta
  | |- context [bind ?m ?k ?rm] => erewrite (bind_Ok m k rm) by reflexivity
  end.

Lemma returns_final (m : Emit CharSet unit) (rm : Data) :
  returns m -> m rm = Ok tt (final (m rm)).
Proof.
  intros Hm. destruct (Hm rm) as ([] & rm' & E & _). rewrite E. reflexivity.
Qed.

Lemma returns_extends (m : Emit CharSet unit) (rm : Data) :
  returns m -> extends rm (final (m rm)).
Proof.
  intros Hm. destruct (Hm rm) as ([] & rm' & E & HX). rewrite E. exact HX.
Qed.

Lemma returns_emitLoopStatePush (cookie : Z) (a b c : string) :
  returns (emitLoopStatePush cookie a b c : Emit CharSet unit).
Proof. unfold emitLoopStatePush. returns_auto; apply returns_emitStackPush. Qed.

Lemma returns_emitLoopStatePop (cookie : Z) (a b c : string) :
  returns (emitLoopStatePop cookie a b c : Emit CharSet unit).
Proof. unfold emitLoopStatePop. returns_auto; apply returns_emitStackPop. Qed.

Lemma nameFor_LoopBody (count : Z) :
  String.eqb (nameFor "LoopBody" count) "NoMatch" = false.
Proof. unfold nameFor. destruct (count =? 0); reflexivity. Qed.

Lemma nameFor_LoopEnd (count : Z) :
  String.eqb (nameFor "LoopEnd" count) "NoMatch" = false.
Proof. unfold nameFor. destruct (count =? 0); reflexivity. Qed.

Ltac returns_all :=
  repeat first
    [ returns_step
    | apply returns_emitExecuteGoto
    | apply returns_emitMarkLabel
    | apply returns_emitStackPop
    | apply returns_emitStackPush
    | apply returns_emitUncaptureUntil
    | apply returns_sliceInputSpan
    | apply returns_transferSliceStaticPosToPos
    | apply returns_emitLoopStatePush
    | apply returns_emitLoopStatePop
    | apply returns_addLocalDec
    | apply returns_appendDeclaration
    | apply returns_emitAddStmt
    | apply returns_emitCaseGoto
    | apply returns_emitSpanLengthCheck
    | (unfold emitStackCookieValidate, emitTimeoutCheckIfNeeded; apply returns_ret) ].

(** *** Characters and strings *)

Lemma returns_describeNode (node : Node) : returns (describeNode X node).
Proof. unfold describeNode. apply returns_get_bind. intros rm. apply returns_ret. Qed.

Lemma returns_emitExecuteMultiCharString (str : list rune) (a b c : bool) :
  returns (emitExecuteMultiCharString X str a b c).
Proof. unfold emitExecuteMultiCharString. returns_all. Qed.

Lemma returns_emitExecuteSingleChar (node : Node) (elc : bool) (offset : option string)
    (clauseOnly : bool) :
  returns (emitExecuteSingleChar X node elc offset clauseOnly).
Proof. unfold emitExecuteSingleChar. returns_all. Qed.

(** The dispatcher returns from every state when the node is a character, a
    set or a string, whatever it would do for other nodes. *)
Lemma returns_emitExecuteNodeBody_atom
    (emitNode : Node -> option Node -> bool -> Emit CharSet unit) (budget : nat)
    (node : Node) (subsequent : option Node) (elc : bool) :
  isFixedLengthAtom (T node) = true ->
  returns (emitExecuteNodeBody X emitNode budget node subsequent elc).
Proof.
  intros Hkind. unfold emitExecuteNodeBody. apply returns_get_bind. intros rm.
  cbv zeta.
  destruct (match FindMode (Tree rm) with
            | LiteralAfterLoop_LeftToRight => LiteralAfterLoop_LoopNode (Tree rm) =? Addr node
            | OtherFindMode => false
            end); [returns_all|].
  apply returns_bind; [returns_all|]. intros _.
  apply returns_bind; [returns_all|]. intros _.
  unfold emitDescribedNode.
  destruct (T node); try discriminate Hkind;
    (apply returns_bind; [apply returns_describeNode|]; intros description;
     apply returns_bind; [apply returns_writeLine|]; intros _;
     first [apply returns_emitExecuteSingleChar | apply returns_emitExecuteMultiCharString]).
Qed.

Lemma returns_emitLoopUnwind (node : Node) (e cb : bool) (l : loopLocals) :
  returns (emitLoopUnwind node e cb l : Emit CharSet unit).
Proof. unfold emitLoopUnwind. cbv zeta. returns_all. Qed.

Lemma emitLoopStart_spec (rm : Data) (node child : Node) :
  exists (l : loopLocals) (rm1 : Data),
    emitLoopStart X node child rm = Ok l rm1
    /\ (exists k, loop_body l = nameFor "LoopBody" k)
    /\ (exists k, loop_endLoop l = nameFor "LoopEnd" k)
    /\ In (Line (sprint [loop_body l; ":"])) (out rm1)
    /\ last (out rm1) (Line "") = Line (sprint [loop_iterationCount l; "++"; nl]).
Proof.
  set (st0 := final (transferSliceStaticPosToPos false rm)).
  destruct (IsAtomicByAncestor (Analysis st0) node || (M node >? 1)) eqn:Estack;
    destruct (ComputeMinLength X child =? 0) eqn:Eempty;
    destruct (expressionHasCaptures st0) eqn:Ecaps;
    eexists _, _;
    (split;
     [ unfold emitLoopStart;
       rewrite (bind_Ok _ _ _ _ _
                  (returns_final _ _ (returns_transferSliceStaticPosToPos false)));
       fold st0; run; cbv zeta; rewrite Estack;
       repeat (run; fields; rewrite ?Eempty, ?Ecaps);
       reflexivity
     | cbn [loop_body loop_endLoop loop_iterationCount]; fields;
       split; [eexists; reflexivity|];
       split; [eexists; reflexivity|];
       split;
       [ repeat (apply in_or_app; first [right; left; reflexivity | left])
       | apply last_last ] ]).
Qed.

Lemma emitLoopEnd_spec (node child : Node) (l : loopLocals) (rm2 : Data)
    (Htop : topLevelDoneLabel rm2 = "NoMatch")
    (Hbody : String.eqb (loop_body l) "NoMatch" = false)
    (Hend : String.eqb (loop_endLoop l) "NoMatch" = false) :
  exists (rm3 : Data) (test after : list emission),
    emitLoopEnd X node child l rm2 = Ok tt rm3
    /\ out rm3 =
       out (final (bind (writeLine "") (fun _ => transferSliceStaticPosToPos false) rm2))
       ++ Line "" :: test ++ after
    /\ isContinuationTest (ComputeMinLength X child =? 0) (M node) (N node)
         (loop_iterationCount l) (loop_startingPos l) (loop_body l) (loop_endLoop l) test.
Proof.
  unfold emitLoopEnd. cbv zeta.
  run.
  set (stA := set_out (out rm2 ++ [Line ""]) rm2).
  rewrite (bind_Ok _ _ _ _ _
             (returns_final _ stA (returns_transferSliceStaticPosToPos false))).
  set (stB := final (transferSliceStaticPosToPos false stA)).
  assert (HtopB : topLevelDoneLabel stB = "NoMatch").
  { destruct (returns_extends _ stA (returns_transferSliceStaticPosToPos false))
      as (_ & Ht & _).
    fold stB in Ht. rewrite Ht. exact Htop. }
  run.
  destruct (emitLoopCondition_spec (M node) (N node) (ComputeMinLength X child =? 0)
              (loop_iterationCount l) (loop_startingPos l) (loop_body l)
              (loop_endLoop l) stB)
    as (test & stC & EC & HoutC & _ & Htest);
    [now rewrite HtopB | now rewrite HtopB |].
  rewrite (bind_Ok _ _ _ _ _ EC).
  destruct (returns_emitLoopUnwind node (ComputeMinLength X child =? 0)
              (negb (String.eqb (doneLabel stB) (loop_iterationFailedLabel l))) l stC)
    as ([] & rm3 & E3 & (after & Hafter) & _).
  exists rm3, test, after.
  split; [exact E3|].
  split; [|exact Htest].
  rewrite Hafter, HoutC, <- app_assoc. reflexivity.
Qed.


(** ** The node describer *)

Lemma describeCapture_reads_tree (rm1 rm2 : Data) (capNum : Z) :
  Tree rm1 = Tree rm2 -> describeCapture X rm1 capNum = describeCapture X rm2 capNum.
Proof. intros H. unfold describeCapture. now rewrite H. Qed.

Lemma describeLoop_reads_analysis (rm1 rm2 : Data) (node : Node) :
  Analysis rm1 = Analysis rm2 -> describeLoop rm1 node = describeLoop rm2 node.
Proof. intros H. unfold describeLoop. now rewrite H. Qed.

(** C9. [describeNode] returns from every state and leaves it as it was; the
    text it returns depends on the node, the tree's capture tables and the
    analysis only: from two states that agree on these, whatever else they
    hold, it returns the same string. *)
Theorem describeNode_pure (node : Node) (rm1 rm2 : Data)
    (Htree : Tree rm1 = Tree rm2)
    (Hanalysis : Analysis rm1 = Analysis rm2) :
  exists description : string,
    describeNode X node rm1 = Ok description rm1
    /\ describeNode X node rm2 = Ok description rm2.
Proof.
  unfold describeNode, bind, get, ret.
  eexists. split; [reflexivity|].
  f_equal.
  rewrite Hanalysis.
  rewrite !(describeCapture_reads_tree rm1 rm2) by assumption.
  rewrite !(describeLoop_reads_analysis rm1 rm2) by assumption.
  reflexivity.
Qed.

(** ** The slice position tracker *)

(** C10. [transferSliceStaticPosToPos] always returns, leaving
    [sliceStaticPos] at 0 (the offset is never negative).  With a zero offset
    and no forced reload it writes nothing and leaves the state as it is, so a
    second call right after any call is a no-op; with a positive offset it
    writes exactly the advance of [pos] followed by the reslice of the input. *)
Theorem transferSliceStaticPosToPos_spec (rm : Data) (forceSliceReload : bool)
    (Hoffset : 0 <= sliceStaticPos rm) :
  exists rm',
    transferSliceStaticPosToPos forceSliceReload rm = Ok tt rm'
    /\ sliceStaticPos rm' = 0
    /\ (sliceStaticPos rm = 0 -> forceSliceReload = false -> rm' = rm)
    /\ transferSliceStaticPosToPos false rm' = Ok tt rm'
    /\ (0 < sliceStaticPos rm ->
        out rm' = out rm ++ [Line (advancePos (sliceStaticPos rm));
                             Line (sprint [sliceSpan rm; " = r.Runtext[pos:]"])]).
Proof.
  unfold transferSliceStaticPosToPos, bind, get.
  destruct (sliceStaticPos rm >? 0) eqn:Hpos.
  - apply Z.gtb_lt in Hpos.
    assert (Hne0 : (sliceStaticPos rm =? 0) = false) by (apply Z.eqb_neq; lia).
    unfold emitAddStmt, advancePos. rewrite Hne0.
    destruct (sliceStaticPos rm =? 1) eqn:H1.
    + eexists. split; [reflexivity|]. cbn.
      repeat split; try reflexivity; try lia.
      intros _. rewrite <- app_assoc. reflexivity.
    + assert (Hm1 : (sliceStaticPos rm =? -1) = false) by (apply Z.eqb_neq; lia).
      assert (Hgt : (sliceStaticPos rm >? 0) = true) by (apply Z.gtb_lt; lia).
      rewrite Hm1, Hgt.
      eexists. split; [reflexivity|]. cbn.
      repeat split; try reflexivity; try lia.
      intros _. rewrite <- app_assoc. reflexivity.
  - assert (Hzero : sliceStaticPos rm = 0).
    { destruct (Z.gtb_spec (sliceStaticPos rm) 0); [discriminate | lia]. }
    destruct forceSliceReload.
    + eexists. split; [reflexivity|]. cbn.
      rewrite Hzero. cbn.
      repeat split; try reflexivity; try lia; try discriminate.
    + exists rm. rewrite Hpos.
      repeat split; try assumption; try reflexivity; try lia.
Qed.

(** ** The top-level procedure *)

(** C7. When the root's first child is [Empty], [emitExecute] writes, inside
    the function's braces, a capture of group 0 from [pos] to [pos] and the
    success return, and nothing else; when it is [Nothing], a bare return.
    The result is the same whatever the dispatcher is, even one that always
    panics: the dispatcher is not called.  [emitExecute fuel] is
    [emitExecuteWith] at the dispatcher [emitExecuteNode fuel]. *)
Theorem emitExecute_degenerate_shortcuts
    (emitNode : Node -> option Node -> bool -> Emit CharSet unit)
    (rm : Data) (root : Node) (others : list Node)
    (Hroot : Children (Root (Tree rm)) = root :: others) :
  (T root = NtEmpty ->
   emitExecuteWith X emitNode rm =
   Ok tt (set_out (out rm ++ [executeHeader rm;
                              Line "// The pattern matches the empty string";
                              Line "var pos = r.Runtextpos";
                              Line "r.Capture(0, pos, pos)";
                              Line "return nil";
                              Line (sprint ["}"; nl])]) rm))
  /\ (T root = NtNothing ->
      emitExecuteWith X emitNode rm =
      Ok tt (set_out (out rm ++ [executeHeader rm;
                                 Line "return nil";
                                 Line (sprint ["}"; nl])]) rm)).
Proof.
  split; intros Hkind;
    unfold emitExecuteWith, childAt, index, bind, get, writeLine, modify;
    cbn; rewrite Hroot; cbn; rewrite Hkind; cbn;
    unfold executeHeader; repeat rewrite <- app_assoc; reflexivity.
Qed.

End Properties.

(** ** Where the emitted code departs from the specification *)

Section Defects.

Import Sample.

(** C3. For the balancing group [(?<1-2>a)] the pre-check written before the
    child's code is [if r.IsMatched(2) { goto doneLabel }]: the jump to
    [doneLabel] is taken when group 2 is matched, and the child's code is
    entered when it is not. *)
Theorem balancing_capture_jumps_when_matched :
  emitExecuteCapture (emitExecuteNode externals 4) balancingGroup None
    (within "AlternationBranch" true (analysis [] [] [] true))
  = Ok tt
      (set_additionalDeclarations ["capture_starting_pos := 0"]
        (set_usedNames [("NoMatch", 1); ("capture_starting_pos", 1)]
          (set_usedLabels ["AlternationBranch"; "AlternationBranch"]
            (set_out
               [Line "capture_starting_pos = pos";
                Line "";
                Line "if r.IsMatched(2) {";
                Line "goto AlternationBranch";
                Line (sprint ["}"; nl]);
                Line "// Node: One";
                Line "// Match 'a'.";
                Line "if len(slice) == 0 || slice[0] != 'a' {";
                Line "goto AlternationBranch";
                Line "}";
                Line "";
                Line "pos++";
                Line "slice = r.Runtext[pos:]";
                Line "r.TransferCapture(1, 2, capture_starting_pos, pos)"]
               (within "AlternationBranch" true (analysis [] [] [] true)))))).
Proof. vm_compute. reflexivity. Qed.

(** C2. A loop inside an outer loop, with both a starting position and a
    starting stack position, pushes
    [(loop_starting_pos, startingStackpos, loop_iteration)] at its end label,
    and its backtracking section pops [loop_iteration], then
    [loop_starting_pos] twice: [startingStackpos] is not restored. *)
Theorem loop_backtrack_pops_starting_pos_twice :
  exists before rm,
    emitExecuteLoop externals (emitExecuteNode externals 6) loopOfOptional
      (within "AlternationBranch" false (analysis [] [40] [] false)) = Ok tt rm
    /\ out rm =
       before ++
       [Line "LoopEnd:";
        Line "";
        Line "r.StackPush3(loop_starting_pos, startingStackpos, loop_iteration)";
        Line "goto LoopSkipBacktrack";
        Line "";
        Line "LoopBacktrack1:";
        Line "loop_iteration = r.StackPop()";
        Line "loop_starting_pos = r.StackPop()";
        Line "loop_starting_pos = r.StackPop()";
        Line "goto LoopBacktrack";
        Line "";
        Line "LoopSkipBacktrack:"].
Proof.
  eexists _, _. split; [vm_compute; reflexivity|].
  cbv [out].
  match goal with
  | |- ?l = ?b ++ _ =>
      let n := eval vm_compute in (List.length l - 12)%nat in unify b (firstn n l)
  end.
  vm_compute. reflexivity.
Qed.

(** C5. For the right-to-left string [ab] the guard written first is
    [pos - 2 >= r.Runtextlen], and the descending loop compares
    [r.Runtext[pos]] with the literal at index [2 - i], for [i] from 0 to 1:
    indexes 2 and 1, not 1 and 0. *)
Theorem rtl_multi_compares_from_index_length :
  exists rm,
    emitExecuteNode externals 2 multiRightToLeft None true
      (within "AlternationBranch" false (analysis [] [] [] false)) = Ok tt rm
    /\ out rm =
       [Line "// Node: Multi";
        Line (sprint ["// Match the string "; dq; "ab"; dq; " right-to-left."]);
        Line "if pos - 2 >= r.Runtextlen {";
        Line "goto AlternationBranch";
        Line (sprint ["}"; nl]);
        Line (sprint ["for i:=0; i < 2; i++ {"; nlt 6;
                      "pos--"; nlt 6;
                      "if r.Runtext[pos] != []rune("; dq; "ab"; dq; ")[2 - i] {"]);
        Line "goto AlternationBranch";
        Line (sprint ["}"; nl; "}"])].
Proof. eexists. split; vm_compute; reflexivity. Qed.

(** C6. For the end-of-line anchor the condition written is
    [pos < r.Runtextend && r.Runtext[pos] != '\n')], with a closing
    parenthesis that nothing opens; and with a static offset,
    [3 < len(slice)) && slice[3] != '\n')], with two. *)
Theorem eol_anchor_condition_is_unbalanced :
  exists rm rm',
    emitExecuteAnchors endOfLine
      (within "AlternationBranch" false (analysis [] [] [] false)) = Ok tt rm
    /\ out rm = [Line "if pos < r.Runtextend && r.Runtext[pos] != '\n') {";
                 Line "goto AlternationBranch";
                 Line "}"]
    /\ parensBalanced "if pos < r.Runtextend && r.Runtext[pos] != '\n') {" = false
    /\ emitExecuteAnchors endOfLine
         (set_sliceStaticPos 3
            (within "AlternationBranch" false (analysis [] [] [] false))) = Ok tt rm'
    /\ out rm' = [Line "if 3 < len(slice)) && slice[3] != '\n') {";
                  Line "goto AlternationBranch";
                  Line "}"]
    /\ parensBalanced "if 3 < len(slice)) && slice[3] != '\n') {" = false.
Proof. do 2 eexists. repeat split; vm_compute; reflexivity. Qed.

End Defects.

(** * The discipline of the whole emitter *)

Section Discipline.

Context {CharSet : Type}.
Variable X : Externals CharSet.

Local Abbreviation Data := (regexpData CharSet).
Local Abbreviation Node := (RegexNode CharSet).

Variable strict : bool.
Variable base : list emission.
Hypothesis Hrenders : Renders X strict.

Local Abbreviation allowed := (allowed strict).
Local Abbreviation disciplined := (@disciplined CharSet strict base).
Local Abbreviation keeps := (@keeps CharSet strict base).
Local Abbreviation allowedOption := (allowedOption strict).
Local Abbreviation allowedState := (allowedState strict).
Local Abbreviation allowedLocals := (allowedLocals strict).
Local Abbreviation captureLocal := (captureLocal strict).

(** ** Pieces of text *)

Lemma comparable_nil_r (w : string) : comparable w "" = true.
Proof. destruct w; reflexivity. Qed.

Lemma comparable_app (w t b : string) :
  t <> "" -> comparable w (t ++ b) = true -> comparable w t = true.
Proof.
  revert t. induction w as [|a w IH]; intros [|c t] Hne H; try reflexivity.
  cbn in *. apply andb_prop in H as [Hc Ht]. rewrite Hc. cbn.
  destruct t as [|c' t]; [apply comparable_nil_r|].
  apply IH; [discriminate | exact Ht].
Qed.

Lemma spellsNoPart_app (w a b : string) :
  spellsNoPart w a = true -> spellsNoPart w b = true -> spellsNoPart w (a ++ b) = true.
Proof.
  intros Ha Hb. induction a as [|c a IH]; [exact Hb|].
  cbn [append spellsNoPart] in *. apply andb_prop in Ha as [Hc Ha].
  apply andb_true_intro. split; [|now apply IH].
  apply negb_true_iff. apply negb_true_iff in Hc.
  destruct (comparable w (String c (a ++ b))) eqn:E; [|reflexivity].
  rewrite <- Hc. symmetry.
  apply (comparable_app w (String c a) b); [discriminate | exact E].
Qed.

Lemma spellsNoPart_occurs (w s : string) :
  w <> "" -> spellsNoPart w s = true -> occurs w s = false.
Proof.
  intros Hw. induction s as [|c s IH]; intros H.
  - destruct w; [now contradiction Hw | reflexivity].
  - cbn [spellsNoPart] in H. apply andb_prop in H as [Hc Hs].
    cbn [occurs]. rewrite (IH Hs), orb_false_r.
    apply negb_true_iff in Hc.
    destruct (startsWith w (String c s)) eqn:E; [|reflexivity].
    rewrite <- Hc. clear - E. revert E. generalize (String c s). clear.
    induction w as [|a w IH]; intros [|b t] E; try reflexivity; try discriminate.
    cbn in *. apply andb_prop in E as [-> E]. cbn. now apply IH.
Qed.

Lemma captureFree_app (a b : string) :
  captureFree a = true -> captureFree b = true -> captureFree (a ++ b) = true.
Proof.
  unfold captureFree. intros Ha Hb.
  apply andb_prop in Ha as [? ?]. apply andb_prop in Hb as [? ?].
  apply andb_true_intro. split; now apply spellsNoPart_app.
Qed.

Lemma numeralChar_spells_nothing (c : ascii) (s : string) :
  isNumeralChar c = true ->
  comparable "UncaptureUntil" (String c s) = false
  /\ comparable "Crawlpos" (String c s) = false.
Proof.
  intros H.
  assert (Ascii.eqb "U" c = false /\ Ascii.eqb "C" c = false) as [HU HC].
  { destruct c as [[] [] [] [] [] [] [] []]; cbv in H |- *;
      first [discriminate | split; reflexivity]. }
  cbn [comparable]. now rewrite HU, HC.
Qed.

Lemma captureFree_numeral (s : string) : numeral s = true -> captureFree s = true.
Proof.
  induction s as [|c s IH]; [reflexivity|].
  cbn [numeral]. intros H. apply andb_prop in H as [Hc Hs].
  specialize (IH Hs). unfold captureFree in *. apply andb_prop in IH as [H1 H2].
  destruct (numeralChar_spells_nothing c s Hc) as [EU EC].
  cbn [spellsNoPart]. now rewrite EU, EC, H1, H2.
Qed.

Lemma allowed_literal (s : string) : captureFree s = true -> allowed s.
Proof. intros H _. exact H. Qed.

Lemma allowed_loose (s : string) : strict = false -> allowed s.
Proof. intros H H'. congruence. Qed.

Lemma allowed_app (a b : string) : allowed a -> allowed b -> allowed (a ++ b).
Proof. intros Ha Hb Hs. apply captureFree_app; [now apply Ha | now apply Hb]. Qed.

Lemma allowed_sprint (parts : list string) : Forall allowed parts -> allowed (sprint parts).
Proof.
  induction 1 as [|a l Ha Hl IH]; [now apply allowed_literal|].
  rewrite sprint_cons. now apply allowed_app.
Qed.

Lemma allowed_itoa (z : Z) : allowed (itoa z).
Proof. apply allowed_literal, captureFree_numeral, numeral_itoa. Qed.

Lemma allowed_Join (args : list string) (sep : string) :
  Forall allowed args -> allowed sep -> allowed (Join args sep).
Proof.
  intros Hargs Hsep. unfold Join.
  induction Hargs as [|a l Ha Hl IH]; [now apply allowed_literal|].
  destruct l as [|b l]; [exact Ha|].
  cbn [String.concat]. apply allowed_app; [exact Ha|].
  apply allowed_app; [exact Hsep | exact IH].
Qed.

Lemma allowed_nameFor (name : string) (count : Z) :
  allowed name -> allowed (nameFor name count).
Proof.
  intros H. unfold nameFor. destruct (count =? 0); [exact H|].
  apply allowed_sprint. repeat constructor; [exact H | apply allowed_itoa].
Qed.

(** ** States *)

Lemma disciplined_loose (rm : Data) :
  disciplined rm -> expressionHasCaptures rm = true -> strict = false.
Proof.
  intros (H & _) E. destruct strict; [|reflexivity].
  rewrite (H eq_refl) in E. discriminate.
Qed.

Lemma disciplined_doneLabel (rm : Data) : disciplined rm -> allowed (doneLabel rm).
Proof. now intros (_ & H & _). Qed.

Lemma disciplined_sliceSpan (rm : Data) : disciplined rm -> allowed (sliceSpan rm).
Proof. now intros (_ & _ & H & _). Qed.

Lemma disciplined_Caplist (rm : Data) : disciplined rm -> Forall allowed (Caplist (Tree rm)).
Proof. now intros (_ & _ & _ & _ & H & _). Qed.

(** A step that adds [added] to the output and leaves alone what [extends]
    asks to leave alone. *)
Lemma disciplined_step (rm rm' : Data) (added : list emission) :
  disciplined rm ->
  out rm' = out rm ++ added ->
  Forall (fun e => allowed (text e)) added ->
  allowed (doneLabel rm') ->
  Forall allowed (additionalDeclarations rm') ->
  topLevelDoneLabel rm' = topLevelDoneLabel rm ->
  expressionHasCaptures rm' = expressionHasCaptures rm ->
  sliceSpan rm' = sliceSpan rm ->
  Analysis rm' = Analysis rm ->
  Tree rm' = Tree rm ->
  GeneratedName rm' = GeneratedName rm ->
  rmOptions rm' = rmOptions rm ->
  disciplined rm' /\ extends rm rm'.
Proof.
  intros (Hc & Hd & Hs & Ha & Hl & w & Hw & Hf) Hout Hadded Hdone Hdecl Et Ec Es Ea Etree Eg Eo.
  split.
  - red. rewrite Ec, Es, Etree.
    repeat split; try assumption.
    exists (w ++ added). split.
    + now rewrite Hout, Hw, app_assoc.
    + apply Forall_app. now split.
  - unfold extends. repeat split; try assumption. now exists added.
Qed.

(** ** The monad *)

Lemma keeps_ret {A} (Q : A -> Prop) (a : A) : Q a -> keeps Q (ret a).
Proof. intros Ha rm Hrm. cbn. split; [exact Hrm | split; [apply extends_refl | exact Ha]]. Qed.

Lemma keeps_panic {A} (Q : A -> Prop) : keeps Q (panic : Emit CharSet A).
Proof. intros rm Hrm. cbn. split; [exact Hrm | apply extends_refl]. Qed.

Lemma keeps_outOfFuel {A} (Q : A -> Prop) : keeps Q (outOfFuel : Emit CharSet A).
Proof. intros rm Hrm. cbn. split; [exact Hrm | apply extends_refl]. Qed.

Lemma keeps_bind {A B} (Q1 : A -> Prop) (Q : B -> Prop)
    (m : Emit CharSet A) (k : A -> Emit CharSet B) :
  keeps Q1 m -> (forall a, Q1 a -> keeps Q (k a)) -> keeps Q (bind m k).
Proof.
  intros Hm Hk rm Hrm. unfold bind.
  specialize (Hm rm Hrm). destruct (m rm) as [a rm1|why rm1].
  - destruct Hm as (H1 & X1 & Ha).
    specialize (Hk a Ha rm1 H1). destruct (k a rm1) as [b rm2|why rm2].
    + destruct Hk as (H2 & X2 & Hb). split; [assumption|]. split; [|assumption].
      eapply extends_trans; eassumption.
    + destruct Hk as (H2 & X2). split; [assumption|].
      eapply extends_trans; eassumption.
  - exact Hm.
Qed.

Lemma keeps_get_bind {B} (Q : B -> Prop) (k : Data -> Emit CharSet B) :
  (forall rm, disciplined rm -> keeps Q (k rm)) -> keeps Q (bind get k).
Proof. intros Hk rm Hrm. unfold bind, get. now apply Hk. Qed.

Lemma keeps_weaken {A} (Q Q' : A -> Prop) (m : Emit CharSet A) :
  keeps Q m -> (forall a, Q a -> Q' a) -> keeps Q' m.
Proof.
  intros Hm HQ rm Hrm. specialize (Hm rm Hrm).
  destruct (m rm); [|exact Hm]. destruct Hm as (? & ? & ?). auto.
Qed.

Lemma keeps_modify (f : Data -> Data) :
  (forall rm, disciplined rm -> disciplined (f rm) /\ extends rm (f rm)) ->
  keeps (fun _ => True) (modify f).
Proof. intros Hf rm Hrm. cbn. destruct (Hf rm Hrm). auto. Qed.

Ltac step_same rm H :=
  apply (disciplined_step rm _ [] H);
  [ cbn; now rewrite app_nil_r | constructor | .. ];
  try reflexivity; try exact (disciplined_doneLabel _ H);
  try (destruct H as (_ & _ & _ & Hdecl & _); exact Hdecl).

Lemma keeps_writeLine (s : string) : allowed s -> keeps (fun _ => True) (writeLine s).
Proof.
  intros Hs. apply keeps_modify. intros rm H.
  apply (disciplined_step rm _ [Line s] H); try reflexivity.
  - now repeat constructor.
  - exact (disciplined_doneLabel _ H).
  - now destruct H as (_ & _ & _ & Hdecl & _).
Qed.

Lemma keeps_write (s : string) : allowed s -> keeps (fun _ => True) (write s).
Proof.
  intros Hs. apply keeps_modify. intros rm H.
  apply (disciplined_step rm _ [Frag s] H); try reflexivity.
  - now repeat constructor.
  - exact (disciplined_doneLabel _ H).
  - now destruct H as (_ & _ & _ & Hdecl & _).
Qed.

Lemma keeps_set_sliceStaticPos (f : Data -> Z) :
  keeps (fun _ => True) (modify (fun rm : Data => set_sliceStaticPos (f rm) rm)).
Proof. apply keeps_modify. intros rm H. step_same rm H. Qed.

Lemma keeps_set_usedLabels (f : Data -> list string) :
  keeps (fun _ => True) (modify (fun rm : Data => set_usedLabels (f rm) rm)).
Proof. apply keeps_modify. intros rm H. step_same rm H. Qed.

Lemma keeps_set_emittedLabels (f : Data -> list string) :
  keeps (fun _ => True) (modify (fun rm : Data => set_emittedLabels (f rm) rm)).
Proof. apply keeps_modify. intros rm H. step_same rm H. Qed.

Lemma keeps_set_doneLabel (v : string) :
  allowed v -> keeps (fun _ => True) (modify (set_doneLabel v : Data -> Data)).
Proof.
  intros Hv. apply keeps_modify. intros rm H.
  apply (disciplined_step rm _ [] H); try reflexivity.
  - cbn. now rewrite app_nil_r.
  - constructor.
  - exact Hv.
  - now destruct H as (_ & _ & _ & Hdecl & _).
Qed.

Lemma keeps_appendDeclaration (l : string) :
  allowed l -> keeps (fun _ => True) (appendDeclaration l : Emit CharSet unit).
Proof.
  intros Hl. apply keeps_modify. intros rm H.
  apply (disciplined_step rm _ [] H); try reflexivity.
  - cbn. now rewrite app_nil_r.
  - constructor.
  - exact (disciplined_doneLabel _ H).
  - cbn. apply Forall_app. split; [now destruct H as (_ & _ & _ & Hdecl & _)|].
    now repeat constructor.
Qed.

Lemma keeps_reserveName (name : string) :
  allowed name -> keeps allowed (reserveName name : Emit CharSet string).
Proof.
  intros Hn rm H. unfold reserveName.
  assert (S : disciplined (set_usedNames (bumpName name (usedNames rm)) rm)
              /\ extends rm (set_usedNames (bumpName name (usedNames rm)) rm))
    by step_same rm H.
  destruct S. split; [assumption|]. split; [assumption|]. now apply allowed_nameFor.
Qed.

Lemma captureLocal_loose (s : string) :
  captureLocal s -> nonEmpty s = true -> strict = false.
Proof.
  intros [_ H] E. apply H. unfold nonEmpty in E. now apply negb_true_iff in E.
Qed.

(** ** Stepping through an emitter *)

Ltac learn H :=
  pose proof (disciplined_doneLabel _ H);
  pose proof (disciplined_sliceSpan _ H).

(** A branch taken only when the expression has captures is not a strict one. *)
Ltac loosen :=
  try match goal with
      | Hrm : disciplined ?rm, E : expressionHasCaptures ?rm = true |- _ =>
          lazymatch goal with
          | _ : strict = false |- _ => fail
          | _ => pose proof (disciplined_loose rm Hrm E)
          end
      | Hrm : disciplined ?rm, E : expressionHasCaptures ?rm && _ = true |- _ =>
          lazymatch goal with
          | _ : strict = false |- _ => fail
          | _ => pose proof (disciplined_loose rm Hrm (proj1 (andb_prop _ _ E)))
          end
      | H : captureLocal ?s, E : nonEmpty ?s = true |- _ =>
          lazymatch goal with
          | _ : strict = false |- _ => fail
          | _ => pose proof (captureLocal_loose s H E)
          end
      end.

Ltac allowed_hook := fail.

(** Text written out in the emitter's source. *)
Ltac is_written_out s :=
  lazymatch s with
  | EmptyString => idtac
  | String _ ?rest => is_written_out rest
  | nl => idtac
  | tab => idtac
  | nlt _ => idtac
  end.

Ltac allowed_solve :=
  lazymatch goal with
  | H : strict = false |- allowed _ => exact (allowed_loose _ H)
  | |- allowed (sprint _) =>
      apply allowed_sprint; repeat first [apply Forall_nil | apply Forall_cons]; allowed_solve
  | |- allowed (_ ++ _)%string => apply allowed_app; allowed_solve
  | |- allowed (itoa _) => apply allowed_itoa
  | |- allowed (validateStackCookieWithAdditionAndReturnPoppedStack _) =>
      apply allowed_literal; reflexivity
  | |- allowed (nameFor _ _) => apply allowed_nameFor; allowed_solve
  | |- allowed (Join _ _) =>
      apply allowed_Join; [repeat first [apply Forall_nil | apply Forall_cons]|]; allowed_solve
  | |- allowed (if ?b then _ else _) => destruct b; allowed_solve
  | |- allowed (match ?o with Some _ => _ | None => _ end) => destruct o; allowed_solve
  | |- allowed (fmt_q _ _) => apply (renders_fmt_q _ _ Hrenders)
  | |- allowed (Description _ _) => apply (renders_Description _ _ Hrenders)
  | |- allowed (SetString _ _) => apply (renders_SetString _ _ Hrenders)
  | |- allowed (getRuneSliceLiteral _ _) => apply (renders_getRuneSliceLiteral _ _ Hrenders)
  | |- allowed (getRuneLiteralParams _ _) => apply (renders_getRuneLiteralParams _ _ Hrenders)
  | |- allowed (string_of_runes _ _) => apply (renders_string_of_runes _ _ Hrenders)
  | |- allowed (string_of_int _ _) => apply (renders_string_of_int _ _ Hrenders)
  | |- allowed (fmt_NodeType _ _) => apply (renders_fmt_NodeType _ _ Hrenders)
  | |- allowed (emitMatchCharacterClass _ _ _ _) =>
      apply (renders_emitMatchCharacterClass _ _ Hrenders); allowed_solve
  | |- allowed (fmt_gosyntax _ _) => apply (renders_fmt_gosyntax _ _ Hrenders); allowed_solve
  | |- allowed (fmt_s_pointer _ _) => apply (renders_fmt_s_pointer _ _ Hrenders); allowed_solve
  | |- allowed ?s =>
      first [ assumption
            | match goal with
              | H : allowedState (_, Some s, _) |- _ => exact (H s eq_refl)
              | H : allowedOption (Some s) |- _ => exact (H s eq_refl)
              | H : allowedOption ?o, E : ?o = Some s |- _ => exact (H s E)
              | H : allowedState (_, ?o, _), E : ?o = Some s |- _ => exact (H s E)
              | H : captureLocal s |- _ => exact (proj1 H)
              end
            | is_written_out s; apply allowed_literal; vm_compute; reflexivity
            | allowed_hook
            | idtac ]
  | |- allowedOption None => intros ? [=]
  | |- allowedOption (Some _) => intros ? [= <-]; allowed_solve
  | |- allowedState (_, _, _) => red; cbn [fst snd]; allowed_solve
  | |- captureLocal _ =>
      split; [allowed_solve | first [intros _; assumption | discriminate]]
  | |- allowedLocals _ =>
      red;
      cbn [loop_startingStackpos loop_originalDoneLabel loop_body loop_endLoop
           loop_iterationCount loop_startingPos loop_iterationFailedLabel];
      repeat split; allowed_solve
  | |- Forall allowed [] => constructor
  | |- Forall allowed (_ :: _) => constructor; allowed_solve
  | |- _ => try assumption
  end.

Ltac keeps_hook := fail.

Ltac keeps_step :=
  lazymatch goal with
  | |- keeps _ (bind get _) =>
      apply keeps_get_bind;
      let rm := fresh "rm" in let H := fresh "Hrm" in intros rm H; learn H
  | |- keeps _ (bind _ _) =>
      eapply keeps_bind;
      [ | let a := fresh "a" in let H := fresh "Ha" in intros a H ]
  | |- keeps ?Q (ret ?a) =>
      apply keeps_ret;
      try (is_evar Q;
           lazymatch type of a with
           | string => unify Q allowed
           | unit => unify Q (fun _ : unit => True)
           | option string => unify Q allowedOption
           | concatState => unify Q allowedState
           | (Z * option string * bool)%type => unify Q allowedState
           | list string => unify Q (Forall allowed)
           end);
      cbv beta; first [exact I | allowed_solve; fail | allowed_solve]
  | |- keeps _ panic => apply keeps_panic
  | |- keeps _ outOfFuel => apply keeps_outOfFuel
  | |- keeps _ (when _ _) => unfold when
  | |- keeps _ (emitStackCookieValidate _) => unfold emitStackCookieValidate
  | |- keeps _ emitTimeoutCheckIfNeeded => unfold emitTimeoutCheckIfNeeded
  | |- keeps ?Q (if ?b then ?m1 else _) =>
      try (is_evar Q;
           lazymatch goal with |- context [expressionHasCaptures] => idtac end;
           lazymatch type of m1 with Emit _ string => unify Q captureLocal end);
      destruct b eqn:?; loosen
  | |- keeps _ (match ?o with Some _ => _ | None => _ end) => destruct o eqn:?
  | |- keeps _ (let '(_, _) := ?p in _) => destruct p
  | |- keeps _ (match ?l with [] => _ | _ :: _ => _ end) => destruct l
  | |- keeps _ (writeLine _) => apply keeps_writeLine; allowed_solve
  | |- keeps _ (write _) => apply keeps_write; allowed_solve
  | |- keeps _ (reserveName _) => apply keeps_reserveName; allowed_solve
  | |- keeps _ (appendDeclaration _) => apply keeps_appendDeclaration; allowed_solve
  | |- keeps _ (addLocalDec _) => apply keeps_appendDeclaration; allowed_solve
  | |- keeps _ (modify (set_doneLabel _)) => apply keeps_set_doneLabel; allowed_solve
  | |- keeps _ (modify (set_sliceStaticPos ?v)) =>
      apply (keeps_set_sliceStaticPos (fun _ => v))
  | |- keeps _ (modify (fun rm => set_sliceStaticPos _ rm)) =>
      apply (keeps_set_sliceStaticPos (fun _ => _))
  | |- keeps _ (modify (fun rm => set_usedLabels _ rm)) =>
      apply (keeps_set_usedLabels (fun _ => _))
  | |- keeps _ (modify (fun rm => set_emittedLabels _ rm)) =>
      apply (keeps_set_emittedLabels (fun _ => _))
  | |- keeps _ _ =>
      first [ assumption
            | keeps_hook
            | match goal with
              | IH : forall _, _ |- _ => apply IH; first [assumption | allowed_solve]
              end ]
  end.

Ltac keeps_auto := repeat keeps_step.

(** ** Gotos, stack operations and slice bookkeeping *)

Lemma keeps_emitMarkLabel (label : string) :
  allowed label -> keeps (fun _ => True) (emitMarkLabel label).
Proof. intros Hl. unfold emitMarkLabel. keeps_auto. Qed.

Lemma keeps_emitUncaptureUntil (capturepos : string) :
  strict = false -> keeps (fun _ => True) (emitUncaptureUntil capturepos).
Proof. intros Hs. unfold emitUncaptureUntil. keeps_auto. Qed.

Lemma keeps_emitExecuteGoto (label : string) :
  allowed label -> keeps (fun _ => True) (emitExecuteGoto label).
Proof.
  intros Hl. unfold emitExecuteGoto. keeps_auto.
  now apply keeps_emitUncaptureUntil.
Qed.

Lemma keeps_emitCaseGoto (clause label : string) :
  allowed clause -> allowed label -> keeps (fun _ => True) (emitCaseGoto clause label).
Proof.
  intros Hc Hl. unfold emitCaseGoto. keeps_auto. now apply keeps_emitExecuteGoto.
Qed.

Lemma keeps_emitStackPop (cookie : Z) (args : list string) :
  Forall allowed args -> keeps (fun _ => True) (emitStackPop cookie args).
Proof. induction 1; cbn [emitStackPop]; keeps_auto. Qed.

Lemma keeps_emitStackPush (cookie : Z) (args : list string) :
  Forall allowed args -> keeps (fun _ => True) (emitStackPush cookie args).
Proof.
  intros H. unfold emitStackPush.
  destruct H as [|a0 l0 H0 [|a1 l1 H1 [|a2 l2 H2 [|a3 l3 H3 H4]]]]; keeps_auto.
Qed.

Lemma allowed_sum (constant : Z) (local : option string) :
  (forall l, local = Some l -> allowed l) -> allowed (sum X constant local).
Proof.
  intros H. unfold sum. destruct local as [l|]; [|apply allowed_itoa].
  specialize (H l eq_refl). allowed_solve.
Qed.

Lemma allowed_spanLengthCheck (rm : Data) (requiredLength : Z) (dyn : option string) :
  allowed (sliceSpan rm) -> (forall l, dyn = Some l -> allowed l) ->
  allowed (spanLengthCheck X rm requiredLength dyn).
Proof.
  intros Hs Hd. unfold spanLengthCheck.
  destruct (isNil dyn && _); allowed_solve. now apply allowed_sum.
Qed.

Lemma allowed_sourceSpanAt (rm : Data) : allowed (sliceSpan rm) -> allowed (sourceSpanAt rm).
Proof. intros Hs. unfold sourceSpanAt. allowed_solve. Qed.

Lemma allowed_countIsLessThan (count : string) (bound : Z) :
  allowed count -> allowed (countIsLessThan count bound).
Proof. intros Hc. unfold countIsLessThan. allowed_solve. Qed.

Lemma keeps_emitSpanLengthCheck (requiredLength : Z) (dyn : option string) :
  (forall l, dyn = Some l -> allowed l) ->
  keeps (fun _ => True) (emitSpanLengthCheck X requiredLength dyn).
Proof.
  intros Hd. unfold emitSpanLengthCheck. keeps_auto.
  - now apply allowed_spanLengthCheck.
  - now apply keeps_emitExecuteGoto.
Qed.

Lemma keeps_emitAddStmt (variable : string) (value : Z) :
  allowed variable -> keeps (fun _ => True) (emitAddStmt variable value).
Proof. intros Hv. unfold emitAddStmt. keeps_auto. Qed.

Lemma keeps_sliceInputSpan (declare : bool) : keeps (fun _ => True) (sliceInputSpan declare).
Proof. unfold sliceInputSpan. keeps_auto. Qed.

Lemma keeps_transferSliceStaticPosToPos (force : bool) :
  keeps (fun _ => True) (transferSliceStaticPosToPos force).
Proof.
  unfold transferSliceStaticPosToPos. keeps_auto;
    first [apply keeps_sliceInputSpan | apply keeps_emitAddStmt; allowed_solve].
Qed.

Ltac keeps_hook ::=
  first
    [ apply keeps_emitMarkLabel; allowed_solve
    | apply keeps_emitExecuteGoto; allowed_solve
    | apply keeps_emitCaseGoto; allowed_solve
    | apply keeps_emitStackPop; repeat first [apply Forall_nil | apply Forall_cons]; allowed_solve
    | apply keeps_emitStackPush; repeat first [apply Forall_nil | apply Forall_cons]; allowed_solve
    | apply keeps_emitAddStmt; allowed_solve
    | apply keeps_sliceInputSpan
    | apply keeps_transferSliceStaticPosToPos
    | apply keeps_emitSpanLengthCheck; try discriminate ].

Ltac allowed_hook ::=
  first
    [ apply allowed_countIsLessThan; allowed_solve
    | apply allowed_sourceSpanAt; allowed_solve
    | apply allowed_spanLengthCheck; [allowed_solve | first [assumption | discriminate]]
    | apply allowed_sum; first [assumption | discriminate] ].

(** ** Describing nodes *)

Lemma allowed_groupNameFromNumber (tree : RegexTree CharSet) (i : Z) :
  Forall allowed (Caplist tree) -> allowed (groupNameFromNumber tree i).
Proof.
  intros H. unfold groupNameFromNumber.
  destruct (len (Caplist tree) =? 0); [allowed_solve|].
  destruct (match Caps tree with Some m => lookupCaps i m | None => Some i end) as [i'|];
    [|allowed_solve].
  destruct ((i' >=? 0) && (i' <? len (Caplist tree))); [|allowed_solve].
  unfold index.
  destruct ((0 <=? i') && (i' <? len (Caplist tree))); [|allowed_solve].
  destruct (nth_error (Caplist tree) (Z.to_nat i')) as [name|] eqn:E; [|allowed_solve].
  rewrite Forall_forall in H. apply H. eapply nth_error_In. exact E.
Qed.

Lemma allowed_describeCapture (rm : Data) (capNum : Z) :
  Forall allowed (Caplist (Tree rm)) -> allowed (describeCapture X rm capNum).
Proof.
  intros H. unfold describeCapture.
  pose proof (allowed_groupNameFromNumber (Tree rm) capNum H).
  cbv zeta.
  repeat match goal with |- allowed (if ?b then _ else _) => destruct b end;
    allowed_solve.
Qed.

Lemma allowed_describeLoop (rm : Data) (node : Node) : allowed (describeLoop rm node).
Proof.
  unfold describeLoop.
  repeat match goal with
         | |- allowed (if ?b then _ else _) => destruct b
         | |- allowed (_ ++ _)%string => apply allowed_app
         end;
    allowed_solve.
Qed.

Lemma keeps_describeNode (node : Node) : keeps allowed (describeNode X node).
Proof.
  unfold describeNode. apply keeps_get_bind. intros rm Hrm.
  pose proof (disciplined_Caplist rm Hrm) as Hcaps.
  pose proof (fun c => allowed_describeCapture rm c Hcaps).
  pose proof (allowed_describeLoop rm).
  apply keeps_ret. unfold unknownNodeType.
  destruct (T node);
    repeat match goal with |- allowed (if ?b then _ else _) => destruct b end;
    allowed_solve; auto.
Qed.

(** ** Leaf emitters *)

Lemma keeps_childAt (node : Node) (i : Z) : keeps (fun _ => True) (childAt node i).
Proof.
  unfold childAt. destruct (index (Children node) i);
    [now apply keeps_ret | apply keeps_panic].
Qed.

Lemma keeps_emitExecuteMultiCharString (str : list rune) (a b c : bool) :
  keeps (fun _ => True) (emitExecuteMultiCharString X str a b c).
Proof. unfold emitExecuteMultiCharString. keeps_auto. Qed.

Lemma keeps_emitExecuteSingleChar (node : Node) (elc : bool) (offset : option string)
    (clauseOnly : bool) :
  (forall l, offset = Some l -> allowed l) ->
  keeps (fun _ => True) (emitExecuteSingleChar X node elc offset clauseOnly).
Proof.
  intros Ho. unfold emitExecuteSingleChar. keeps_auto;
    try (apply allowed_sum; assumption);
    try (apply allowed_spanLengthCheck; assumption).
Qed.

Lemma keeps_emitExecuteAtomicSingleCharZeroOrOne (node : Node) :
  keeps (fun _ => True) (emitExecuteAtomicSingleCharZeroOrOne X node).
Proof. unfold emitExecuteAtomicSingleCharZeroOrOne. keeps_auto. Qed.

Lemma keeps_emitExecuteAnchors (node : Node) :
  keeps (fun _ => True) (emitExecuteAnchors node).
Proof.
  unfold emitExecuteAnchors. apply keeps_get_bind. intros rm Hrm. learn Hrm.
  destruct (T node); keeps_auto.
Qed.

Lemma keeps_emitExecuteUpdateBumpalong (node : Node) :
  keeps (fun _ => True) (emitExecuteUpdateBumpalong node).
Proof. unfold emitExecuteUpdateBumpalong. keeps_auto. Qed.

(** ** Computed formats *)

Lemma verbFree_app (a b : string) :
  verbFree a = true -> verbFree b = true -> verbFree (a ++ b) = true.
Proof.
  intros Ha Hb. induction a as [|c a IH]; [exact Hb|].
  cbn in *. apply andb_prop in Ha as [Hc Ha]. now rewrite Hc, IH.
Qed.

Lemma verbFree_numeral (s : string) : numeral s = true -> verbFree s = true.
Proof.
  induction s as [|c s IH]; [reflexivity|].
  cbn [numeral verbFree]. intros H. apply andb_prop in H as [Hc Hs].
  rewrite (IH Hs), andb_true_r.
  destruct c as [[] [] [] [] [] [] [] []]; cbv in Hc |- *;
    first [reflexivity | discriminate].
Qed.

Lemma verbFree_nameFor (name : string) (count : Z) :
  verbFree name = true -> verbFree (nameFor name count) = true.
Proof.
  intros H. unfold nameFor. destruct (count =? 0); [exact H|].
  rewrite !sprint_cons, sprint_nil, append_nil_r.
  apply verbFree_app; [exact H | apply verbFree_numeral, numeral_itoa].
Qed.

(** A format written around a hole, filled. *)
Lemma allowed_filled (before after pre post arg : string) :
  verbFree before = true -> verbFree pre = true ->
  allowed before -> allowed after -> allowed pre -> allowed post -> allowed arg ->
  allowed (Sprintf1 X (before ++ (pre ++ "%s" ++ post) ++ after) arg).
Proof.
  intros Vb Vp Hb Ha Hpre Hpost Harg.
  replace (before ++ (pre ++ "%s" ++ post) ++ after)%string
    with ((before ++ pre) ++ "%s" ++ (post ++ after))%string.
  - apply (renders_Sprintf1 _ _ Hrenders); try assumption.
    + now apply verbFree_app.
    + now apply allowed_app.
    + now apply allowed_app.
  - rewrite !append_assoc. reflexivity.
Qed.

Lemma allowed_tryEmitExecuteIndexOf (node : Node) (pre post : string)
    (useLast negate : bool) (k : Z) (format arg : string) :
  verbFree pre = true -> allowed pre -> allowed post -> allowed arg ->
  tryEmitExecuteIndexOf X node (pre ++ "%s" ++ post) useLast negate = Some (k, format) ->
  allowed (Sprintf1 X format arg).
Proof.
  intros Vp Hpre Hpost Harg. unfold tryEmitExecuteIndexOf.
  assert (Hfill : forall (name : string) (after : list string),
             verbFree name = true -> allowed name -> Forall allowed after ->
             allowed (Sprintf1 X
                        (sprint ("helpers." :: (if useLast then "Last" else "") :: name
                                 :: (pre ++ "%s" ++ post)%string :: after)) arg)).
  { intros name after Vn Hn Hafter.
    replace (sprint ("helpers." :: (if useLast then "Last" else "") :: name
                     :: (pre ++ "%s" ++ post)%string :: after))
      with ((("helpers." ++ (if useLast then "Last" else "")) ++ name)
            ++ (pre ++ "%s" ++ post) ++ sprint after)%string
      by (rewrite !sprint_cons, !append_assoc; reflexivity).
    apply allowed_filled; try assumption.
    - destruct useLast; apply verbFree_app; try assumption; reflexivity.
    - destruct useLast; repeat apply allowed_app; try assumption;
        apply allowed_literal; reflexivity.
    - now apply allowed_sprint. }
  assert (Hset : forall l b, allowed (Sprintf1 X (emitIndexOfChars X l b (pre ++ "%s" ++ post)) arg)).
  { intros. now apply (renders_emitIndexOfChars _ _ Hrenders). }
  cbv zeta.
  repeat match goal with
         | |- (if ?b then _ else _) = _ -> _ => destruct b
         | |- match ?l with [] => _ | _ :: _ => _ end = _ -> _ => destruct l
         | |- (let '(_, _) := ?p in _) = _ -> _ => destruct p
         | |- Some _ = Some _ -> _ => intros [= <- <-]
         | |- None = Some _ -> _ => discriminate
         end;
    repeat match goal with
           | |- allowed (Sprintf1 _ (if ?b then _ else _) _) => destruct b
           end;
    first [ apply Hset
          | refine (Hfill _ _ _ _ _);
            [ reflexivity | apply allowed_literal; reflexivity
            | repeat first [apply Forall_nil | apply Forall_cons]; allowed_solve ] ].
Qed.

Lemma keeps_emitExecuteSingleCharAtomicLoop (node : Node) (elc : bool) :
  keeps (fun _ => True) (emitExecuteSingleCharAtomicLoop X node elc).
Proof.
  unfold emitExecuteSingleCharAtomicLoop, emitExecuteSingleCharRepeater.
  keeps_auto;
    try apply keeps_emitExecuteAtomicSingleCharZeroOrOne;
    try (eapply (allowed_tryEmitExecuteIndexOf node "" "");
         [reflexivity | apply allowed_literal; reflexivity
         | apply allowed_literal; reflexivity | | eassumption]; allowed_solve).
Qed.

(** ** Emitters that recurse into child nodes *)

Section Dispatch.

Variable emitNode : Node -> option Node -> bool -> Emit CharSet unit.
Hypothesis keeps_emitNode : forall n s b, keeps (fun _ => True) (emitNode n s b).

Ltac keeps_hook ::=
  first
    [ apply keeps_emitNode
    | apply keeps_childAt
    | apply keeps_describeNode
    | apply keeps_emitMarkLabel; allowed_solve
    | apply keeps_emitExecuteGoto; allowed_solve
    | apply keeps_emitCaseGoto; allowed_solve
    | apply keeps_emitStackPop; repeat first [apply Forall_nil | apply Forall_cons]; allowed_solve
    | apply keeps_emitStackPush; repeat first [apply Forall_nil | apply Forall_cons]; allowed_solve
    | apply keeps_emitAddStmt; allowed_solve
    | apply keeps_sliceInputSpan
    | apply keeps_transferSliceStaticPosToPos
    | apply keeps_emitSpanLengthCheck; try discriminate
    | apply keeps_emitExecuteMultiCharString
    | apply keeps_emitExecuteSingleChar; try discriminate
    | apply keeps_emitExecuteSingleCharAtomicLoop
    | apply keeps_emitExecuteAnchors
    | apply keeps_emitExecuteUpdateBumpalong
    | apply keeps_emitUncaptureUntil; assumption ].

Lemma keeps_emitExecuteAtomic (node : Node) (subsequent : option Node) :
  keeps (fun _ => True) (emitExecuteAtomic emitNode node subsequent).
Proof. unfold emitExecuteAtomic. keeps_auto. Qed.

Lemma keeps_writePrefix (wroteClauses : bool) (prev : option string) :
  allowedOption prev -> keeps (fun _ => True) (writePrefix wroteClauses prev).
Proof.
  intros Hp. unfold writePrefix. destruct wroteClauses; [|keeps_auto].
  destruct prev as [d|]; keeps_auto.
Qed.

Ltac keeps_more :=
  first [ apply keeps_emitExecuteAtomic
        | apply keeps_writePrefix; first [assumption | allowed_solve] ].

Ltac keeps_go := repeat first [keeps_step | keeps_more].

Lemma keeps_unrollSingleChar (child : Node) (todo : nat) (x : Z) (wrote : bool)
    (prev : option string) :
  allowedOption prev -> keeps allowedOption (unrollSingleChar X child todo x wrote prev).
Proof.
  revert x wrote prev. induction todo as [|todo IH]; intros x wrote prev Hp;
    cbn [unrollSingleChar].
  - now apply keeps_ret.
  - keeps_go.
Qed.

Lemma keeps_concatClauses (fuel : nat) (node : Node) (exclusiveEnd : Z) (st : concatState) :
  allowedState st -> keeps allowedState (concatClauses X fuel node exclusiveEnd st).
Proof.
  revert st. induction fuel as [|fuel IH]; intros [[i prev] wrote] Hst;
    cbn [concatClauses];
    repeat first [ keeps_step
                 | keeps_more
                 | apply keeps_unrollSingleChar; exact Hst ].
  all: apply (renders_caseInsensitive _ _ Hrenders) in Heqo; exact Heqo.
Qed.

Ltac keeps_more ::=
  first [ apply keeps_emitExecuteAtomic
        | apply keeps_writePrefix; first [assumption | allowed_solve]
        | apply keeps_unrollSingleChar; first [assumption | allowed_solve]
        | apply keeps_concatClauses; first [assumption | allowed_solve] ].

Lemma keeps_concatRange (fuel budget : nat) (node : Node) (subsequent : option Node)
    (exclusiveEnd : Z) (st : concatState) :
  allowedState st ->
  keeps allowedState (concatRange X emitNode fuel budget node subsequent exclusiveEnd st).
Proof.
  revert st. induction fuel as [|fuel IH]; intros [[i prev] wrote] Hst;
    cbn [concatRange]; keeps_go.
Qed.

Ltac keeps_more ::=
  first [ apply keeps_emitExecuteAtomic
        | apply keeps_writePrefix; first [assumption | allowed_solve]
        | apply keeps_unrollSingleChar; first [assumption | allowed_solve]
        | apply keeps_concatClauses; first [assumption | allowed_solve]
        | apply keeps_concatRange; first [assumption | allowed_solve] ].

Lemma keeps_concatChildren (fuel budget : nat) (node : Node) (subsequent : option Node)
    (elc : bool) (i : Z) (prev : option string) :
  allowedOption prev ->
  keeps (fun _ => True) (concatChildren X emitNode fuel budget node subsequent elc i prev).
Proof.
  revert i prev. induction fuel as [|fuel IH]; intros i prev Hp;
    cbn [concatChildren]; keeps_go.
Qed.

Lemma keeps_emitExecuteConcatenation (budget : nat) (node : Node)
    (subsequent : option Node) (elc : bool) :
  keeps (fun _ => True) (emitExecuteConcatenation X emitNode budget node subsequent elc).
Proof.
  unfold emitExecuteConcatenation. apply keeps_concatChildren. intros ? [=].
Qed.

Lemma keeps_emitExecuteNonBacktrackingRepeater (node : Node) :
  keeps (fun _ => True) (emitExecuteNonBacktrackingRepeater emitNode node).
Proof. unfold emitExecuteNonBacktrackingRepeater. keeps_go. Qed.

Ltac keeps_more ::=
  first [ apply keeps_emitExecuteAtomic
        | apply keeps_emitExecuteConcatenation
        | apply keeps_emitExecuteNonBacktrackingRepeater ].

(** *** The general loop *)

Lemma keeps_emitLoopCondition (m n : Z) (e : bool) (iterationCount startingPos body endLoop : string) :
  allowed iterationCount -> allowed startingPos -> allowed body -> allowed endLoop ->
  keeps (fun _ => True) (emitLoopCondition m n e iterationCount startingPos body endLoop).
Proof. intros. unfold emitLoopCondition. keeps_go. Qed.

Lemma keeps_emitLoopStatePush (cookie : Z) (a b c : string) :
  allowed a -> allowed b -> allowed c ->
  keeps (fun _ => True) (emitLoopStatePush cookie a b c).
Proof. intros. unfold emitLoopStatePush. keeps_go. Qed.

Lemma keeps_emitLoopStatePop (cookie : Z) (a b c : string) :
  allowed a -> allowed b -> allowed c ->
  keeps (fun _ => True) (emitLoopStatePop cookie a b c).
Proof. intros. unfold emitLoopStatePop. keeps_go. Qed.

Lemma keeps_emitLoopStart (node child : Node) :
  keeps allowedLocals (emitLoopStart X node child).
Proof. unfold emitLoopStart. cbv zeta. keeps_go. Qed.

Lemma keeps_emitLoopUnwind (node : Node) (e cb : bool) (l : loopLocals) :
  allowedLocals l -> keeps (fun _ => True) (emitLoopUnwind node e cb l).
Proof.
  intros (? & ? & ? & ? & ? & ? & ?). unfold emitLoopUnwind. cbv zeta.
  repeat first [ keeps_step
               | apply keeps_emitLoopStatePush; allowed_solve
               | apply keeps_emitLoopStatePop; allowed_solve ].
Qed.

Lemma keeps_emitLoopEnd (node child : Node) (l : loopLocals) :
  allowedLocals l -> keeps (fun _ => True) (emitLoopEnd X node child l).
Proof.
  intros Hl. unfold emitLoopEnd. cbv zeta.
  destruct Hl as (? & ? & ? & ? & ? & ? & ?).
  repeat first [ keeps_step
               | apply keeps_emitLoopCondition; allowed_solve
               | apply keeps_emitLoopUnwind; repeat split; assumption ].
Qed.

Lemma keeps_emitExecuteLoop (node : Node) :
  keeps (fun _ => True) (emitExecuteLoop X emitNode node).
Proof.
  unfold emitExecuteLoop, emitExecuteLoopGeneral. cbv zeta.
  eapply keeps_bind; [apply keeps_childAt|]. intros child _.
  apply keeps_get_bind. intros rm Hrm.
  repeat match goal with
         | |- keeps _ (match (if ?b then _ else _) with Some _ => _ | None => _ end) =>
             destruct b
         end;
    repeat first [ keeps_step
                 | keeps_more
                 | apply keeps_emitLoopStart
                 | apply keeps_emitLoopEnd; assumption ].
Qed.

(** *** Alternation *)

Lemma keeps_handleChild (fuel : nat) (child lit : Node) (remainder : option Node) :
  keeps (fun _ => True) (handleChild X emitNode fuel child lit remainder).
Proof.
  revert child remainder. induction fuel as [|fuel IH]; intros child remainder;
    cbn [handleChild]; destruct (T child); keeps_go; try exact I.
Qed.

Lemma keeps_switchedBranches (budget : nat) (children : list Node) (sp : Z)
    (originalDoneLabel : string) (setChars : list rune * Z) :
  allowed originalDoneLabel ->
  keeps (fun _ => True)
    (switchedBranches X emitNode budget children sp originalDoneLabel setChars).
Proof.
  intros Hd. revert setChars. induction children as [|child rest IH]; intros setChars;
    cbn [switchedBranches];
    repeat first [keeps_step | keeps_more | apply keeps_handleChild]; try exact I.
Qed.

Lemma keeps_emitSwitchedBranches (budget : nat) (node : Node)
    (originalDoneLabel : string) (setChars : list rune * Z) :
  allowed originalDoneLabel ->
  keeps (fun _ => True)
    (emitSwitchedBranches X emitNode budget node originalDoneLabel setChars).
Proof.
  intros Hd. unfold emitSwitchedBranches. cbv zeta.
  repeat first [keeps_step | keeps_more | apply keeps_switchedBranches; assumption].
Qed.

Lemma keeps_generalBranches (children : list Node) (i count : Z) (isAtomic : bool)
    (originalDoneLabel matchLabel startingPos : string) (sp : Z)
    (startingCapturePos currentBranch : string) (cookie : Z) :
  allowed originalDoneLabel -> allowed matchLabel -> allowed startingPos ->
  captureLocal startingCapturePos -> allowed currentBranch ->
  keeps (Forall allowed)
    (generalBranches X emitNode children i count isAtomic originalDoneLabel matchLabel
       startingPos sp startingCapturePos currentBranch cookie).
Proof.
  intros Hd Hm Hs Hc Hb. revert i. induction children as [|child rest IH]; intros i;
    cbn [generalBranches]; cbv zeta; keeps_go.
Qed.

Lemma keeps_emitBranchTable (labelMap : list string) (i : Z) :
  Forall allowed labelMap -> keeps (fun _ => True) (emitBranchTable labelMap i).
Proof.
  intros H. revert i. induction H as [|l rest Hl Hrest IH]; intros i;
    cbn [emitBranchTable]; keeps_go.
Qed.

Lemma keeps_emitGeneralBranches (node : Node) (isAtomic : bool) (originalDoneLabel : string) :
  allowed originalDoneLabel ->
  keeps (fun _ => True) (emitGeneralBranches X emitNode node isAtomic originalDoneLabel).
Proof.
  intros Hd. unfold emitGeneralBranches. cbv zeta.
  repeat first [ keeps_step
               | keeps_more
               | apply keeps_generalBranches; first [assumption | allowed_solve]
               | apply keeps_emitBranchTable; assumption ].
Qed.

Lemma keeps_emitExecuteAlternation (budget : nat) (node : Node) :
  keeps (fun _ => True) (emitExecuteAlternation X emitNode budget node).
Proof.
  unfold emitExecuteAlternation. apply keeps_get_bind. intros rm Hrm. learn Hrm.
  cbv zeta. destruct (useSwitchedBranches X rm node) as [[] setChars].
  - now apply keeps_emitSwitchedBranches.
  - now apply keeps_emitGeneralBranches.
Qed.

(** *** Captures and character loops *)

Lemma keeps_emitExecuteCapture (node : Node) (subsequent : option Node) :
  keeps (fun _ => True) (emitExecuteCapture emitNode node subsequent).
Proof. unfold emitExecuteCapture. cbv zeta. keeps_go. Qed.

Lemma keeps_reserveName_verbFree (name : string) :
  allowed name -> verbFree name = true ->
  keeps (fun s => allowed s /\ verbFree s = true) (reserveName name : Emit CharSet string).
Proof.
  intros Hn Vn rm H.
  pose proof (keeps_reserveName name Hn rm H) as K.
  unfold reserveName in *. destruct K as (K1 & K2 & K3).
  split; [assumption|]. split; [assumption|]. split; [assumption|].
  now apply verbFree_nameFor.
Qed.

Lemma allowed_lastIndexOf (cond : bool) (literalNode : option Node)
    (startingPos : string) (k : Z) (format arg : string) :
  verbFree startingPos = true -> allowed startingPos -> allowed arg ->
  (if cond then
     match literalNode with
     | Some l => tryEmitExecuteIndexOf X l (sprint ["r.Runtext["; startingPos; ":%s]"]) true false
     | None => None
     end
   else None) = Some (k, format) ->
  allowed (Sprintf1 X format arg).
Proof.
  intros Vs Hs Harg E.
  destruct cond; [|discriminate]. destruct literalNode as [l|]; [|discriminate].
  replace (sprint ["r.Runtext["; startingPos; ":%s]"])
    with (("r.Runtext[" ++ startingPos ++ ":") ++ "%s" ++ "]")%string in E
    by (rewrite !sprint_cons, sprint_nil, !append_assoc; reflexivity).
  eapply allowed_tryEmitExecuteIndexOf; [| | | exact Harg | exact E].
  - apply (verbFree_app "r.Runtext["); [reflexivity|].
    apply verbFree_app; [exact Vs | reflexivity].
  - repeat apply allowed_app; try assumption; apply allowed_literal; reflexivity.
  - apply allowed_literal; reflexivity.
Qed.

Lemma keeps_emitExecuteSingleCharLoop (node : Node) (subsequent : option Node) (elc : bool) :
  keeps (fun _ => True) (emitExecuteSingleCharLoop X node subsequent elc).
Proof.
  unfold emitExecuteSingleCharLoop. apply keeps_get_bind. intros rm Hrm. learn Hrm.
  destruct (IsAtomicByAncestor (Analysis rm) node);
    [apply keeps_emitExecuteSingleCharAtomicLoop|].
  destruct (M node =? N node); [now apply keeps_ret|].
  eapply keeps_bind; [apply keeps_reserveName; allowed_solve|]. intros backtrackingLabel Hb.
  eapply keeps_bind; [apply keeps_reserveName; allowed_solve|]. intros endLoop He.
  eapply keeps_bind;
    [apply keeps_reserveName_verbFree; [allowed_solve | reflexivity]|].
  intros startingPos [Hs Vs].
  cbv zeta. keeps_go.
  all: eapply allowed_lastIndexOf; [exact Vs | exact Hs | | eassumption]; allowed_solve.
Qed.

(** *** The dispatcher *)

Lemma keeps_emitDescribedNode (budget : nat) (node : Node) (subsequent : option Node)
    (elc : bool) :
  keeps (fun _ => True) (emitDescribedNode X emitNode budget node subsequent elc).
Proof.
  unfold emitDescribedNode.
  eapply keeps_bind; [apply keeps_describeNode|]. intros desc Hdesc.
  eapply keeps_bind; [apply keeps_writeLine; allowed_solve|]. intros _ _.
  unfold emitExecuteBoundary, emitExecuteSingleCharLazy, emitExecuteLazy,
    emitExecuteBackreference, emitExecuteBackreferenceConditional,
    emitExecuteExpressionConditional, emitExecutePositiveLookaroundAssertion,
    emitExecuteNegativeLookaroundAssertion.
  destruct (T node);
    first [ now apply keeps_ret
          | apply keeps_panic
          | apply keeps_emitExecuteAnchors
          | apply keeps_emitExecuteSingleChar; discriminate
          | apply keeps_emitExecuteMultiCharString
          | apply keeps_emitExecuteUpdateBumpalong
          | apply keeps_emitExecuteSingleCharLoop
          | apply keeps_emitExecuteLoop
          | apply keeps_emitExecuteAlternation
          | apply keeps_emitExecuteAtomic
          | apply keeps_emitExecuteCapture ].
Qed.

Lemma keeps_emitExecuteNodeBody (budget : nat) (node : Node) (subsequent : option Node)
    (elc : bool) :
  keeps (fun _ => True) (emitExecuteNodeBody X emitNode budget node subsequent elc).
Proof.
  unfold emitExecuteNodeBody. apply keeps_get_bind. intros rm Hrm. learn Hrm.
  cbv zeta.
  destruct (match FindMode (Tree rm) with
            | LiteralAfterLoop_LeftToRight => _
            | OtherFindMode => false
            end); [keeps_go|].
  eapply keeps_bind; [unfold when; destruct (isRightToLeft X (Options node)); keeps_go|].
  intros _ _.
  eapply keeps_bind; [apply keeps_writeLine; allowed_solve|]. intros _ _.
  destruct (T node);
    try apply keeps_emitDescribedNode;
    try apply keeps_emitExecuteConcatenation;
    keeps_go;
    apply keeps_emitDescribedNode.
Qed.

End Dispatch.

(** ** The whole emitter *)

Lemma keeps_emitExecuteNode (fuel : nat) (node : Node) (subsequent : option Node)
    (elc : bool) :
  keeps (fun _ => True) (emitExecuteNode X fuel node subsequent elc).
Proof.
  revert node subsequent elc. induction fuel as [|fuel IH]; intros node subsequent elc;
    cbn [emitExecuteNode].
  - apply keeps_outOfFuel.
  - now apply keeps_emitExecuteNodeBody.
Qed.

Lemma allowed_rendered (written : list emission) :
  Forall (fun e => allowed (text e)) written -> allowed (rendered written).
Proof.
  induction 1 as [|e rest He Hrest IH]; [now apply allowed_literal|].
  destruct e as [s|s]; cbn [rendered text] in *.
  - apply allowed_app; [exact He|].
    apply allowed_app; [now apply allowed_literal | exact IH].
  - now apply allowed_app.
Qed.

End Discipline.

(** * What the emitter never writes, and what it never undoes *)

Section Guarantees.

Context {CharSet : Type}.
Variable X : Externals CharSet.

Local Abbreviation Data := (regexpData CharSet).
Local Abbreviation Node := (RegexNode CharSet).

Lemma captureFree_occurs (s : string) :
  captureFree s = true ->
  occurs "UncaptureUntil" s = false /\ occurs "Crawlpos" s = false.
Proof.
  unfold captureFree. intros H. apply andb_prop in H as [H1 H2].
  split; apply spellsNoPart_occurs; try assumption; discriminate.
Qed.

(** ** The decision to emit a switch *)

Lemma existsb_eqb_In (c : rune) (seen : list rune) :
  existsb (Z.eqb c) seen = true <-> In c seen.
Proof.
  rewrite existsb_exists. split.
  - intros (x & Hx & E). apply Z.eqb_eq in E. now subst.
  - intros H. exists c. split; [exact H | apply Z.eqb_refl].
Qed.

Lemma addSetChars_some (chars seen seen' : list rune) :
  addSetChars chars seen = Some seen' ->
  NoDup chars /\ disjoint chars seen /\ (forall c, In c seen' <-> In c chars \/ In c seen).
Proof.
  revert seen. induction chars as [|c chars IH]; intros seen E; cbn in E.
  - injection E as <-. repeat split; [constructor | intros c [] | tauto | now intros [[]|]].
  - destruct (existsb (Z.eqb c) seen) eqn:Ec; [discriminate|].
    assert (Hc : ~ In c seen) by (rewrite <- existsb_eqb_In, Ec; discriminate).
    destruct (IH _ E) as (Hnd & Hdis & Hin).
    split; [|split].
    + constructor; [|exact Hnd]. intros Hcc. apply (Hdis c Hcc). now left.
    + intros x [<-|Hx]; [exact Hc|]. intros Hs. apply (Hdis x Hx). now right.
    + intros x. rewrite Hin. cbn. tauto.
Qed.

Lemma addSetChars_none (chars seen : list rune) :
  addSetChars chars seen = None -> NoDup chars -> ~ disjoint chars seen.
Proof.
  revert seen. induction chars as [|c chars IH]; intros seen E Hnd Hdis; cbn in E;
    [discriminate|].
  destruct (existsb (Z.eqb c) seen) eqn:Ec.
  - apply existsb_eqb_In in Ec. apply (Hdis c); [now left | exact Ec].
  - inversion Hnd as [|? ? Hc Hnd']; subst.
    apply (IH _ E Hnd'). intros x Hx [<-|Hs]; [contradiction|].
    apply (Hdis x); [now right | exact Hs].
Qed.

Lemma switchCandidate_iff (rm : Data) (node : Node) :
  switchCandidate X rm node (IsAtomicByAncestor (Analysis rm) node) = true
  <-> isRightToLeft X (Options node) = false
      /\ (IsAtomicByAncestor (Analysis rm) node = true
          \/ Forall (fun child => MayBacktrack (Analysis rm) child = false) (Children node)).
Proof.
  unfold switchCandidate.
  destruct (isRightToLeft X (Options node)); cbn; [split; [discriminate | intros [[=] _]]|].
  destruct (IsAtomicByAncestor (Analysis rm) node); [tauto|].
  rewrite negb_true_iff, <- not_true_iff_false, existsb_exists, Forall_forall.
  split.
  - intros H. split; [reflexivity|]. right. intros c Hc.
    destruct (MayBacktrack (Analysis rm) c) eqn:E; [|reflexivity].
    exfalso. apply H. now exists c.
  - intros [_ [[=]|H]] (c & Hc & E). now rewrite (H c Hc) in E.
Qed.

Section Branches.

Variable children0 : list Node.

(** The starting literal of a branch is of one of the four kinds. *)
Hypothesis Hkinds :
  forall child literal,
    In child children0 ->
    FindStartingLiteralNode X child false = Some literal ->
    IsNotoneFamily X literal = false ->
    IsSetFamily X literal
    = negb (IsOneFamily X literal || NodeType_eqb (T literal) NtMulti).

(** Handed a buffer of the emitter's capacity, whatever it holds, the
    extraction from the set of a starting literal gives the characters it
    gives for the empty one, in a buffer of the same capacity. *)
Hypothesis Hbuffer :
  forall child literal buffer,
    In child children0 ->
    FindStartingLiteralNode X child false = Some literal ->
    snd buffer = SetCharsSize ->
    fst (GetSetChars X (Set_ literal) buffer)
    = fst (GetSetChars X (Set_ literal) ([], SetCharsSize))
    /\ snd (GetSetChars X (Set_ literal) buffer) = SetCharsSize.

(** They are listed once each. *)
Hypothesis Hdistinct :
  forall child literal,
    In child children0 ->
    FindStartingLiteralNode X child false = Some literal ->
    NoDup (fst (GetSetChars X (Set_ literal) ([], SetCharsSize))).

Lemma uniqueStartingChars_iff (children : list Node) (seen : list rune)
    (buffer : list rune * Z) :
  incl children children0 ->
  snd buffer = SetCharsSize ->
  fst (uniqueStartingChars X children seen buffer) = true
  <-> exists starts : list (list rune),
        Forall2 (fun child chars => startingChars X child = Some chars) children starts
        /\ ForallOrdPairs disjoint starts
        /\ Forall (fun chars => disjoint chars seen) starts.
Proof.
  revert seen buffer. induction children as [|child rest IH]; intros seen buffer Hincl Hcap.
  - cbn. split; [|reflexivity]. intros _. exists []. repeat constructor.
  - assert (Hchild : In child children0) by (apply Hincl; now left).
    assert (Hrest : incl rest children0) by (intros x Hx; apply Hincl; now right).
    cbn [uniqueStartingChars].
    assert (Hstart : forall starts,
               Forall2 (fun child chars => startingChars X child = Some chars)
                 (child :: rest) starts ->
               exists chars starts', starts = chars :: starts'
                 /\ startingChars X child = Some chars
                 /\ Forall2 (fun child chars => startingChars X child = Some chars)
                      rest starts').
    { intros starts H. inversion H; subst. eauto. }
    assert (Hnone : startingChars X child = None ->
               ~ exists starts : list (list rune),
                   Forall2 (fun child chars => startingChars X child = Some chars)
                     (child :: rest) starts
                   /\ ForallOrdPairs disjoint starts
                   /\ Forall (fun chars => disjoint chars seen) starts).
    { intros E (starts & H & _). destruct (Hstart _ H) as (? & ? & _ & E' & _).
      congruence. }
    assert (Hsome : forall chars seen',
               startingChars X child = Some chars ->
               disjoint chars seen ->
               (forall c, In c seen' <-> In c chars \/ In c seen) ->
               forall buffer',
               snd buffer' = SetCharsSize ->
               fst (uniqueStartingChars X rest seen' buffer') = true
               <-> exists starts : list (list rune),
                     Forall2 (fun child chars => startingChars X child = Some chars)
                       (child :: rest) starts
                     /\ ForallOrdPairs disjoint starts
                     /\ Forall (fun chars => disjoint chars seen) starts).
    { intros chars seen' E Hdis Hin buffer' Hcap'. rewrite (IH seen' buffer' Hrest Hcap').
      split.
      - intros (starts' & H2 & Hp & Hs). exists (chars :: starts').
        split; [now constructor|]. split.
        + constructor; [|exact Hp]. rewrite Forall_forall in *.
          intros cs Hcs c Hc Hc'. apply (Hs cs Hcs c Hc'). apply Hin. now left.
        + constructor; [exact Hdis|]. rewrite Forall_forall in *.
          intros cs Hcs c Hc Hc'. apply (Hs cs Hcs c Hc). apply Hin. now right.
      - intros (starts & H2 & Hp & Hs).
        destruct (Hstart _ H2) as (chars' & starts' & -> & E' & H2').
        assert (chars' = chars) by congruence. subst chars'.
        exists starts'. split; [exact H2'|].
        inversion Hp as [|? ? Hfirst Hp']; subst.
        inversion Hs as [|? ? _ Hs']; subst.
        split; [exact Hp'|]. rewrite Forall_forall in *.
        intros cs Hcs c Hc Hc'. apply Hin in Hc'. destruct Hc' as [Hc'|Hc'].
        + apply (Hfirst cs Hcs c Hc' Hc).
        + apply (Hs' cs Hcs c Hc Hc'). }
    destruct (FindStartingLiteralNode X child false) as [literal|] eqn:Elit;
      [|split; [discriminate|]; intros H; destruct Hnone; [|exact H];
        unfold startingChars; now rewrite Elit].
    destruct (IsNotoneFamily X literal) eqn:Enot;
      [split; [discriminate|]; intros H; destruct Hnone; [|exact H];
       unfold startingChars; now rewrite Elit, Enot|].
    pose proof (Hkinds child literal Hchild Elit Enot) as Eset.
    destruct (IsOneFamily X literal || NodeType_eqb (T literal) NtMulti) eqn:Eb;
      cbn [negb] in Eset.
    + assert (Estart : startingChars X child = Some [FirstCharOfOneOrMulti X literal])
        by (unfold startingChars; now rewrite Elit, Enot, Eset).
      destruct (existsb (Z.eqb (FirstCharOfOneOrMulti X literal)) seen) eqn:Eseen.
      * split; [discriminate|]. intros (starts & H2 & _ & Hs).
        destruct (Hstart _ H2) as (chars & starts' & -> & E' & _).
        rewrite Estart in E'. injection E' as <-.
        inversion Hs as [|? ? Hd _]; subst.
        apply existsb_eqb_In in Eseen. exfalso.
        apply (Hd _ (or_introl eq_refl) Eseen).
      * apply (Hsome _ _ Estart).
        -- intros c [<-|[]]. rewrite <- existsb_eqb_In, Eseen. discriminate.
        -- intros c. cbn. tauto.
        -- exact Hcap.
    + destruct (Hbuffer child literal buffer Hchild Elit Hcap) as [Efst Esnd].
      rewrite Efst.
      pose proof (Hdistinct child literal Hchild Elit) as Hnd.
      destruct (IsNegated X (Set_ literal)) eqn:Eneg; cbn [orb];
        [split; [discriminate|]; intros H; destruct Hnone; [|exact H];
         unfold startingChars; now rewrite Elit, Enot, Eset, Eneg|].
      destruct (fst (GetSetChars X (Set_ literal) ([], SetCharsSize)))
        as [|c0 chars] eqn:Echars.
      * cbn. split; [discriminate|]. intros H. destruct Hnone; [|exact H].
        unfold startingChars. now rewrite Elit, Enot, Eset, Eneg, Echars.
      * assert (Estart : startingChars X child = Some (c0 :: chars))
          by (unfold startingChars; now rewrite Elit, Enot, Eset, Eneg, Echars).
        replace (len (c0 :: chars) =? 0) with false by (unfold len; reflexivity).
        destruct (addSetChars (c0 :: chars) seen) as [seen'|] eqn:Eadd.
        -- destruct (addSetChars_some _ _ _ Eadd) as (_ & Hdis & Hin).
           now apply (Hsome _ _ Estart).
        -- split; [discriminate|]. intros (starts & H2 & _ & Hs).
           destruct (Hstart _ H2) as (chars' & starts' & -> & E' & _).
           rewrite Estart in E'. injection E' as <-.
           inversion Hs as [|? ? Hd _]; subst.
           exfalso. exact (addSetChars_none _ _ Eadd Hnd Hd).
Qed.

(** The buffer the detection leaves has the emitter's capacity. *)
Lemma uniqueStartingChars_capacity (children : list Node) (seen : list rune)
    (buffer : list rune * Z) :
  incl children children0 ->
  snd buffer = SetCharsSize ->
  snd (snd (uniqueStartingChars X children seen buffer)) = SetCharsSize.
Proof.
  revert seen buffer. induction children as [|child rest IH]; intros seen buffer Hincl Hcap.
  - exact Hcap.
  - assert (Hchild : In child children0) by (apply Hincl; now left).
    assert (Hrest : incl rest children0) by (intros x Hx; apply Hincl; now right).
    cbn [uniqueStartingChars].
    destruct (FindStartingLiteralNode X child false) as [literal|] eqn:Elit; [|exact Hcap].
    destruct (Hbuffer child literal buffer Hchild Elit Hcap) as [_ Esnd].
    destruct (IsNotoneFamily X literal); [exact Hcap|].
    destruct (IsOneFamily X literal || NodeType_eqb (T literal) NtMulti).
    + destruct (existsb (Z.eqb (FirstCharOfOneOrMulti X literal)) seen);
        [exact Hcap | now apply IH].
    + destruct (IsNegated X (Set_ literal)
                || (len (fst (GetSetChars X (Set_ literal) buffer)) =? 0)); [exact Esnd|].
      destruct (addSetChars (fst (GetSetChars X (Set_ literal) buffer)) seen);
        [now apply IH | exact Esnd].
Qed.

End Branches.

(** When the detection succeeds, every branch has a starting literal. *)
Lemma uniqueStartingChars_literals (children : list Node) (seen : list rune)
    (buffer : list rune * Z) :
  fst (uniqueStartingChars X children seen buffer) = true ->
  Forall (fun child => FindStartingLiteralNode X child false <> None) children.
Proof.
  revert seen buffer. induction children as [|child rest IH]; intros seen buffer E;
    [constructor|].
  cbn [uniqueStartingChars] in E.
  destruct (FindStartingLiteralNode X child false) as [literal|] eqn:Elit; [|discriminate].
  constructor; [rewrite Elit; discriminate|].
  destruct (IsNotoneFamily X literal); [discriminate|].
  destruct (IsOneFamily X literal || NodeType_eqb (T literal) NtMulti).
  - destruct (existsb (Z.eqb (FirstCharOfOneOrMulti X literal)) seen); [discriminate|].
    exact (IH _ _ E).
  - destruct (IsNegated X (Set_ literal)
              || (len (fst (GetSetChars X (Set_ literal) buffer)) =? 0)); [discriminate|].
    destruct (addSetChars (fst (GetSetChars X (Set_ literal) buffer)) seen);
      [exact (IH _ _ E) | discriminate].
Qed.

(** ** The shape of a switch *)

Lemma renders_loose : Renders X false.
Proof. constructor; intros; intros [=]. Qed.

Lemma disciplined_loosely (rm : Data) : disciplined false (out rm) rm.
Proof.
  assert (A : forall s, allowed false s) by (intros s [=]).
  split; [intros [=]|]. split; [apply A|]. split; [apply A|].
  split; [apply Forall_forall; intros; apply A|].
  split; [apply Forall_forall; intros; apply A|].
  exists []. split; [now rewrite app_nil_r | constructor].
Qed.

(** Whatever returns, has only added to the output. *)
Lemma keeps_extends {A} (Q : A -> Prop) (m : Emit CharSet A) (rm rm' : Data) (a : A) :
  keeps false (out rm) Q m -> m rm = Ok a rm' -> extends rm rm'.
Proof.
  intros K E. specialize (K rm (disciplined_loosely rm)). rewrite E in K.
  now destruct K as (_ & H & _).
Qed.

Lemma bind_Ok_inv {A B} (m : Emit CharSet A) (k : A -> Emit CharSet B)
    (rm rm' : Data) (b : B) :
  bind m k rm = Ok b rm' -> exists a rm1, m rm = Ok a rm1 /\ k a rm1 = Ok b rm'.
Proof.
  unfold bind. destruct (m rm) as [a rm1|]; [|discriminate]. intros E. now exists a, rm1.
Qed.

Lemma transferSliceStaticPosToPos_doneLabel (force : bool) (rm rm' : Data) :
  transferSliceStaticPosToPos force rm = Ok tt rm' -> doneLabel rm' = doneLabel rm.
Proof.
  unfold transferSliceStaticPosToPos, emitAddStmt, sliceInputSpan, when, bind, get,
    writeLine, write, modify, ret.
  repeat match goal with |- context [if ?b then _ else _] => destruct b end;
    intros [= <-]; reflexivity.
Qed.

Lemma emitExecuteGoto_writes (label : string) (rm : Data) :
  exists rm', emitExecuteGoto label rm = Ok tt rm'
    /\ out rm' = out rm ++ failureJump rm label
    /\ sameControl rm rm'.
Proof.
  unfold emitExecuteGoto, failureJump, gotoWillExitMatch, when, emitUncaptureUntil,
    bind, get, writeLine, modify, ret, sameControl, gotoLine.
  destruct (String.eqb label (topLevelDoneLabel rm));
    [destruct (expressionHasCaptures rm) eqn:E|];
    eexists; (split; [reflexivity|]); cbn; rewrite <- ?app_assoc; cbn;
    repeat split; try reflexivity; try assumption.
Qed.

Lemma emitSpanLengthCheck_writes (requiredLength : Z) (rm : Data) :
  exists rm', emitSpanLengthCheck X requiredLength None rm = Ok tt rm'
    /\ out rm' = out rm
                 ++ Line (sprint ["if "; spanLengthCheck X rm requiredLength None; " {"])
                 :: failureJump rm (doneLabel rm) ++ [Line "}"]
    /\ sameControl rm rm'.
Proof.
  unfold emitSpanLengthCheck.
  destruct (emitExecuteGoto_writes (doneLabel rm)
              (set_out (out rm ++ [Line (sprint ["if "; spanLengthCheck X rm requiredLength None;
                                                 " {"])]) rm))
    as (rm1 & E1 & Hout & Hd & Hs & Hp & Ht & Hc).
  eexists. split.
  - unfold bind at 1. unfold get. unfold bind at 1. unfold writeLine at 1, modify at 1.
    unfold bind at 1. rewrite E1. reflexivity.
  - cbn. rewrite Hout. cbn. rewrite <- !app_assoc. cbn.
    split; [reflexivity|]. unfold sameControl. cbn. repeat split; assumption.
Qed.

Section Switch.

Variable children0 : list Node.

Hypothesis Hbuffer :
  forall child literal buffer,
    In child children0 ->
    FindStartingLiteralNode X child false = Some literal ->
    snd buffer = SetCharsSize ->
    fst (GetSetChars X (Set_ literal) buffer)
    = fst (GetSetChars X (Set_ literal) ([], SetCharsSize))
    /\ snd (GetSetChars X (Set_ literal) buffer) = SetCharsSize.

Variable emitNode : Node -> option Node -> bool -> Emit CharSet unit.
Variable budget : nat.

Hypothesis Hbudget : budget <> 0%nat.

Hypothesis Hwell : forall child, In child children0 -> wellFormedBranch X child.

(** The dispatcher returns, having only added to the output, for what the
    branches hand to it. *)
Hypothesis Hreturns :
  forall child n st,
    In child children0 ->
    In n (branchRest X child) ->
    exists st', emitNode n None true st = Ok tt st' /\ extends st st'.

Lemma index_second {A} (l : list A) : len l = 2 -> exists b, index l 1 = Some b.
Proof.
  unfold len, index. destruct l as [|a [|b [|c rest]]]; cbn [List.length]; try lia.
  intros _. exists b. reflexivity.
Qed.

Lemma extends_sliceStaticPos (v : Z) (st : Data) : extends st (set_sliceStaticPos v st).
Proof. now apply extends_same_out. Qed.

(** A character, a set or a string, as a branch or as the head of one. *)
Lemma handleChild_leaf (fuel : nat) (c literal : Node) (remainder : option Node)
    (st : Data) :
  isOneSetOrMulti (T c) = true ->
  (T c = NtMulti -> Str c <> []) ->
  (forall n st1, In n (stringRest X c) ->
     exists st', emitNode n None true st1 = Ok tt st' /\ extends st1 st') ->
  exists st',
    handleChild X emitNode fuel c literal remainder st = Ok remainder st'
    /\ extends st st'.
Proof.
  intros Hkind Hstr Hrest.
  assert (E : handleChild X emitNode fuel c literal remainder
              = match T c with
                | NtOne | NtSet =>
                    bind (modify (fun rm => set_sliceStaticPos
                                              (int_add (sliceStaticPos rm) 1) rm))
                      (fun _ => ret remainder)
                | _ =>
                    bind (modify (fun rm => set_sliceStaticPos
                                              (int_add (sliceStaticPos rm) 1) rm))
                      (fun _ =>
                         bind (if len (Str c) =? 2 then
                                 match index (Str c) 1 with
                                 | Some ch1 =>
                                     emitNode (newNode X NtOne (Options c) ch1 []) None true
                                 | None => panic
                                 end
                               else
                                 match Str c with
                                 | [] => panic
                                 | _ :: tail =>
                                     emitNode (newNode X NtMulti (Options c) 0 tail)
                                       None true
                                 end)
                           (fun _ => bind (writeLine "") (fun _ => ret remainder)))
                end)
    by (destruct fuel; cbn [handleChild]; destruct (T c); try discriminate Hkind;
        reflexivity).
  rewrite E. clear E.
  destruct (T c) eqn:Ekind; try discriminate Hkind.
  - eexists. split; [reflexivity|]. apply extends_sliceStaticPos.
  - eexists. split; [reflexivity|]. apply extends_sliceStaticPos.
  - unfold stringRest in Hrest. rewrite Ekind in Hrest.
    unfold bind at 1. unfold modify at 1.
    destruct (len (Str c) =? 2) eqn:Etwo.
    + apply Z.eqb_eq in Etwo. destruct (index_second _ Etwo) as (ch1 & Ech).
      rewrite Ech in *.
      destruct (Hrest _ (set_sliceStaticPos (int_add (sliceStaticPos st) 1) st)
                  (or_introl eq_refl)) as (st2 & E2 & X2).
      rewrite (bind_Ok _ _ _ _ _ E2).
      eexists. split; [reflexivity|].
      eapply extends_trans; [apply extends_sliceStaticPos|].
      eapply extends_trans; [exact X2 | apply extends_written].
    + destruct (Str c) as [|c0 tail] eqn:Estr; [now destruct (Hstr eq_refl)|].
      destruct (Hrest _ (set_sliceStaticPos (int_add (sliceStaticPos st) 1) st)
                  (or_introl eq_refl)) as (st2 & E2 & X2).
      rewrite (bind_Ok _ _ _ _ _ E2).
      eexists. split; [reflexivity|].
      eapply extends_trans; [apply extends_sliceStaticPos|].
      eapply extends_trans; [exact X2 | apply extends_written].
Qed.

(** The [HandleChild] switch returns for a branch, and what it leaves to be
    emitted is of the branch's rest. *)
Lemma handleChild_returns (child literal : Node) (st : Data) :
  In child children0 ->
  FindStartingLiteralNode X child false = Some literal ->
  exists remainder st',
    handleChild X emitNode budget child literal None st = Ok remainder st'
    /\ extends st st'
    /\ forall r, remainder = Some r -> In r (branchRest X child).
Proof.
  intros Hchild Elit.
  pose proof (Hwell child Hchild) as Hw. unfold wellFormedBranch in Hw.
  destruct (isOneSetOrMulti (T child)) eqn:Eleaf.
  - destruct (handleChild_leaf budget child literal None st Eleaf) as (st' & E & HX).
    + intros Ekind. now rewrite Ekind in Hw.
    + intros n st1 Hn. apply (Hreturns child n st1 Hchild).
      unfold branchRest. unfold stringRest in *.
      destruct (T child); try discriminate Eleaf; try exact Hn; now destruct Hn.
    + exists None, st'. split; [exact E|]. split; [exact HX|]. discriminate.
  - assert (Hfuel : exists fuel, budget = S fuel)
      by (destruct budget as [|fuel]; [contradiction | now exists fuel]).
    destruct Hfuel as (fuel & Ebudget). rewrite Ebudget.
    destruct (NodeType_eqb (T child) NtConcatenate) eqn:Econcat.
    + assert (Ekind : T child = NtConcatenate)
        by (destruct (T child); try discriminate Econcat; reflexivity).
      rewrite Ekind in Hw. destruct Hw as (first & others & Hfirst & Hsame).
      cbn [handleChild]. rewrite Ekind.
      unfold childAt, index. rewrite Hfirst.
      replace ((0 <=? 0) && (0 <? len (first :: others))) with true
        by (unfold len; cbn [List.length]; symmetry; apply andb_true_iff;
            split; [reflexivity | apply Z.ltb_lt; lia]).
      cbn [nth_error Z.to_nat]. unfold bind at 1. unfold ret at 1.
      destruct ((Addr first =? Addr literal) && isOneSetOrMulti (T literal)) eqn:Ehead.
      * apply andb_true_iff in Ehead as [Eaddr Elk]. apply Z.eqb_eq in Eaddr.
        destruct (Hsame literal Elit Eaddr) as [-> Hstr].
        destruct (handleChild_leaf fuel literal literal
                    (Some (ReplaceChild0 child (newNode X NtEmpty (Options child) 0 [])))
                    st Elk Hstr) as (st' & E & HX).
        -- intros n st1 Hn. apply (Hreturns child n st1 Hchild).
           unfold branchRest. rewrite Ekind, Hfirst, Elit, Z.eqb_refl, Elk.
           apply in_or_app. now left.
        -- eexists. exists st'. split; [exact E|]. split; [exact HX|].
           intros r [= <-]. unfold branchRest.
           rewrite Ekind, Hfirst, Elit, Z.eqb_refl, Elk.
           apply in_or_app. right. now left.
      * exists None, st. split; [reflexivity|]. split; [apply extends_refl|]. discriminate.
    + exists (Some child), st. split; [|split; [apply extends_refl|]].
      * cbn [handleChild].
        destruct (T child); try discriminate Eleaf; try discriminate Econcat; reflexivity.
      * intros r [= <-]. unfold branchRest.
        destruct (T child); try discriminate Eleaf; try discriminate Econcat; now left.
Qed.

(** The cases of the switch are written, one block per branch. *)
Lemma switchedBranches_written (children : list Node) (sp : Z) (done : string)
    (setChars : list rune * Z) (rm : Data) :
  incl children children0 ->
  snd setChars = SetCharsSize ->
  Forall (fun child => FindStartingLiteralNode X child false <> None) children ->
  exists (rm' : Data) (blocks : list (list emission)),
    switchedBranches X emitNode budget children sp done setChars rm = Ok tt rm'
    /\ out rm' = out rm ++ List.concat blocks
    /\ Forall2 (fun child block =>
                  exists body, block = Line (sprint ["case "; caseLabel X child; ":"]) :: body)
         children blocks
    /\ topLevelDoneLabel rm' = topLevelDoneLabel rm
    /\ expressionHasCaptures rm' = expressionHasCaptures rm
    /\ (children = [] -> doneLabel rm' = doneLabel rm)
    /\ (children <> [] -> doneLabel rm' = done).
Proof.
  revert setChars rm. induction children as [|child rest IH];
    intros setChars rm Hincl Hcap Hlit.
  - exists rm, []. cbn. rewrite app_nil_r.
    repeat split; try reflexivity; [constructor | now intros []].
  - assert (Hchild : In child children0) by (apply Hincl; now left).
    assert (Hrest : incl rest children0) by (intros x Hx; apply Hincl; now right).
    inversion Hlit as [|? ? Hsome Hlit']; subst.
    destruct (FindStartingLiteralNode X child false) as [literal|] eqn:Elit;
      [clear Hsome | now destruct Hsome].
    pose (label := if IsSetFamily X literal
                   then getRuneLiteralParams X
                          (fst (GetSetChars X (Set_ literal) ([], SetCharsSize)))
                   else fmt_q X (FirstCharOfOneOrMulti X literal)).
    pose (setChars' := if IsSetFamily X literal
                       then GetSetChars X (Set_ literal) setChars else setChars).
    pose (rm2 := set_out (out rm ++ [Line (sprint ["case "; label; ":"])])
                   (set_sliceStaticPos sp rm)).
    destruct (Hbuffer child literal setChars Hchild Elit Hcap) as [Efst Esnd].
    assert (Hcap' : snd setChars' = SetCharsSize)
      by (unfold setChars'; destruct (IsSetFamily X literal); assumption).
    destruct (handleChild_returns child literal rm2 Hchild Elit)
      as (remainder & rm3 & E3 & X3 & Hrem).
    assert (H4 : exists rm4,
               match remainder with
               | Some r => bind (emitNode r None true) (fun _ => writeLine "")
               | None => ret tt
               end rm3 = Ok tt rm4 /\ extends rm3 rm4).
    { destruct remainder as [r|].
      - destruct (Hreturns child r rm3 Hchild (Hrem r eq_refl)) as (st' & E & HX).
        eexists. rewrite (bind_Ok _ _ _ _ _ E). split; [reflexivity|].
        eapply extends_trans; [exact HX | apply extends_written].
      - exists rm3. split; [reflexivity | apply extends_refl]. }
    destruct H4 as (rm4 & E4 & X4).
    destruct (returns_transferSliceStaticPosToPos false (set_doneLabel done rm4))
      as ([] & rm6 & E6 & X6).
    pose proof (transferSliceStaticPosToPos_doneLabel _ _ _ E6) as Hd6.
    destruct (IH setChars' (set_out (out rm6 ++ [Line ""]) rm6) Hrest Hcap' Hlit')
      as (rm' & blocks & E & Hout & Hblocks & Ht & Hc & Hnil & Hcons).
    destruct X3 as ((w3 & Hw3) & Ht3 & Hc3 & _).
    destruct X4 as ((w4 & Hw4) & Ht4 & Hc4 & _).
    destruct X6 as ((w6 & Hw6) & Ht6 & Hc6 & _).
    exists rm', ((Line (sprint ["case "; label; ":"]) :: w3 ++ w4 ++ w6 ++ [Line ""])
                 :: blocks).
    split; [|split; [|split; [|split; [|split; [|split]]]]].
    + cbn [switchedBranches]. unfold bind at 1. unfold modify at 1. rewrite Elit.
      assert (E2 : (if IsSetFamily X literal
                    then bind (writeLine (sprint ["case ";
                                 getRuneLiteralParams X
                                   (fst (GetSetChars X (Set_ literal) setChars)); ":"]))
                           (fun _ => ret (GetSetChars X (Set_ literal) setChars))
                    else bind (writeLine (sprint ["case ";
                                 fmt_q X (FirstCharOfOneOrMulti X literal); ":"]))
                           (fun _ => ret setChars))
                     (set_sliceStaticPos sp rm) = Ok setChars' rm2).
      { unfold setChars', rm2, label. rewrite Efst.
        destruct (IsSetFamily X literal); reflexivity. }
      rewrite (bind_Ok _ _ _ _ _ E2).
      rewrite (bind_Ok _ _ _ _ _ E3).
      rewrite (bind_Ok _ _ _ _ _ E4).
      unfold bind at 1. unfold modify at 1.
      rewrite (bind_Ok _ _ _ _ _ E6).
      unfold bind at 1. unfold writeLine at 1, modify at 1.
      exact E.
    + rewrite Hout. cbn [out set_out List.concat]. rewrite Hw6. cbn [out set_doneLabel].
      rewrite Hw4, Hw3. unfold rm2. cbn [out set_out set_sliceStaticPos].
      rewrite <- !app_assoc. cbn [app].
      f_equal. f_equal. rewrite <- !app_assoc. reflexivity.
    + constructor; [|exact Hblocks]. unfold caseLabel. rewrite Elit.
      eexists; reflexivity.
    + rewrite Ht. cbn. rewrite Ht6. cbn. rewrite Ht4, Ht3. reflexivity.
    + rewrite Hc. cbn. rewrite Hc6. cbn. rewrite Hc4, Hc3. reflexivity.
    + discriminate.
    + intros _. destruct rest as [|child' rest'].
      * rewrite (Hnil eq_refl). cbn. rewrite Hd6. reflexivity.
      * apply Hcons. discriminate.
Qed.

End Switch.


Lemma allowed_quiet (strict : bool) (s : string) : allowed strict (quiet s).
Proof. intros _. unfold quiet. destruct (captureFree s) eqn:E; [exact E | reflexivity]. Qed.

Lemma quietHelpers_renders : Renders (quietHelpers X) true.
Proof.
  constructor; cbn [quietHelpers Description SetString getRuneSliceLiteral
                    getRuneLiteralParams emitMatchCharacterClass emitIndexOfChars fmt_q
                    fmt_gosyntax string_of_runes string_of_int fmt_NodeType fmt_s_pointer
                    Sprintf1 TryGetOrdinalCaseInsensitiveString];
    intros; try apply allowed_quiet.
  destruct (TryGetOrdinalCaseInsensitiveString X n i e b) as [[k' s']|];
    [|discriminate].
  match goal with H : Some _ = Some _ |- _ => injection H as <- <- end.
  apply allowed_quiet.
Qed.


End Guarantees.

(** * Further properties of the emitter *)

Section Further.

Context {CharSet : Type}.
Variable X : Externals CharSet.

Local Abbreviation Data := (regexpData CharSet).
Local Abbreviation Node := (RegexNode CharSet).

(** ** The dispatcher only adds *)


(** ** The top-level shortcut for a fixed-length root *)

(** When the root's first child is a string, a character, a negated
    character or a set, [emitExecute] writes that the search did the entire
    match: the end is the start plus (right-to-left: minus) the length of the
    string, or 1, and group 0 is captured from start to end.  The dispatcher
    is not called. *)
Theorem emitExecute_fixed_length_root
    (emitNode : Node -> option Node -> bool -> Emit CharSet unit)
    (rm : Data) (root : Node) (others : list Node)
    (Hroot : Children (Root (Tree rm)) = root :: others)
    (Hkind : isFixedLengthAtom (T root) = true) :
  emitExecuteWith X emitNode rm =
  Ok tt (set_out
           (out rm ++
            [executeHeader rm;
             Line "// the search in findFirstChar did the entire match";
             Line "var start = r.Runtextpos";
             Line (sprint ["var end = r.Runtextpos ";
                           if isRightToLeft X (rmOptions rm) then "-" else "+"; " ";
                           itoa (if NodeType_eqb (T root) NtMulti then len (Str root) else 1)]);
             Line "r.Runtextpos = end";
             Line "r.Capture(0, start, end)";
             Line "return nil";
             Line (sprint ["}"; nl])]) rm).
Proof.
  unfold emitExecuteWith, childAt, index, bind, get, writeLine, modify.
  cbn. rewrite Hroot. cbn.
  destruct (T root); try discriminate; cbn;
    unfold executeHeader; repeat rewrite <- app_assoc; reflexivity.
Qed.

(** ** Loops that are no loops *)

(** A loop node with bounds 0 and 0 writes nothing and changes nothing; with
    bounds 1 and 1 it is the emission of its child; in both cases the child
    is read first, so that a loop node without a child panics, whatever its
    bounds. *)
Theorem emitExecuteLoop_degenerate_bounds
    (emitNode : Node -> option Node -> bool -> Emit CharSet unit)
    (node : Node) (rm : Data) :
  (forall child others,
     Children node = child :: others ->
     (M node = 0 -> N node = 0 -> emitExecuteLoop X emitNode node rm = Ok tt rm)
     /\ (M node = 1 -> N node = 1 ->
         emitExecuteLoop X emitNode node rm = emitNode child None true rm))
  /\ (Children node = [] -> emitExecuteLoop X emitNode node rm = Stop Panicked rm).
Proof.
  split.
  - intros child others Hchild.
    split; intros HM HN; unfold emitExecuteLoop, childAt, index, bind, get;
      rewrite Hchild; cbn; rewrite HM, HN; reflexivity.
  - intros Hnone. unfold emitExecuteLoop, childAt, index, bind. rewrite Hnone.
    reflexivity.
Qed.

(** ** Descriptions of capture groups *)

(** For a tree without named groups, a group number within the table is
    described by its number between quotes, [strconv.Atoi] reading back the
    number that [strconv.Itoa] wrote: the ordinal descriptions are not
    reached.  A number outside the table, other than 0, is described by an
    empty name between quotes. *)
Theorem describeCapture_numbered_groups (rm : Data) (capNum : Z)
    (Hunnamed : Caplist (Tree rm) = [])
    (Hitoa : Atoi X (itoa capNum) = Some capNum)
    (Hempty : Atoi X "" = None) :
  let groups := match Capnumlist (Tree rm) with
                | None => Captop (Tree rm)
                | Some l => len l
                end in
  (0 <= capNum < groups ->
   describeCapture X rm capNum = sprint [fmt_gosyntax X (itoa capNum); " capture group"])
  /\ (~ 0 <= capNum < groups -> capNum <> 0 ->
      describeCapture X rm capNum = sprint [fmt_gosyntax X ""; " capture group"]).
Proof.
  intros groups. unfold describeCapture, groupNameFromNumber. rewrite Hunnamed.
  cbn [len List.length Z.of_nat Z.eqb]. fold groups. split.
  - intros [H0 H1].
    replace ((capNum >=? 0) && (capNum <? groups)) with true
      by (symmetry; apply andb_true_intro; split;
          [apply Z.geb_le; lia | apply Z.ltb_lt; lia]).
    now rewrite Hitoa.
  - intros Hout Hnz.
    replace ((capNum >=? 0) && (capNum <? groups)) with false.
    + rewrite Hempty. cbn [isNil negb orb].
      replace (0 =? capNum) with false by (symmetry; apply Z.eqb_neq; lia).
      reflexivity.
    + symmetry. apply andb_false_iff.
      destruct (Z.le_gt_cases 0 capNum) as [H0|H0].
      * right. apply Z.ltb_ge. lia.
      * left. rewrite Z.geb_leb. apply Z.leb_gt. lia.
Qed.

(** ** The count comparison *)

(** The comparison [countIsLessThan] writes is [count == 0] for the bound 1
    and [count < bound] otherwise; on a count that is not negative it means
    [count < bound] in both cases, and for the bound 1 it does not on a
    negative one. *)
Theorem countIsLessThan_means_less (count : string) (bound : Z) :
  exists c : cond,
    render c = countIsLessThan count bound
    /\ (forall env : string -> Z, 0 <= env count -> holds env c = (env count <? bound))
    /\ (bound = 1 -> forall env : string -> Z, env count < 0 -> holds env c = false).
Proof.
  unfold countIsLessThan.
  destruct (bound =? 1) eqn:E.
  - apply Z.eqb_eq in E. subst bound. exists (CountIsZero count).
    split; [reflexivity|]. split.
    + intros env H. cbn.
      destruct (Z.eqb_spec (env count) 0), (Z.ltb_spec (env count) 1); try reflexivity; lia.
    + intros _ env H. cbn. apply Z.eqb_neq. lia.
  - apply Z.eqb_neq in E. exists (CountBelow count bound).
    split; [reflexivity|]. split; [reflexivity | contradiction].
Qed.

(** ** The node after a child *)

(** [getSubsequentOrDefault] gives the first sibling after index [i] that is
    not an [UpdateBumpalong]; when there is none, every sibling after [i] is
    one, and it gives the default. *)
Theorem getSubsequentOrDefault_skips_bumpalong (i : Z) (node : Node)
    (defaultNode : option Node) (Hindex : 0 <= i) :
  let after := skipn (Z.to_nat (i + 1)) (Children node) in
  (exists skipped next later,
      after = skipped ++ next :: later
      /\ Forall (fun c => T c = NtUpdateBumpalong) skipped
      /\ T next <> NtUpdateBumpalong
      /\ getSubsequentOrDefault i node defaultNode = Some next)
  \/ (Forall (fun c => T c = NtUpdateBumpalong) after
      /\ getSubsequentOrDefault i node defaultNode = defaultNode).
Proof.
  intros after. unfold getSubsequentOrDefault. fold after. clear Hindex.
  assert (Heqb : forall c : Node,
             negb (NodeType_eqb (T c) NtUpdateBumpalong) = false -> T c = NtUpdateBumpalong).
  { intros c H. apply negb_false_iff in H. destruct (T c); try discriminate. reflexivity. }
  assert (Hneq : forall c : Node,
             negb (NodeType_eqb (T c) NtUpdateBumpalong) = true -> T c <> NtUpdateBumpalong).
  { intros c H E. rewrite E in H. discriminate. }
  induction after as [|c rest IH]; cbn [find].
  - right. split; [constructor | reflexivity].
  - destruct (negb (NodeType_eqb (T c) NtUpdateBumpalong)) eqn:E.
    + left. exists [], c, rest. repeat split; [constructor | now apply Hneq].
    + destruct IH as [(skipped & next & later & -> & Hs & Hn & Hf)|[Hall Hf]].
      * left. exists (c :: skipped), next, later.
        repeat split; try assumption. constructor; [now apply Heqb | exact Hs].
      * right. split; [|exact Hf]. constructor; [now apply Heqb | exact Hall].
Qed.

(** ** Node kinds without code *)



(** ** Atomic groups *)

(** When [emitExecuteAtomic] returns, it has added the late declaration of
    [stackpos], saved [stackpos] in a local of its own before the child's
    code, run the dispatcher once, on the first child and from a state with
    the [doneLabel] it found, restored [stackpos] from the same local after
    the child's code, and put [doneLabel] back to what it found: nothing after
    the group jumps back into it. *)
Theorem emitExecuteAtomic_brackets_child
    (emitNode : Node -> option Node -> bool -> Emit CharSet unit)
    (node : Node) (subsequent : option Node) (rm rm' : Data)
    (Hrun : emitExecuteAtomic emitNode node subsequent rm = Ok tt rm') :
  exists (child : Node) (others : list Node) (saved : string) (before after : Data),
    Children node = child :: others
    /\ out before = out rm ++ [Line (sprint [saved; " = stackpos"; nl])]
    /\ additionalDeclarations before = additionalDeclarations rm ++ ["stackpos := 0"]
    /\ doneLabel before = doneLabel rm
    /\ emitNode child subsequent true before = Ok tt after
    /\ rm' = set_doneLabel (doneLabel rm)
               (set_out (out after ++ [Line (sprint [nl; "stackpos = "; saved])]) after).
Proof.
  unfold emitExecuteAtomic in Hrun. unfold bind at 1 in Hrun. unfold get in Hrun.
  apply bind_Ok_inv in Hrun as ([] & rm1 & E1 & Hrun). injection E1 as <-.
  apply bind_Ok_inv in Hrun as (saved & rm2 & E2 & Hrun). injection E2 as <- <-.
  apply bind_Ok_inv in Hrun as ([] & rm3 & E3 & Hrun). injection E3 as <-.
  apply bind_Ok_inv in Hrun as (child & rm4 & E4 & Hrun).
  unfold childAt, index in E4.
  destruct (Children node) as [|c others] eqn:Hchildren; [discriminate|].
  cbn in E4. injection E4 as <- <-.
  apply bind_Ok_inv in Hrun as ([] & after & E5 & Hrun).
  apply bind_Ok_inv in Hrun as ([] & rm6 & E6 & Hrun). injection E6 as <-.
  injection Hrun as <-.
  match type of E5 with
  | emitNode _ _ _ ?st = _ =>
      exists c, others, (nameFor "atomic_stackpos"
                           (lookupName "atomic_stackpos" (usedNames rm))), st, after
  end.
  split; [reflexivity|]. split; [reflexivity|]. split; [reflexivity|].
  split; [reflexivity|]. split; [exact E5 | reflexivity].
Qed.

(** ** A concatenation as a branch of a switch *)

(** In a switch, a branch that is a concatenation is emitted in full only
    when its first child is the starting literal itself and that literal is
    a character, a set or a string.  Otherwise (the branch [a+b], whose
    starting literal is a loop) the code of [HandleChild] leaves no remainder
    and writes nothing: the branch's [case] is followed by no matching code,
    and the dispatcher is not called for the branch. *)
Theorem switched_concatenation_without_code
    (emitNode : Node -> option Node -> bool -> Emit CharSet unit)
    (budget : nat) (child literal first : Node) (others rest : list Node)
    (sp : Z) (done : string) (setChars : list rune * Z) (rm : Data)
    (Hliteral : FindStartingLiteralNode X child false = Some literal)
    (Hkind : T child = NtConcatenate)
    (Hfirst : Children child = first :: others)
    (Hplain : (Addr first =? Addr literal) && isOneSetOrMulti (T literal) = false) :
  exists (label : string) (setChars' : list rune * Z),
    switchedBranches X emitNode budget (child :: rest) sp done setChars rm
    = bind (modify (set_sliceStaticPos sp))
        (fun _ => bind (writeLine (sprint ["case "; label; ":"]))
        (fun _ => bind (modify (set_doneLabel done))
        (fun _ => bind (transferSliceStaticPosToPos false)
        (fun _ => bind (writeLine "")
        (fun _ => switchedBranches X emitNode budget rest sp done setChars'))))) rm.
Proof.
  assert (Hhandle : forall st, handleChild X emitNode budget child literal None st = Ok None st).
  { intros st. destruct budget; cbn [handleChild]; rewrite Hkind;
      unfold childAt, index, bind; rewrite Hfirst; cbn; rewrite Hplain; reflexivity. }
  cbn [switchedBranches]. rewrite Hliteral.
  destruct (IsSetFamily X literal); eexists _, _;
    unfold bind, writeLine, modify, ret; cbv beta iota; rewrite Hhandle; reflexivity.
Qed.

(** ** Anchors *)

Lemma parensBalancedFrom_parenFree (depth : nat) (a b : string) :
  parenFree a = true ->
  parensBalancedFrom depth (a ++ b) = parensBalancedFrom depth b.
Proof.
  induction a as [|c a IH]; [reflexivity|].
  cbn [parenFree append parensBalancedFrom]. intros H.
  apply andb_prop in H as [H Ha]. apply andb_prop in H as [Ho Hc].
  apply negb_true_iff in Ho, Hc. rewrite Ho, Hc. now apply IH.
Qed.

Lemma parenFree_numeral (s : string) : numeral s = true -> parenFree s = true.
Proof.
  induction s as [|c s IH]; [reflexivity|].
  cbn [numeral parenFree]. intros H. apply andb_prop in H as [Hc Hs].
  rewrite (IH Hs), andb_true_r.
  destruct c as [[] [] [] [] [] [] [] []]; cbv in Hc |- *;
    first [reflexivity | discriminate].
Qed.

Ltac balanced :=
  unfold parensBalanced; rewrite ?sprint_cons, ?sprint_nil;
  repeat first
    [ rewrite parensBalancedFrom_parenFree by
        first [assumption | apply parenFree_numeral, numeral_itoa]
    | progress cbn [parensBalancedFrom append Ascii.eqb Bool.eqb Nat.eqb] ];
  reflexivity.

(** For the anchors other than the end of a line ([Beginning], [Start],
    [Bol], [End], [EndZ]): [Beginning] and [Start] with a positive static
    offset fail without a test; otherwise one [if] is written, on a condition
    whose parentheses are balanced, around the failure [doneLabel] asks for.
    Nothing but the output (and the record of the labels used) changes. *)
Theorem emitExecuteAnchors_plain (node : Node) (rm : Data)
    (Hkind : isPlainAnchor (T node) = true)
    (Hslice : parenFree (sliceSpan rm) = true) :
  exists rm',
    emitExecuteAnchors node rm = Ok tt rm'
    /\ sameControl rm rm'
    /\ (if (sliceStaticPos rm >? 0)
            && (NodeType_eqb (T node) NtBeginning || NodeType_eqb (T node) NtStart)
        then out rm' = out rm ++ failureJump rm (doneLabel rm)
        else exists line,
               out rm' = out rm ++ Line line :: failureJump rm (doneLabel rm) ++ [Line "}"]
               /\ startsWith "if " line = true
               /\ parensBalanced line = true).
Proof.
  assert (Hif : forall line,
             exists rm',
               bind (writeLine line)
                 (fun _ => bind (emitExecuteGoto (doneLabel rm)) (fun _ => writeLine "}")) rm
               = Ok tt rm'
               /\ sameControl rm rm'
               /\ out rm' = out rm ++ Line line :: failureJump rm (doneLabel rm) ++ [Line "}"]).
  { intros line.
    destruct (emitExecuteGoto_writes (doneLabel rm) (set_out (out rm ++ [Line line]) rm))
      as (rm1 & E1 & Hout & Hd & Hs & Hp & Ht & Hc).
    eexists. unfold bind at 1. unfold writeLine at 1, modify at 1. unfold bind at 1.
    rewrite E1. split; [reflexivity|]. split.
    - unfold sameControl. cbn. repeat split; assumption.
    - cbn. rewrite Hout. cbn. rewrite <- !app_assoc. reflexivity. }
  unfold emitExecuteAnchors. unfold bind at 1. unfold get at 1.
  destruct (T node) eqn:Ekind; try discriminate; cbn [NodeType_eqb orb andb];
    rewrite ?andb_false_r, ?andb_true_r;
    destruct (sliceStaticPos rm >? 0) eqn:Epos; cbn [andb];
    try (destruct (emitExecuteGoto_writes (doneLabel rm) rm) as (rm' & E & Hout & Hsame);
         exists rm'; split; [exact E|]; split; assumption);
    rewrite ?Ekind; cbn [NodeType_eqb];
    match goal with
    | |- context [bind (writeLine ?line) _ rm] =>
        destruct (Hif line) as (rm' & E & Hsame & Hout);
        exists rm'; split; [exact E|]; split; [exact Hsame|];
        exists line; split; [exact Hout|]; split; [reflexivity | balanced]
    end.
Qed.

(** ** Characters, sets and strings *)

(** For a character, a set or a string the dispatcher returns from every
    state, whatever its fuel beyond the first unit, and has only added to the
    output.  Left to right, and when the node is not the loop of a
    literal-after-loop search, it has advanced the static offset by the
    length of what the node matches, the length [emitExecute] jumps by when
    such a node is the whole pattern, and has left the done label and the
    slice as they were. *)
Theorem emitExecuteNode_atoms_advance_offset (fuel : nat) (node : Node)
    (subsequent : option Node) (emitLengthChecksIfRequired : bool) (rm : Data)
    (Hkind : isFixedLengthAtom (T node) = true) :
  exists rm' : Data,
    emitExecuteNode X (S fuel) node subsequent emitLengthChecksIfRequired rm = Ok tt rm'
    /\ extends rm rm'
    /\ (FindMode (Tree rm) = OtherFindMode ->
        isRightToLeft X (Options node) = false ->
        sliceStaticPos rm'
        = int_add (sliceStaticPos rm)
            (if NodeType_eqb (T node) NtMulti then len (Str node) else 1)
        /\ doneLabel rm' = doneLabel rm
        /\ sliceSpan rm' = sliceSpan rm).
Proof.
  destruct (returns_emitExecuteNodeBody_atom X (emitExecuteNode X fuel) fuel node
              subsequent emitLengthChecksIfRequired Hkind rm) as ([] & rm' & E & HX).
  exists rm'. split; [exact E|]. split; [exact HX|].
  intros Hmode Hdirection.
  cbn [emitExecuteNode] in E. unfold emitExecuteNodeBody in E.
  unfold bind at 1 in E. unfold get at 1 in E.
  rewrite Hmode, Hdirection in E. unfold when in E.
  unfold emitDescribedNode, describeNode, emitExecuteSingleChar,
    emitExecuteMultiCharString in E.
  rewrite Hdirection in E.
  destruct (T node); try discriminate Hkind;
    unfold bind, get, ret, writeLine, modify in E;
    cbn -[sprint itoa int_add len emitExecuteGoto] in E;
    match type of E with
    | context [emitExecuteGoto ?l ?st] =>
        destruct (emitExecuteGoto_writes l st) as (rm1 & E1 & _ & Hd & Hs & Hp & _);
        rewrite E1 in E
    end;
    injection E as <-; cbn -[int_add len] in *;
    rewrite Hd, Hs, Hp; repeat split.
Qed.

(** ** The optional single character *)

(** Left to right, an optional single character writes a guarded step and
    leaves the state as it was, the static offset included. The guard tests
    for room and then compares the element at the static offset; at offset 0
    the test for room holds only for an empty slice, at any other offset it
    holds only when the offset is within the slice. *)
Theorem optional_char_guard (node : Node) (rm : Data)
    (Hdirection : isRightToLeft X (Options node) = false) :
  exists (test : spaceTest) (comparison : string),
    emitExecuteAtomicSingleCharZeroOrOne X node rm =
      Ok tt (set_out (out rm
                      ++ [Line (sprint ["if "; renderSpace test; " && "; comparison; " {"]);
                          Line (sprint [sliceSpan rm; " = "; sliceSpan rm; "[1:]"; nlt 2;
                                        "pos++"]);
                          Line "}"]) rm)
    /\ (IsSetFamily X node = false ->
        comparison = sprint [sliceSpan rm; "["; itoa (sliceStaticPos rm); "] ";
                             if IsOneFamily X node then "==" else "!=";
                             " "; fmt_q X (Ch node)])
    /\ (forall length pos : Z,
          spaceHolds length pos test = true ->
          if sliceStaticPos rm =? 0 then length = 0 else sliceStaticPos rm < length).
Proof.
  unfold emitExecuteAtomicSingleCharZeroOrOne. rewrite Hdirection.
  unfold when, bind, ret, get, writeLine, modify. cbn -[sprint itoa].
  destruct (sliceStaticPos rm =? 0) eqn:Ezero; cbn -[sprint itoa].
  - exists (SliceIsEmpty (sliceSpan rm)). eexists. split; [|split].
    + rewrite <- !app_assoc. reflexivity.
    + intros ->. cbn. rewrite !append_assoc. cbn. rewrite !append_assoc. reflexivity.
    + cbn. intros length _ E. lia.
  - exists (SliceLongerThan (sliceSpan rm) (sliceStaticPos rm)). eexists. split; [|split].
    + rewrite <- !app_assoc. reflexivity.
    + intros ->. cbn. rewrite !append_assoc. cbn. rewrite !append_assoc. reflexivity.
    + cbn. intros length _ E. lia.
Qed.

(** ** The layout of the routine *)

Lemma writeLines_writes (ls : list string) (rm : Data) :
  writeLines ls rm = Ok tt (set_out (out rm ++ map Line ls) rm).
Proof.
  revert rm. induction ls as [|l ls IH]; intros rm; cbn [writeLines map].
  - unfold ret. rewrite app_nil_r. now destruct rm.
  - unfold bind, writeLine, modify. rewrite IH. cbn. now rewrite <- app_assoc.
Qed.

(** When the root's child is none of the degenerate kinds, it is emitted into
    a fresh buffer, from the state [executeBodyStart]; once the dispatcher
    returns, the routine is the header, then every declaration asked for by
    then, then the buffer, then the success path, which first adds what is
    left of the static offset to [pos], and the closing brace; the list of
    late declarations is emptied. *)
Theorem emitExecute_declarations_before_body
    (emitNode : Node -> option Node -> bool -> Emit CharSet unit)
    (rm after : Data) (root : Node) (others : list Node)
    (Hroot : Children (Root (Tree rm)) = root :: others)
    (Hkind : NodeType_eqb (T root) NtEmpty || NodeType_eqb (T root) NtNothing
             || isFixedLengthAtom (T root) = false)
    (Hbody : emitNode root None true (executeBodyStart rm root) = Ok tt after) :
  exists rm' : Data,
    emitExecuteWith X emitNode rm = Ok tt rm'
    /\ out rm' =
         out rm
         ++ executeHeader rm :: map Line (additionalDeclarations after)
         ++ out after
         ++ Line (sprint [nl; "// The input matched."])
            :: (if sliceStaticPos after >? 0
                then [Line (if sliceStaticPos after =? 1 then "pos++"
                            else sprint ["pos += "; itoa (sliceStaticPos after)])]
                else [])
         ++ [Line (sprint ["r.Runtextpos = pos"; nlt 3;
                           "r.Capture(0, matchStart, pos)"; nlt 3; "return nil"]);
             Line (sprint ["}"; nl])]
    /\ additionalDeclarations rm' = []
    /\ usedNames rm' = usedNames after
    /\ doneLabel rm' = doneLabel after.
Proof.
  apply orb_false_iff in Hkind as [Hkind E3]. apply orb_false_iff in Hkind as [E1 E2].
  unfold emitExecuteWith, childAt, index, bind, get, writeLine, modify, when, write,
    sliceInputSpan, reserveName, ret.
  cbn. rewrite Hroot. cbn. rewrite E1, E2, E3. cbn.
  match goal with
  | |- context [emitNode root None true ?st] =>
      replace st with (executeBodyStart rm root) by (destruct rm; reflexivity)
  end.
  rewrite Hbody. unfold executeHeader.
  destruct (sliceStaticPos after >? 0) eqn:Epos.
  - unfold emitAddStmt, writeLine, modify, ret. cbn [out set_out sliceStaticPos].
    assert (Ezero : (sliceStaticPos after =? 0) = false) by lia.
    assert (Eminus : (sliceStaticPos after =? -1) = false) by lia.
    rewrite Ezero, Eminus, Epos.
    destruct (sliceStaticPos after =? 1); rewrite writeLines_writes; cbn;
      (eexists; split; [reflexivity|]); cbn;
      (split; [rewrite <- ?app_assoc; reflexivity|repeat split]).
  - rewrite writeLines_writes; cbn.
    eexists; split; [reflexivity|]; cbn.
    split; [rewrite <- ?app_assoc; reflexivity|repeat split].
Qed.

End Further.

(** * The concrete instance *)

Section Instances.

Import Sample.


(** The description of a loop is the same in two states that differ in their
    output and their done label. *)
Lemma describeNode_pure_witness :
  exists description : string,
    describeNode externals loopOfOptional
      (within "AlternationBranch" false (analysis [] [40] [] false))
    = Ok description (within "AlternationBranch" false (analysis [] [40] [] false))
    /\ describeNode externals loopOfOptional
         (set_out [Line "pos++"]
            (within "LoopIterationNoMatch" false (analysis [] [40] [] false)))
       = Ok description
           (set_out [Line "pos++"]
              (within "LoopIterationNoMatch" false (analysis [] [40] [] false))).
Proof.
  exact (describeNode_pure externals loopOfOptional
           (within "AlternationBranch" false (analysis [] [40] [] false))
           (set_out [Line "pos++"]
              (within "LoopIterationNoMatch" false (analysis [] [40] [] false)))
           eq_refl eq_refl).
Defined.

(** With a static offset of 3, the transfer writes the advance and the
    reslice, and leaves the offset at 0. *)
Lemma transferSliceStaticPosToPos_spec_witness :
  exists rm' : regexpData CharSet,
    transferSliceStaticPosToPos false
      (set_sliceStaticPos 3 (within "AlternationBranch" false (analysis [] [] [] false)))
    = Ok tt rm'
    /\ sliceStaticPos rm' = 0
    /\ transferSliceStaticPosToPos false rm' = Ok tt rm'
    /\ out rm' = [Line "pos += 3"; Line "slice = r.Runtext[pos:]"].
Proof.
  destruct (transferSliceStaticPosToPos_spec
              (set_sliceStaticPos 3
                 (within "AlternationBranch" false (analysis [] [] [] false)))
              false ltac:(cbn; lia))
    as (rm' & E & Hzero & _ & Hagain & Hout).
  exists rm'. repeat split; try assumption. apply Hout. cbn. lia.
Defined.

(** The empty pattern, emitted with no fuel at all. *)
Lemma emitExecute_degenerate_shortcuts_witness :
  emitExecute externals 0 (start (group NtEmpty 0 0 [] 2) (analysis [] [] [] false))
  = Ok tt
      (set_out [Line "func (Sample_Engine) Execute(r *regexp2.Runner) error {";
                Line "// The pattern matches the empty string";
                Line "var pos = r.Runtextpos";
                Line "r.Capture(0, pos, pos)";
                Line "return nil";
                Line (sprint ["}"; nl])]
         (start (group NtEmpty 0 0 [] 2) (analysis [] [] [] false))).
Proof.
  exact (proj1 (emitExecute_degenerate_shortcuts externals (emitExecuteNode externals 0)
                  (start (group NtEmpty 0 0 [] 2) (analysis [] [] [] false))
                  (group NtEmpty 0 0 [] 2) [] eq_refl)
           eq_refl).
Defined.

Lemma catDogFish_kinds (child literal : RegexNode CharSet) :
  In child (Children catDogFish) ->
  FindStartingLiteralNode externals child false = Some literal ->
  IsNotoneFamily externals literal = false ->
  IsSetFamily externals literal
  = negb (IsOneFamily externals literal || NodeType_eqb (T literal) NtMulti).
Proof.
  intros [<-|[<-|[<-|[]]]] E _; vm_compute in E; injection E as <-; reflexivity.
Qed.

Lemma catDogFish_distinct (child literal : RegexNode CharSet) :
  In child (Children catDogFish) ->
  FindStartingLiteralNode externals child false = Some literal ->
  NoDup (fst (GetSetChars externals (Set_ literal) ([], SetCharsSize))).
Proof.
  intros [<-|[<-|[<-|[]]]] E; vm_compute in E; injection E as <-; constructor.
Qed.

Lemma catDogFish_buffer (child literal : RegexNode CharSet) (buffer : list rune * Z) :
  In child (Children catDogFish) ->
  FindStartingLiteralNode externals child false = Some literal ->
  snd buffer = SetCharsSize ->
  fst (GetSetChars externals (Set_ literal) buffer)
  = fst (GetSetChars externals (Set_ literal) ([], SetCharsSize))
  /\ snd (GetSetChars externals (Set_ literal) buffer) = SetCharsSize.
Proof. intros _ _ Hcap. split; [reflexivity | exact Hcap]. Qed.

Lemma catDogFish_wellFormed (child : RegexNode CharSet) :
  In child (Children catDogFish) -> wellFormedBranch externals child.
Proof. intros [<-|[<-|[<-|[]]]]; cbn; discriminate. Qed.

(** The dispatcher returns for the rests [at], [og] and [ish], from every
    state. *)
Lemma catDogFish_returns (child n : RegexNode CharSet) (st : regexpData CharSet) :
  In child (Children catDogFish) ->
  In n (branchRest externals child) ->
  exists st', emitExecuteNode externals 3 n None true st = Ok tt st' /\ extends st st'.
Proof.
  intros Hchild Hn.
  assert (Hkind : isFixedLengthAtom (T n) = true)
    by (destruct Hchild as [<-|[<-|[<-|[]]]]; destruct Hn as [<-|[]]; reflexivity).
  destruct (returns_emitExecuteNodeBody_atom externals (emitExecuteNode externals 2) 2
              n None true Hkind st) as ([] & st' & E & HX).
  exists st'. split; [exact E | exact HX].
Qed.



(** The pattern [ab]: two characters forward, with no fuel at all. *)
Lemma emitExecute_fixed_length_root_witness :
  emitExecute externals 0 (start (multi "ab" 2) (analysis [] [] [] false))
  = Ok tt
      (set_out [Line "func (Sample_Engine) Execute(r *regexp2.Runner) error {";
                Line "// the search in findFirstChar did the entire match";
                Line "var start = r.Runtextpos";
                Line "var end = r.Runtextpos + 2";
                Line "r.Runtextpos = end";
                Line "r.Capture(0, start, end)";
                Line "return nil";
                Line (sprint ["}"; nl])]
         (start (multi "ab" 2) (analysis [] [] [] false))).
Proof.
  exact (emitExecute_fixed_length_root externals (emitExecuteNode externals 0)
           (start (multi "ab" 2) (analysis [] [] [] false)) (multi "ab" 2) []
           eq_refl eq_refl).
Defined.

(** With one group and no names, group 0 is described by its number and
    group 5, which does not exist, by an empty name. *)
Lemma describeCapture_numbered_groups_witness :
  describeCapture externals (within "AlternationBranch" false (analysis [] [] [] false)) 0
  = sprint [dq; "0"; dq; " capture group"]
  /\ describeCapture externals (within "AlternationBranch" false (analysis [] [] [] false)) 5
     = sprint [dq; dq; " capture group"].
Proof.
  split.
  - exact (proj1 (describeCapture_numbered_groups externals
                    (within "AlternationBranch" false (analysis [] [] [] false)) 0
                    eq_refl eq_refl eq_refl)
             ltac:(cbn; lia)).
  - exact (proj2 (describeCapture_numbered_groups externals
                    (within "AlternationBranch" false (analysis [] [] [] false)) 5
                    eq_refl eq_refl eq_refl)
             ltac:(cbn; lia) ltac:(lia)).
Defined.

(** After the first child of [a], an update of the bumpalong, [b], the next
    node that matters is [b]. *)
Lemma getSubsequentOrDefault_skips_bumpalong_witness :
  getSubsequentOrDefault 0
    (group NtConcatenate 0 0
       [one "a" 91; group NtUpdateBumpalong 0 0 [] 92; one "b" 93] 90) None
  = Some (one "b" 93).
Proof.
  destruct (getSubsequentOrDefault_skips_bumpalong 0
              (group NtConcatenate 0 0
                 [one "a" 91; group NtUpdateBumpalong 0 0 [] 92; one "b" 93] 90)
              None ltac:(lia))
    as [(skipped & next & later & _ & _ & _ & E)|[_ E]].
  - rewrite E. vm_compute in E. injection E as <-. reflexivity.
  - vm_compute in E. discriminate E.
Defined.



(** The atomic group [(?>a)]: the child's code stands between the saving and
    the restoring of the stack position. *)
Lemma emitExecuteAtomic_brackets_child_witness :
  exists (saved : string) (before after : regexpData CharSet),
    out before = [Line (sprint [saved; " = stackpos"; nl])]
    /\ additionalDeclarations before = ["stackpos := 0"]
    /\ emitExecuteNode externals 3 (one "a" 81) None true before = Ok tt after
    /\ emitExecuteAtomic (emitExecuteNode externals 3)
         (group NtAtomic 0 0 [one "a" 81] 80) None
         (within "AlternationBranch" false (analysis [] [] [] false))
       = Ok tt (set_doneLabel "AlternationBranch"
                  (set_out (out after ++ [Line (sprint [nl; "stackpos = "; saved])]) after)).
Proof.
  destruct (emitExecuteAtomic_brackets_child (emitExecuteNode externals 3)
              (group NtAtomic 0 0 [one "a" 81] 80) None
              (within "AlternationBranch" false (analysis [] [] [] false))
              (final (emitExecuteAtomic (emitExecuteNode externals 3)
                        (group NtAtomic 0 0 [one "a" 81] 80) None
                        (within "AlternationBranch" false (analysis [] [] [] false))))
              ltac:(vm_compute; reflexivity))
    as (child & others & saved & before & after & Hchild & Hout & Hlate & _ & Hrun & Hend).
  injection Hchild as <- <-.
  exists saved, before, after. repeat split; try assumption.
  cbn [doneLabel within] in Hend. rewrite <- Hend. vm_compute. reflexivity.
Defined.

(** The branch [a{1,3}b] of a switched alternation: the case label and the
    blank line, with a dispatcher that has no fuel. *)
Lemma switched_concatenation_without_code_witness :
  exists (label : string) (setChars' : list rune * Z),
    switchedBranches externals (emitExecuteNode externals 0) 1
      [group NtConcatenate 0 0
         [node NtOneloop 0 97 [] (false, []) 1 3 [] 96; one "b" 97] 95]
      0 "AlternationBranch" ([], 0)
      (within "AlternationBranch" false (analysis [] [] [] false))
    = bind (modify (set_sliceStaticPos 0))
        (fun _ => bind (writeLine (sprint ["case "; label; ":"]))
        (fun _ => bind (modify (set_doneLabel "AlternationBranch"))
        (fun _ => bind (transferSliceStaticPosToPos false)
        (fun _ => bind (writeLine "")
        (fun _ => switchedBranches externals (emitExecuteNode externals 0) 1 [] 0
                    "AlternationBranch" setChars')))))
        (within "AlternationBranch" false (analysis [] [] [] false)).
Proof.
  exact (switched_concatenation_without_code externals (emitExecuteNode externals 0) 1
           (group NtConcatenate 0 0
              [node NtOneloop 0 97 [] (false, []) 1 3 [] 96; one "b" 97] 95)
           (node NtOneloop 0 97 [] (false, []) 1 3 [] 96)
           (node NtOneloop 0 97 [] (false, []) 1 3 [] 96)
           [one "b" 97] [] 0 "AlternationBranch" ([], 0)
           (within "AlternationBranch" false (analysis [] [] [] false))
           eq_refl eq_refl eq_refl eq_refl).
Defined.

(** The anchor [^] under the multiline option. *)
Lemma emitExecuteAnchors_plain_witness :
  exists rm' : regexpData CharSet,
    emitExecuteAnchors (group NtBol 0 0 [] 61)
      (within "AlternationBranch" false (analysis [] [] [] false)) = Ok tt rm'
    /\ sameControl (within "AlternationBranch" false (analysis [] [] [] false)) rm'
    /\ exists line : string,
         out rm' = [Line line; Line "goto AlternationBranch"; Line "}"]
         /\ startsWith "if " line = true
         /\ parensBalanced line = true.
Proof.
  exact (emitExecuteAnchors_plain (group NtBol 0 0 [] 61)
           (within "AlternationBranch" false (analysis [] [] [] false)) eq_refl eq_refl).
Defined.

(** The string [ab] inside a branch: the offset goes from 0 to 2. *)
Lemma emitExecuteNode_atoms_advance_offset_witness :
  exists rm' : regexpData CharSet,
    emitExecuteNode externals 1 (multi "ab" 2) None true
      (within "AlternationBranch" false (analysis [] [] [] false)) = Ok tt rm'
    /\ sliceStaticPos rm' = 2
    /\ doneLabel rm' = "AlternationBranch".
Proof.
  destruct (emitExecuteNode_atoms_advance_offset externals 0 (multi "ab" 2) None true
              (within "AlternationBranch" false (analysis [] [] [] false)) eq_refl)
    as (rm' & Hrun & _ & Hoffset).
  destruct (Hoffset eq_refl eq_refl) as (Hpos & Hdone & _).
  exists rm'. split; [exact Hrun|]. split; [exact Hpos | exact Hdone].
Defined.

(** The optional character [a?] at offset 0. *)
Lemma optional_char_guard_witness :
  exists test : spaceTest,
    emitExecuteAtomicSingleCharZeroOrOne externals
      (node NtOneloop 0 97 [] (false, []) 0 1 [] 62)
      (within "AlternationBranch" false (analysis [] [] [] false))
    = Ok tt
        (set_out [Line (sprint ["if "; renderSpace test; " && slice[0] == 'a' {"]);
                  Line (sprint ["slice = slice[1:]"; nlt 2; "pos++"]);
                  Line "}"]
           (within "AlternationBranch" false (analysis [] [] [] false)))
    /\ forall length pos : Z, spaceHolds length pos test = true -> length = 0.
Proof.
  destruct (optional_char_guard externals (node NtOneloop 0 97 [] (false, []) 0 1 [] 62)
              (within "AlternationBranch" false (analysis [] [] [] false)) eq_refl)
    as (test & comparison & Hrun & Hcomparison & Hroom).
  exists test. split; [|exact Hroom].
  rewrite Hrun, (Hcomparison eq_refl). reflexivity.
Defined.

(** The atomic group [(?>a)] as the whole pattern, its child able to
    backtrack: the declaration of [stackpos], asked for while the group is
    emitted, stands right after the header. *)
Lemma emitExecute_declarations_before_body_witness :
  exists (rm' : regexpData CharSet) (body : list emission),
    emitExecute externals 3
      (start (group NtAtomic 0 0 [one "a" 81] 80) (analysis [] [] [81] false)) = Ok tt rm'
    /\ out rm' =
       Line "func (Sample_Engine) Execute(r *regexp2.Runner) error {"
       :: Line "stackpos := 0"
       :: Line (sprint ["pos := r.Runtextpos"; nlt 3; "matchStart := pos"; nlt 3])
       :: Frag "var " :: Line "slice = r.Runtext[pos:]" :: Line "" :: body
    /\ additionalDeclarations rm' = [].
Proof.
  destruct (emitExecute_declarations_before_body externals (emitExecuteNode externals 3)
              (start (group NtAtomic 0 0 [one "a" 81] 80) (analysis [] [] [81] false))
              (final (emitExecuteNode externals 3 (group NtAtomic 0 0 [one "a" 81] 80)
                        None true
                        (executeBodyStart
                           (start (group NtAtomic 0 0 [one "a" 81] 80)
                              (analysis [] [] [81] false))
                           (group NtAtomic 0 0 [one "a" 81] 80))))
              (group NtAtomic 0 0 [one "a" 81] 80) []
              eq_refl eq_refl ltac:(vm_compute; reflexivity))
    as (rm' & Hrun & Hout & Hlate & _).
  exists rm'. eexists. split; [exact Hrun|]. split; [|exact Hlate].
  rewrite Hout. vm_compute. reflexivity.
Defined.

End Instances.
